(** * prompt-registry: source identity, migrations, URL probing, OLAF adapter

    A shallow embedding of
    - [src/utils/sourceIdUtils.ts]                          (module [SourceId]),
    - [src/services/MigrationRegistry.ts]                   (module [Registry]),
    - [src/migrations/sourceIdNormalizationMigration.ts]    (module [Migration]),
    - [src/services/UrlValidator.ts]                        (module [Prober]),
    - [src/adapters/OlafCompetenciesAdapter.ts]             (module [Olaf]),
    - the file steps of the migration                       (module [MigrationFiles]),
    - [src/utils/commandUtils.ts]                           (module [Command]),
    - [src/commands/ValidateHubCommand.ts] and the reference and URL checks
      of [templates/validate-hub.js]         (modules [HubValidation], [HubScript]),
    - the singleton of [MigrationRegistry]                  (module [RegistryInstance]),
    - [src/utils/scaffoldUtils.ts]                          (module [Scaffold]),
    followed by the properties the specification states about them, one
    module of facts ([SourceIdFacts], [RegistryFacts], ...) per module of
    definitions, and by further properties of the code.

    Conventions.  A JavaScript string is a [string] of bytes (its UTF-8
    encoding); case mapping acts on the ASCII characters.  What
    the platform provides and the repository only calls -- the WHATWG [URL]
    class, [encodeURIComponent], [JSON.parse], the network -- enters as a
    section variable, so every theorem holds for whatever the platform
    answers; module [Samples] fixes some answers for the examples.  SHA-256
    is written out after FIPS 180-4 so that identifiers compute.  An
    asynchronous function is modelled by what its promise comes to. *)

From Stdlib Require Import NArith ZArith Lia Ascii.
From Stdlib Require String.
From stdpp Require Import base option list strings gmap pretty.

(* ===================================================================== *)
(** * JavaScript string primitives used by the sources                    *)
(* ===================================================================== *)

Module Js.

(** A character of [A-Z] is moved to [a-z]; every other byte is kept. *)
Definition lowerAscii (c : ascii) : ascii :=
  let n := nat_of_ascii c in
  if (65 <=? n)%nat && (n <=? 90)%nat then ascii_of_nat (n + 32) else c.

(** [s.toLowerCase()] on the ASCII characters: the bytes of a character
    outside ASCII are kept, whereas the engine also lowers the cased
    letters outside ASCII.  On a string of ASCII characters, such as the
    [hostname] and the [pathname] of a parsed URL, the two are the same. *)
Fixpoint toLowerCase (s : string) : string :=
  match s with
  | EmptyString => EmptyString
  | String c r => String (lowerAscii c) (toLowerCase r)
  end.

(** A character of [A-Z]. *)
Definition isUpper (c : ascii) : bool :=
  let n := nat_of_ascii c in (65 <=? n)%nat && (n <=? 90)%nat.

(** A character of ASCII. *)
Definition isAscii (c : ascii) : bool := (nat_of_ascii c <? 128)%nat.

(** [s.startsWith(p)] *)
Fixpoint startsWith (p s : string) : bool :=
  match p, s with
  | EmptyString, _ => true
  | String a p', String b s' => if Ascii.eqb a b then startsWith p' s' else false
  | String _ _, EmptyString => false
  end.

(** Drop the first [n] characters. *)
Fixpoint dropStr (n : nat) (s : string) : string :=
  match n, s with
  | O, _ => s
  | S n', String _ r => dropStr n' r
  | S _, EmptyString => EmptyString
  end.

(** [s.endsWith(p)] *)
Definition endsWith (p s : string) : bool :=
  startsWith (String.rev p) (String.rev s).

(** Longest prefix all of whose characters satisfy [f], and the rest. *)
Fixpoint spanStr (f : ascii -> bool) (s : string) : string * string :=
  match s with
  | EmptyString => (EmptyString, EmptyString)
  | String c r =>
      if f c then let '(a, b) := spanStr f r in (String c a, b)
      else (EmptyString, s)
  end.

(** Every character of [s] satisfies [f]. *)
Fixpoint allChars (f : ascii -> bool) (s : string) : bool :=
  match s with
  | EmptyString => true
  | String c r => f c && allChars f r
  end.

Definition isSlash (c : ascii) : bool := Ascii.eqb c "/"%char.

(** [s.replace(/^\/+/, '')] *)
Definition stripLeadingSlashes (s : string) : string := snd (spanStr isSlash s).

(** [s.replace(/\/+$/, '')]: the maximal run of slashes that ends the
    string is removed. *)
Definition stripTrailingSlashes (s : string) : string :=
  String.rev (stripLeadingSlashes (String.rev s)).

(** [s.replace(/^https?:\/\//, '')]: the pattern is case sensitive. *)
Definition stripProtocol (s : string) : string :=
  if startsWith "https://" s then dropStr 8 s
  else if startsWith "http://" s then dropStr 7 s
  else s.

(** [s.replace(/^([^/]+)/, (host) => host.toLowerCase())] *)
Definition lowerFirstSegment (s : string) : string :=
  let '(host, rest) := spanStr (fun c => negb (isSlash c)) s in
  toLowerCase host +:+ rest.

(** [s.substring(0, n)] for a non-negative [n]. *)
Definition substring0 (n : nat) (s : string) : string := String.substring 0 n s.

(** Truthiness of a string that may be [undefined]. *)
Definition truthy (o : option string) : bool :=
  match o with
  | Some s => negb (String.eqb s "")
  | None => false
  end.

(** [o || d] for an optional string [o] and a default [d]. *)
Definition orDefault (o : option string) (d : string) : string :=
  match o with
  | Some s => if String.eqb s "" then d else s
  | None => d
  end.

(** [s.includes(needle)] *)
Fixpoint includes (needle s : string) : bool :=
  startsWith needle s ||
  match s with
  | EmptyString => false
  | String _ r => includes needle r
  end.

(** [s.split('/')] *)
Fixpoint split (s : string) : list string :=
  match s with
  | EmptyString => [EmptyString]
  | String c r =>
      if isSlash c then EmptyString :: split r
      else match split r with
           | seg :: segs => String c seg :: segs
           | [] => [String c EmptyString]
           end
  end.

(** [s.substring(0, s.lastIndexOf('/'))]: everything before the last slash,
    and the empty string when there is none ([substring(0, -1)]). *)
Definition beforeLastSlash (s : string) : string :=
  match snd (spanStr (fun c => negb (isSlash c)) (String.rev s)) with
  | String _ r => String.rev r
  | EmptyString => EmptyString
  end.

(** [s.replace(/^\//, '')]: one leading slash is removed. *)
Definition dropLeadingSlash (s : string) : string :=
  match s with
  | String c r => if isSlash c then r else s
  | EmptyString => s
  end.

(** [s.replace(/\.git$/, '')] *)
Definition dropGitSuffix (s : string) : string :=
  if endsWith ".git" s then String.rev (dropStr 4 (String.rev s)) else s.

(** The white space and the line terminators that [trim] removes, as
    they are encoded in UTF-8: in one byte the ASCII ones (U+0009 to
    U+000D and U+0020), in two bytes U+00A0, and in three bytes U+1680,
    U+2000 to U+200A, U+2028, U+2029, U+202F, U+205F, U+3000 and
    U+FEFF. *)
Definition isSpace (c : ascii) : bool :=
  let n := nat_of_ascii c in
  (n =? 32)%nat || ((9 <=? n)%nat && (n <=? 13)%nat).

Definition isSpace2 (a b : ascii) : bool :=
  (nat_of_ascii a =? 194)%nat && (nat_of_ascii b =? 160)%nat.

Definition isSpace3 (a b c : ascii) : bool :=
  let x := nat_of_ascii a in
  let y := nat_of_ascii b in
  let z := nat_of_ascii c in
  ((x =? 225) && (y =? 154) && (z =? 128))%nat
  || ((x =? 226) && (y =? 128)
      && (((128 <=? z) && (z <=? 138)) || (z =? 168) || (z =? 169) || (z =? 175)))%nat
  || ((x =? 226) && (y =? 129) && (z =? 159))%nat
  || ((x =? 227) && (y =? 128) && (z =? 128))%nat
  || ((x =? 239) && (y =? 187) && (z =? 191))%nat.

(** [s.trimStart()] *)
Fixpoint trimStart (s : string) : string :=
  match s with
  | String a r =>
      if isSpace a then trimStart r
      else
        match r with
        | String b r2 =>
            if isSpace2 a b then trimStart r2
            else
              match r2 with
              | String c r3 => if isSpace3 a b c then trimStart r3 else s
              | EmptyString => s
              end
        | EmptyString => s
        end
  | EmptyString => s
  end.

(** The same on the reversed string, whose characters come last byte
    first. *)
Fixpoint trimStartReversed (s : string) : string :=
  match s with
  | String c r =>
      if isSpace c then trimStartReversed r
      else
        match r with
        | String b r2 =>
            if isSpace2 b c then trimStartReversed r2
            else
              match r2 with
              | String a r3 => if isSpace3 a b c then trimStartReversed r3 else s
              | EmptyString => s
              end
        | EmptyString => s
        end
  | EmptyString => s
  end.

(** [s.trim()] *)
Definition trim (s : string) : string :=
  String.rev (trimStartReversed (String.rev (trimStart s))).

(** [s.split(sep)] for a separator of one character. *)
Fixpoint splitOn (sep : ascii) (s : string) : list string :=
  match s with
  | EmptyString => [EmptyString]
  | String c r =>
      if Ascii.eqb c sep then EmptyString :: splitOn sep r
      else match splitOn sep r with
           | seg :: segs => String c seg :: segs
           | [] => [String c EmptyString]
           end
  end.

End Js.

(* ===================================================================== *)
(** * SHA-256 (FIPS 180-4), as [crypto.createHash('sha256')] computes it  *)
(* ===================================================================== *)

Module Sha256.

Local Open Scope N_scope.

Definition mask32 : N := 0xFFFFFFFF.
Definition trunc32 (x : N) : N := N.land x mask32.
Definition plus32 (x y : N) : N := trunc32 (x + y).
Definition rotr (n x : N) : N :=
  N.lor (N.shiftr x n) (trunc32 (N.shiftl x (32 - n))).

Definition choose (x y z : N) : N :=
  N.lxor (N.land x y) (N.land (N.lxor x mask32) z).
Definition majority (x y z : N) : N :=
  N.lxor (N.lxor (N.land x y) (N.land x z)) (N.land y z).
Definition bigSigma0 (x : N) : N := N.lxor (N.lxor (rotr 2 x) (rotr 13 x)) (rotr 22 x).
Definition bigSigma1 (x : N) : N := N.lxor (N.lxor (rotr 6 x) (rotr 11 x)) (rotr 25 x).
Definition smallSigma0 (x : N) : N := N.lxor (N.lxor (rotr 7 x) (rotr 18 x)) (N.shiftr x 3).
Definition smallSigma1 (x : N) : N := N.lxor (N.lxor (rotr 17 x) (rotr 19 x)) (N.shiftr x 10).

(** The constants are not tabulated but derived as the standard defines
    them: the first 32 bits of the fractional parts of the cube roots (for
    the rounds) and of the square roots (for the initial hash) of the first
    primes. *)
Definition isPrime (n : nat) : bool :=
  (2 <=? n)%nat && forallb (fun d => negb (n mod d =? 0)%nat) (seq 2 (n - 2)).

Definition firstPrimes (k : nat) : list N :=
  map N.of_nat (firstn k (List.filter isPrime (seq 2 400))).

(** The integer cube root of [n], one bit at a time from bit [bits - 1]. *)
Fixpoint cubeRoot (bits : nat) (n r : N) : N :=
  match bits with
  | O => r
  | S b =>
      let c := r + N.shiftl 1 (N.of_nat b) in
      cubeRoot b n (if c * c * c <=? n then c else r)
  end.

Definition fractionOfCubeRoot (p : N) : N :=
  trunc32 (cubeRoot 40 (N.shiftl p 96) 0).

Definition fractionOfSquareRoot (p : N) : N :=
  trunc32 (N.sqrt (N.shiftl p 64)).

Definition roundConstants : list N :=
  Eval vm_compute in map fractionOfCubeRoot (firstPrimes 64).

Definition initialHash : list N :=
  Eval vm_compute in map fractionOfSquareRoot (firstPrimes 8).

(** Padding: the byte 0x80, zero bytes up to 56 modulo 64, and the bit
    length as a 64-bit big-endian integer. *)
Fixpoint bigEndian (k : nat) (x : N) : list N :=
  match k with
  | O => []
  | S k' => N.land (N.shiftr x (8 * N.of_nat k')) 0xFF :: bigEndian k' x
  end.

Definition padMessage (msg : list N) : list N :=
  let len := length msg in
  let zeros := ((64 - (len + 9) mod 64) mod 64)%nat in
  msg ++ [0x80] ++ repeat 0 zeros ++ bigEndian 8 (8 * N.of_nat len).

Fixpoint wordsOf (bytes : list N) : list N :=
  match bytes with
  | a :: b :: c :: d :: r =>
      (N.shiftl a 24 + N.shiftl b 16 + N.shiftl c 8 + d) :: wordsOf r
  | _ => []
  end.

(** The message schedule, most recent word first. *)
Fixpoint extendSchedule (k : nat) (w : list N) : list N :=
  match k with
  | O => w
  | S k' =>
      let at_ i := nth i w 0 in
      extendSchedule k'
        (plus32 (plus32 (smallSigma1 (at_ 1%nat)) (at_ 6%nat))
                (plus32 (smallSigma0 (at_ 14%nat)) (at_ 15%nat)) :: w)
  end.

Definition schedule (block : list N) : list N :=
  rev (extendSchedule 48 (rev block)).

Record Regs := mkRegs { ra : N; rb : N; rc : N; rd : N; re : N; rf : N; rg : N; rh : N }.

Definition round (s : Regs) (kw : N * N) : Regs :=
  let t1 := plus32 (plus32 (plus32 (rh s) (bigSigma1 (re s)))
                           (plus32 (choose (re s) (rf s) (rg s)) (fst kw))) (snd kw) in
  let t2 := plus32 (bigSigma0 (ra s)) (majority (ra s) (rb s) (rc s)) in
  mkRegs (plus32 t1 t2) (ra s) (rb s) (rc s) (plus32 (rd s) t1) (re s) (rf s) (rg s).

Definition regsOf (h : list N) : Regs :=
  mkRegs (nth 0 h 0) (nth 1 h 0) (nth 2 h 0) (nth 3 h 0)
         (nth 4 h 0) (nth 5 h 0) (nth 6 h 0) (nth 7 h 0).

Definition listOf (s : Regs) : list N :=
  [ra s; rb s; rc s; rd s; re s; rf s; rg s; rh s].

Definition compress (h : list N) (block : list N) : list N :=
  let s := fold_left round (combine roundConstants (schedule block)) (regsOf h) in
  map (fun p => plus32 (fst p) (snd p)) (combine h (listOf s)).

Fixpoint blocks (fuel : nat) (ws : list N) : list (list N) :=
  match fuel with
  | O => []
  | S f =>
      match ws with
      | [] => []
      | _ => firstn 16 ws :: blocks f (skipn 16 ws)
      end
  end.

Definition digestWords (msg : list N) : list N :=
  let ws := wordsOf (padMessage msg) in
  fold_left compress (blocks (length ws) ws) initialHash.

Definition hexDigit (n : N) : ascii :=
  if n <? 10 then ascii_of_N (48 + n) else ascii_of_N (87 + n).

Fixpoint hexOfWord (k : nat) (x : N) : string :=
  match k with
  | O => EmptyString
  | S k' => String (hexDigit (N.land (N.shiftr x (4 * N.of_nat k')) 0xF)) (hexOfWord k' x)
  end.

Definition bytesOf (s : string) : list N := map N_of_ascii (String.list_ascii_of_string s).

(** [crypto.createHash('sha256').update(s).digest('hex')] *)
Definition hex (s : string) : string :=
  fold_right (fun w acc => hexOfWord 8 w +:+ acc) EmptyString (digestWords (bytesOf s)).

End Sha256.

(* ===================================================================== *)
(** * The platform's [URL] class                                          *)
(* ===================================================================== *)

(** The components of a parsed URL that the sources read.  [new URL(s)]
    is a function [string -> option URL]: [None] when the constructor
    throws. *)
Record URL := mkURL { protocol : string; hostname : string; pathname : string }.

(* ===================================================================== *)
(** * src/utils/sourceIdUtils.ts                                          *)
(* ===================================================================== *)

Module SourceId.

(** [interface SourceIdConfig { branch?: string; collectionsPath?: string }] *)
Record SourceIdConfig := mkConfig {
  branch : option string;
  collectionsPath : option string
}.

(** [config?.branch] and [config?.collectionsPath] for an optional [config]. *)
Definition branchOf (config : option SourceIdConfig) : option string :=
  config ≫= branch.
Definition collectionsPathOf (config : option SourceIdConfig) : option string :=
  config ≫= collectionsPath.

(** [normalizeBranch]: [!branch || branch === 'master'] gives ['main']. *)
Definition normalizeBranch (branch : option string) : string :=
  match branch with
  | None => "main"
  | Some b => if String.eqb b "" || String.eqb b "master" then "main" else b
  end.

(** [sourceId.startsWith('hub-') && sourceId.split('-').length >= 3] *)
Definition isLegacyHubSourceId (sourceId : string) : bool :=
  Js.startsWith "hub-" sourceId && (3 <=? length (Js.splitOn "-" sourceId))%nat.

(** [branch && branch !== 'main' && branch !== 'master'] *)
Definition namesOtherBranch (branch : option string) : bool :=
  Js.truthy branch
  && negb (bool_decide (branch = Some "main"))
  && negb (bool_decide (branch = Some "master")).

Section WithURL.

Variable newURL : string -> option URL.

Definition normalizeUrl (url : string) : string :=
  match newURL url with
  | Some parsedUrl =>
      let normalizedHost := Js.toLowerCase (hostname parsedUrl) in
      let normalizedPath :=
        Js.stripTrailingSlashes (Js.toLowerCase (pathname parsedUrl)) in
      normalizedHost +:+ normalizedPath
  | None =>
      Js.stripTrailingSlashes (Js.stripProtocol (Js.toLowerCase url))
  end.

Definition normalizeUrlLegacy (url : string) : string :=
  match newURL url with
  | Some parsedUrl =>
      let normalizedHost := Js.toLowerCase (hostname parsedUrl) in
      let normalizedPath := Js.stripTrailingSlashes (pathname parsedUrl) in
      normalizedHost +:+ normalizedPath
  | None =>
      Js.lowerFirstSegment (Js.stripTrailingSlashes (Js.stripProtocol url))
  end.

Definition generateHubSourceId
    (sourceType url : string) (config : option SourceIdConfig) : string :=
  let normalizedUrl := normalizeUrl url in
  let branch := normalizeBranch (branchOf config) in
  let collectionsPath := Js.orDefault (collectionsPathOf config) "collections" in
  let hash :=
    Js.substring0 12
      (Sha256.hex (sourceType +:+ ":" +:+ normalizedUrl +:+ ":" +:+ branch
                   +:+ ":" +:+ collectionsPath)) in
  sourceType +:+ "-" +:+ hash.

Definition generateLegacyHubSourceId
    (sourceType url : string) (config : option SourceIdConfig) : option string :=
  let legacyNormalized := normalizeUrlLegacy url in
  let currentNormalized := normalizeUrl url in
  if String.eqb legacyNormalized currentNormalized then None
  else
    let branch := normalizeBranch (branchOf config) in
    let collectionsPath := Js.orDefault (collectionsPathOf config) "collections" in
    let hash :=
      Js.substring0 12
        (Sha256.hex (sourceType +:+ ":" +:+ legacyNormalized +:+ ":" +:+ branch
                     +:+ ":" +:+ collectionsPath)) in
    Some (sourceType +:+ "-" +:+ hash).

Definition generateHubKey (url : string) (branch : option string) : string :=
  let normalizedUrl := normalizeUrl url in
  let hash := Js.substring0 12 (Sha256.hex normalizedUrl) in
  if namesOtherBranch branch then hash +:+ "-" +:+ default "" branch
  else hash.

Definition generateLegacyHubKey (url : string) (branch : option string) : option string :=
  let legacyNormalized := normalizeUrlLegacy url in
  let currentNormalized := normalizeUrl url in
  if String.eqb legacyNormalized currentNormalized then None
  else
    let hash := Js.substring0 12 (Sha256.hex legacyNormalized) in
    if namesOtherBranch branch then Some (hash +:+ "-" +:+ default "" branch)
    else Some hash.

End WithURL.

(** ** The identifier as the specification words it

    "hash [type:normalizedUrl:branch:collectionsPath] with a cryptographic
    digest and take a 12-character hex prefix; final id is [{type}-{hash}]",
    with "branch absent or [master] -> [main]" and "[collectionsPath]
    defaults to [collections]". *)

Definition idFormula (type normalizedUrl branch collectionsPath : string) : string :=
  type +:+ "-" +:+
  Js.substring0 12
    (Sha256.hex (type +:+ ":" +:+ normalizedUrl +:+ ":" +:+ branch
                 +:+ ":" +:+ collectionsPath)).

Definition statedBranch (branch : option string) : string :=
  match branch with
  | None => "main"
  | Some b => if String.eqb b "master" then "main" else b
  end.

Definition statedCollectionsPath (collectionsPath : option string) : string :=
  match collectionsPath with
  | Some p => p
  | None => "collections"
  end.

Definition statedId (newURL : string -> option URL)
    (type url : string) (config : option SourceIdConfig) : string :=
  idFormula type (normalizeUrl newURL url)
    (statedBranch (branchOf config))
    (statedCollectionsPath (collectionsPathOf config)).

(** An empty string counts as an absent value. *)
Definition nonEmpty (o : option string) : option string :=
  match o with
  | Some s => if String.eqb s "" then None else Some s
  | None => None
  end.

Definition withoutEmpty (config : option SourceIdConfig) : option SourceIdConfig :=
  match config with
  | Some c => Some (mkConfig (nonEmpty (branch c)) (nonEmpty (collectionsPath c)))
  | None => None
  end.

End SourceId.

(* ===================================================================== *)
(** * Errors, logging and results shared by the services                  *)
(* ===================================================================== *)

(** A thrown JavaScript [Error]: its [message] and its optional [code]. *)
Record JsError := mkError { errorMessage : string; errorCode : option string }.

Inductive Level := Debug | Info | Warn | Error.

(** One call of the [Logger]: the level, the text, the error passed along. *)
Record LogEntry := mkLog { level : Level; text : string; cause : option JsError }.

(** How a call ends: it returns a value or throws. *)
Inductive Result (A : Type) := Returned (a : A) | Threw (e : JsError).
Arguments Returned {A} a.
Arguments Threw {A} e.

(* ===================================================================== *)
(** * src/services/MigrationRegistry.ts                                   *)
(* ===================================================================== *)

Module Registry.

Inductive Status := pending | completed | skipped.

Definition statusName (s : Status) : string :=
  match s with
  | pending => "pending"
  | completed => "completed"
  | skipped => "skipped"
  end.

Record MigrationRecord := mkRecord {
  status : Status;
  completedAt : option string;
  details : option string
}.

Definition STATE_KEY : string := "promptregistry.migrations".

Section WithEnv.

(** Everything a migration function may touch besides the registry: files,
    configuration, counters. *)
Variable Env : Type.

(** The state the registry runs in: the extension's [globalState] (a map
    from keys to stored values), the log, the clock reading that
    [new Date().toISOString()] returns, and the rest of the world. *)
Record World := mkWorld {
  globalState : gmap string (gmap string MigrationRecord);
  logged : list LogEntry;
  clock : string;
  env : Env
}.

(** An asynchronous call, run to its end: it changes the world and returns
    or throws. *)
Definition M (A : Type) : Type := World -> Result A * World.

Definition ret {A} (a : A) : M A := fun w => (Returned a, w).

Definition bind {A B} (m : M A) (k : A -> M B) : M B :=
  fun w =>
    match m w with
    | (Returned a, w') => k a w'
    | (Threw e, w') => (Threw e, w')
    end.

Definition throw {A} (e : JsError) : M A := fun w => (Threw e, w).

(** [try { body } catch (error) { handler(error) }] *)
Definition tryCatch {A} (body : M A) (handler : JsError -> M A) : M A :=
  fun w =>
    match body w with
    | (Returned a, w') => (Returned a, w')
    | (Threw e, w') => handler e w'
    end.

#[local] Instance M_ret : MRet M := @ret.
#[local] Instance M_bind : MBind M := fun A B k m => bind m k.

Definition log (l : Level) (msg : string) (err : option JsError) : M unit :=
  fun w => (Returned tt,
            mkWorld (globalState w) (logged w ++ [mkLog l msg err]) (clock w) (env w)).

(** [new Date().toISOString()] *)
Definition toISOString : M string := fun w => (Returned (clock w), w).

(** [context.globalState.get(key, {})] *)
Definition globalStateGet (key : string) : M (gmap string MigrationRecord) :=
  fun w => (Returned (default ∅ (globalState w !! key)), w).

(** [context.globalState.update(key, value)] *)
Definition globalStateUpdate (key : string) (value : gmap string MigrationRecord) : M unit :=
  fun w => (Returned tt,
            mkWorld (<[key := value]> (globalState w)) (logged w) (clock w) (env w)).

Definition getMigrationState : M (gmap string MigrationRecord) :=
  globalStateGet STATE_KEY.

Definition isMigrationComplete (name : string) : M bool :=
  state ← getMigrationState;
  ret (match state !! name with
       | Some r => match status r with completed => true | _ => false end
       | None => false
       end).

Definition markMigrationComplete (name : string) (details : option string) : M unit :=
  state ← getMigrationState;
  stamp ← toISOString;
  globalStateUpdate STATE_KEY (<[name := mkRecord completed (Some stamp) details]> state);;
  log Info ("Migration '" +:+ name +:+ "' marked as completed") None.

Definition markMigrationSkipped (name : string) (reason : option string) : M unit :=
  state ← getMigrationState;
  stamp ← toISOString;
  globalStateUpdate STATE_KEY (<[name := mkRecord skipped (Some stamp) reason]> state);;
  log Info ("Migration '" +:+ name +:+ "' skipped: " +:+ Js.orDefault reason "no reason") None.

Definition runMigration (name : string) (fn : M unit) : M unit :=
  state ← getMigrationState;
  let record := state !! name in
  match record with
  | Some (mkRecord completed _ _ as r) | Some (mkRecord skipped _ _ as r) =>
      log Debug ("Migration '" +:+ name +:+ "' already " +:+ statusName (status r)
                 +:+ ", skipping") None
  | _ =>
      log Info ("Running migration '" +:+ name +:+ "'...") None;;
      tryCatch
        (fn;; markMigrationComplete name None)
        (fun error =>
           log Error ("Migration '" +:+ name +:+ "' failed") (Some error);;
           throw error)
  end.

End WithEnv.

Arguments mkWorld {Env}.
Arguments globalState {Env}.
Arguments logged {Env}.
Arguments clock {Env}.
Arguments env {Env}.
Arguments ret {Env A}.
Arguments bind {Env A B}.
Arguments throw {Env A}.
Arguments tryCatch {Env A}.
Arguments log {Env}.
Arguments getMigrationState {Env}.
Arguments isMigrationComplete {Env}.
Arguments markMigrationComplete {Env}.
Arguments markMigrationSkipped {Env}.
Arguments runMigration {Env}.

(** The persisted record of a migration. *)
Definition recordOf {Env} (name : string) (w : World Env) : option MigrationRecord :=
  default ∅ (globalState w !! STATE_KEY) !! name.

(** The record says the migration is over: completed or skipped. *)
Definition settled (r : option MigrationRecord) : Prop :=
  exists x, r = Some x /\ (status x = completed \/ status x = skipped).

(** The world with one more log entry. *)
Definition noting {Env} (l : Level) (msg : string) (err : option JsError)
    (w : World Env) : World Env :=
  mkWorld (globalState w) (logged w ++ [mkLog l msg err]) (clock w) (env w).

(** The world in which the migration function is started: the run has been
    announced in the log and nothing else has changed. *)
Definition announced {Env} (name : string) (w : World Env) : World Env :=
  noting Info ("Running migration '" +:+ name +:+ "'...") None w.

(** What the runner makes of the outcome of the migration function: after a
    return the migration is marked completed, after a throw the error is
    logged and thrown again. *)
Definition conclude {Env} (name : string) (outcome : Result unit * World Env)
  : Result unit * World Env :=
  match outcome with
  | (Returned _, w1) => markMigrationComplete name None w1
  | (Threw e, w1) =>
      (Threw e, noting Error ("Migration '" +:+ name +:+ "' failed") (Some e) w1)
  end.

(** The debug line written when the migration is already over. *)
Definition alreadyNote {Env} (name : string) (w : World Env) : string :=
  match recordOf name w with
  | Some r => "Migration '" +:+ name +:+ "' already " +:+ statusName (status r)
              +:+ ", skipping"
  | None => ""
  end.

End Registry.

(* ===================================================================== *)
(** * src/migrations/sourceIdNormalizationMigration.ts                    *)
(* ===================================================================== *)

Module Migration.

(** The fields of a [RegistrySource] that the migration reads or writes;
    of [config] it reads [branch] and [collectionsPath]. *)
Record RegistrySource := mkSource {
  id : string;
  name : string;
  type : string;
  url : string;
  config : option SourceId.SourceIdConfig
}.

Definition MIGRATION_NAME : string := "sourceId-normalization-v2".

Definition isLowerLetter (c : ascii) : bool :=
  let n := nat_of_ascii c in (97 <=? n)%nat && (n <=? 122)%nat.

Definition isLowerHex (c : ascii) : bool :=
  let n := nat_of_ascii c in
  ((97 <=? n)%nat && (n <=? 102)%nat) || ((48 <=? n)%nat && (n <=? 57)%nat).

(** [/^[a-z]+-[a-f0-9]{12}$/.test(id)]: the longest run of lowercase
    letters must be non-empty and be followed by a hyphen and by exactly
    twelve hex digits that end the string. *)
Definition isHubGeneratedId (id : string) : bool :=
  match Js.spanStr isLowerLetter id with
  | (String _ _, String "-" hex) =>
      (String.length hex =? 12)%nat && Js.allChars isLowerHex hex
  | _ => false
  end.

(** Modelled from the spec: the Storage collaborator ([RegistryStorage], not
    among the sources) "must provide [loadConfig()/saveConfig(config)] for
    sources, [getSources()]", over "a single configuration file containing
    the [sources[]] array". *)
Record Config := mkStoredConfig { sources : list RegistrySource }.

Definition getSources (storage : Config) : list RegistrySource := sources storage.
Definition loadConfig (storage : Config) : Config := storage.
Definition saveConfig (config : Config) (storage : Config) : Config := config.

(** The variables of the loop of [migrateConfigSources]. *)
Record Loop := mkLoop {
  idMap : gmap string string;
  changed : bool;
  logger : list LogEntry
}.

Section WithURL.

Variable newURL : string -> option URL.

(** The object literal passed as third argument to both generators. *)
Definition idConfig (source : RegistrySource) : option SourceId.SourceIdConfig :=
  Some (SourceId.mkConfig (config source ≫= SourceId.branch)
                          (config source ≫= SourceId.collectionsPath)).

(** One iteration of [for (const source of sources)]: the source as the
    iteration leaves it, and the loop variables. *)
Definition visit (source : RegistrySource) (st : Loop) : RegistrySource * Loop :=
  if negb (isHubGeneratedId (id source)) then (source, st)
  else
    let newId :=
      SourceId.generateHubSourceId newURL (type source) (url source) (idConfig source) in
    if negb (String.eqb (id source) newId) then
      let legacyId :=
        SourceId.generateLegacyHubSourceId newURL (type source) (url source)
          (idConfig source) in
      if Js.truthy legacyId && bool_decide (Some (id source) = legacyId) then
        (mkSource newId (name source) (type source) (url source) (config source),
         mkLoop (<[id source := newId]> (idMap st)) true
           (logger st ++
            [mkLog Info ("Migrating source '" +:+ name source +:+ "': " +:+ id source
                         +:+ " -> " +:+ newId) None]))
      else (source, st)
    else (source, st).

Fixpoint forEach (sources : list RegistrySource) (st : Loop)
  : list RegistrySource * Loop :=
  match sources with
  | [] => ([], st)
  | source :: rest =>
      let '(source', st') := visit source st in
      let '(rest', st'') := forEach rest st' in
      (source' :: rest', st'')
  end.

(** What [migrateConfigSources] leaves behind: the returned map, the
    storage and the log. *)
Record Migrated := mkMigrated {
  returned : gmap string string;
  stored : Config;
  written : list LogEntry
}.

Definition migrateConfigSources (storage : Config) (log : list LogEntry) : Migrated :=
  let sources := getSources storage in
  let '(sources', st) := forEach sources (mkLoop ∅ false log) in
  let storage' :=
    if changed st
    then saveConfig (mkStoredConfig sources') storage
    else storage in
  mkMigrated (idMap st) storage' (logger st).

End WithURL.

(** ** The conditions as the specification words them *)

(** "The stored id matches the hub-generated pattern [^[a-z]+-[a-f0-9]{12}$]". *)
Definition MatchesHubPattern (id : string) : Prop :=
  exists letters hex,
    id = letters +:+ "-" +:+ hex
    /\ letters <> ""
    /\ Js.allChars isLowerLetter letters = true
    /\ String.length hex = 12%nat
    /\ Js.allChars isLowerHex hex = true.

(** The source with its id replaced by the recomputed current id. *)
Definition renamed (newURL : string -> option URL) (source : RegistrySource)
  : RegistrySource :=
  mkSource
    (SourceId.generateHubSourceId newURL (type source) (url source) (idConfig source))
    (name source) (type source) (url source) (config source).

(** The three conditions together. *)
Definition Due (newURL : string -> option URL) (source : RegistrySource) : Prop :=
  MatchesHubPattern (id source)
  /\ SourceId.generateHubSourceId newURL (type source) (url source) (idConfig source)
     <> id source
  /\ SourceId.generateLegacyHubSourceId newURL (type source) (url source) (idConfig source)
     = Some (id source).

(** How a source stands to what the migration makes of it. *)
Definition Settles (newURL : string -> option URL) (source source' : RegistrySource)
  : Prop :=
  (Due newURL source -> source' = renamed newURL source)
  /\ (~ Due newURL source -> source' = source).

End Migration.

(* ===================================================================== *)
(** * src/services/UrlValidator.ts                                        *)
(* ===================================================================== *)

Module Prober.

Inductive Severity := SeverityError | SeverityWarning | SeveritySuccess.

(** [interface UrlCheckResult] *)
Record UrlCheckResult := mkResult {
  url : string;
  accessible : bool;
  statusCode : option N;
  error : option string;
  severity : Severity;
  message : string
}.

(** The state of a promise once the run has been given its requests: still
    pending, fulfilled with a value, or rejected with an error. *)
Inductive Promise (A : Type) := Pending | Fulfilled (a : A) | Rejected (e : JsError).
Arguments Pending {A}.
Arguments Fulfilled {A} a.
Arguments Rejected {A} e.

(** The module a request goes through: [https] or [http]. *)
Inductive Transport := ViaHttps | ViaHttp.

(** What a request still emits after a response whose redirect is being
    followed.  The response is never consumed, so the socket may stay open:
    nothing more, an ['error'] event, or a ['timeout'] event, either of
    which arrives before the requests that follow have settled anything. *)
Inductive Aftermath :=
  | Quiet
  | LaterFailure (e : JsError)
  | LaterIdle.

(** What one [HEAD] request comes to: a response with its status code and
    [Location] header (and what the request emits afterwards), an ['error']
    event (or a throw of [request] itself), or a ['timeout'] event. *)
Inductive Reply :=
  | Response (statusCode : option N) (location : option string) (aftermath : Aftermath)
  | Failure (e : JsError)
  | Idle.

Definition defaultTimeout : N := 10000.

(** The [TypeError] of [new URL(url)]. *)
Definition invalidUrlError : JsError := mkError "Invalid URL" (Some "ERR_INVALID_URL").

Definition timeoutError (timeout : N) : JsError :=
  mkError ("Request timeout after " +:+ pretty timeout +:+ "ms") (Some "ETIMEDOUT").

(** [res.statusCode === 301 || ... === 302 || ... === 307 || ... === 308] *)
Definition isRedirect (statusCode : option N) : bool :=
  match statusCode with
  | Some c => (c =? 301)%N || (c =? 302)%N || (c =? 307)%N || (c =? 308)%N
  | None => false
  end.

Definition codeIs (e : JsError) (c : string) : bool :=
  bool_decide (errorCode e = Some c).

Definition categorizeError (e : JsError) : string :=
  if codeIs e "ENOTFOUND" then "DNS lookup failed - Invalid domain"
  else if codeIs e "ETIMEDOUT" then "Connection timeout - Unreachable"
  else if codeIs e "ECONNREFUSED" then "Connection refused - Server not responding"
  else if codeIs e "ECONNRESET" then "Connection reset - Server closed connection"
  else if Js.includes "Invalid URL" (errorMessage e) then "Invalid URL format"
  else if codeIs e "CERT_HAS_EXPIRED" || Js.includes "certificate" (errorMessage e)
       then "SSL certificate error"
  else if Js.truthy (errorCode e) then "Network error: " +:+ default "" (errorCode e)
  else "Connection error: " +:+ errorMessage e.

(** [Promise.all]: rejected as soon as one promise is, fulfilled with all
    the values, in order, once every promise is. *)
Fixpoint all {A} (promises : list (Promise A)) : Promise (list A) :=
  match promises with
  | [] => Fulfilled []
  | p :: rest =>
      match p, all rest with
      | Rejected e, _ => Rejected e
      | _, Rejected e => Rejected e
      | Pending, _ => Pending
      | Fulfilled _, Pending => Pending
      | Fulfilled a, Fulfilled l => Fulfilled (a :: l)
      end
  end.

Section WithNetwork.

(** [new URL(url)]. *)
Variable newURL : string -> option URL.
(** [new URL(location, base).toString()], [None] when it throws; what it
    returns is the serialization of a URL, which [new URL] parses. *)
Variable resolveLocation : string -> string -> option string.
(** [protocol.request(url, { method: 'HEAD', timeout, headers })]. *)
Variable request : Transport -> string -> N -> Reply.

(** [makeRequest], given [fuel] requests: the URLs requested, in order, and
    the state of the returned promise.  A redirect is followed whatever
    the redirecting request emits afterwards: a later ['error'] or
    ['timeout'] of that request settles the promise, and the requests go
    on.  The promise is pending when the requests ran out, and also when
    the response callback threw on the [Location] header and the request
    emits nothing more, for then nothing settles it. *)
Fixpoint makeRequest (fuel : nat) (url : string) (timeout : N)
  : list string * Promise N :=
  match newURL url with
  | None => ([], Rejected invalidUrlError)
  | Some parsedUrl =>
      let protocol :=
        if String.eqb (protocol parsedUrl) "https:" then ViaHttps else ViaHttp in
      match fuel with
      | O => ([], Pending)
      | S fuel' =>
          match request protocol url timeout with
          | Response statusCode location aftermath =>
              if isRedirect statusCode && Js.truthy location then
                let '(later, p) :=
                  match resolveLocation (default "" location) url with
                  | Some redirectUrl => makeRequest fuel' redirectUrl timeout
                  | None => ([], Pending)
                  end in
                match aftermath with
                | Quiet => (url :: later, p)
                | LaterFailure e => (url :: later, Rejected e)
                | LaterIdle => (url :: later, Rejected (timeoutError timeout))
                end
              else ([url], Fulfilled (default 0%N statusCode))
          | Failure e => ([url], Rejected e)
          | Idle => ([url], Rejected (timeoutError timeout))
          end
      end
  end.

(** The result object for a response with the given status code. *)
Definition classify (url : string) (statusCode : N) : UrlCheckResult :=
  if (200 <=? statusCode)%N && (statusCode <? 300)%N then
    mkResult url true (Some statusCode) None SeveritySuccess "Accessible"
  else if (statusCode =? 401)%N || (statusCode =? 403)%N then
    mkResult url false (Some statusCode) None SeverityWarning
      "Private/Access Denied - Expected for private repositories"
  else if (statusCode =? 404)%N then
    mkResult url false (Some statusCode) (Some "Not Found") SeverityError
      "Not Found - URL is broken"
  else
    mkResult url false (Some statusCode) (Some ("HTTP " +:+ pretty statusCode))
      SeverityError ("HTTP Error " +:+ pretty statusCode).

Definition supported (parsedUrl : URL) : bool :=
  String.eqb (protocol parsedUrl) "http:" || String.eqb (protocol parsedUrl) "https:".

Definition checkUrl (fuel : nat) (url : string) (timeout : option N)
  : list string * Promise UrlCheckResult :=
  let timeout := default defaultTimeout timeout in
  match newURL url with
  | None =>
      ([], Fulfilled (mkResult url false None (Some "Invalid URL format")
                        SeverityError "Invalid URL format"))
  | Some parsedUrl =>
      if negb (supported parsedUrl) then
        ([], Fulfilled (mkResult url false None (Some "Unsupported protocol")
                          SeverityError
                          ("Unsupported protocol: " +:+ protocol parsedUrl
                           +:+ ". Only HTTP/HTTPS supported")))
      else
        match makeRequest fuel url timeout with
        | (sent, Fulfilled statusCode) => (sent, Fulfilled (classify url statusCode))
        | (sent, Rejected e) =>
            (sent, Fulfilled (mkResult url false None (Some (errorMessage e))
                                SeverityError (categorizeError e)))
        | (sent, Pending) => (sent, Pending)
        end
  end.

Definition checkUrls (fuel : nat) (urls : list string) (timeout : option N)
  : Promise (list UrlCheckResult) :=
  let promises := map (fun url => snd (checkUrl fuel url timeout)) urls in
  all promises.

(** ** Notions of the specification: the redirects of the network

    They are read off the replies of the network alone. *)

(** A response that makes [makeRequest] go on: 301, 302, 307 or 308 with
    a [Location] that is not empty. *)
Definition followed (statusCode : option N) (location : option string) : Prop :=
  isRedirect statusCode = true /\ exists l, location = Some l /\ l <> "".

Definition transportOf (parsedUrl : URL) : Transport :=
  if String.eqb (protocol parsedUrl) "https:" then ViaHttps else ViaHttp.

(** The URL is one that [checkUrl] requests: it parses and its scheme is
    http or https. *)
Definition Checked (url : string) : Prop :=
  exists parsedUrl, newURL url = Some parsedUrl /\ supported parsedUrl = true.

(** What the network replies to the request for [url]. *)
Definition Replies (timeout : N) (url : string) (reply : Reply) : Prop :=
  exists parsedUrl,
    newURL url = Some parsedUrl
    /\ request (transportOf parsedUrl) url timeout = reply.

(** [url] redirects to [next]: its response is a redirect with a
    [Location] that resolves against [url] to [next], and the request
    emits nothing after it (the connection is closed, or what follows is
    over before the socket times out). *)
Definition Redirects (timeout : N) (url next : string) : Prop :=
  exists statusCode location,
    Replies timeout url (Response statusCode (Some location) Quiet)
    /\ followed statusCode (Some location)
    /\ resolveLocation location url = Some next.

(** [Leads timeout url visited last]: redirects lead from [url] to [last];
    [visited] are the URLs that redirect, in order, [url] first. *)
Inductive Leads (timeout : N) : string -> list string -> string -> Prop :=
  | leads_here url : Leads timeout url [] url
  | leads_on url next visited last :
      Redirects timeout url next ->
      Leads timeout next visited last ->
      Leads timeout url (url :: visited) last.

(** [url] is answered by a response that is not followed, with the given
    status ([res.statusCode || 0]). *)
Definition Answers (timeout : N) (url : string) (statusCode : N) : Prop :=
  exists status location aftermath,
    Replies timeout url (Response status location aftermath)
    /\ ~ followed status location
    /\ statusCode = default 0%N status.

(** The final HTTP status after redirect following: the status of the
    response that the redirects from [url] lead to, none of the
    redirecting requests being interrupted. *)
Definition FinalStatus (timeout : N) (url : string) (statusCode : N) : Prop :=
  exists visited last,
    Leads timeout url visited last /\ Answers timeout last statusCode.

(** The request for [url] fails with [e]: it emits ['error'] with [e], or
    ['timeout'] (and [e] is the timeout error) instead of a response. *)
Definition Fails (timeout : N) (url : string) (e : JsError) : Prop :=
  Replies timeout url (Failure e)
  \/ (Replies timeout url Idle /\ e = timeoutError timeout).

(** [url] is answered by a redirect whose [Location] does not resolve
    ([new URL(location, url)] throws in the response callback), and the
    request emits nothing after it. *)
Definition Stuck (timeout : N) (url : string) : Prop :=
  exists statusCode location,
    Replies timeout url (Response statusCode (Some location) Quiet)
    /\ followed statusCode (Some location)
    /\ resolveLocation location url = None.

(** The request for [url] is answered by a redirect that is followed, and
    on its socket, kept alive, emits ['error'] with [e] or ['timeout']
    (and [e] is the timeout error) before the requests that follow have
    settled anything. *)
Definition Interrupted (timeout : N) (url : string) (e : JsError) : Prop :=
  exists statusCode location,
    followed statusCode location
    /\ (Replies timeout url (Response statusCode location (LaterFailure e))
        \/ (Replies timeout url (Response statusCode location LaterIdle)
            /\ e = timeoutError timeout)).

End WithNetwork.

(** A run that stays pending however many requests it is given. *)
Definition NeverSettles {A} (run : nat -> Promise A) : Prop :=
  forall fuel, run fuel = Pending.

End Prober.

(* ===================================================================== *)
(** * src/adapters/OlafCompetenciesAdapter.ts                             *)
(* ===================================================================== *)

Module Olaf.

(** A value as [JSON.parse] returns it.  Numbers are kept as integers: the
    adapter only tests them for truthiness. *)
#[warnings="-register-all"]
Inductive Json :=
  | JNull
  | JBool (b : bool)
  | JNumber (n : Z)
  | JString (s : string)
  | JArray (items : list Json)
  | JObject (fields : list (string * Json)).

Fixpoint lookupField (key : string) (fields : list (string * Json)) : option Json :=
  match fields with
  | [] => None
  | (k, v) :: rest => if String.eqb k key then Some v else lookupField key rest
  end.

(** [value?.key] for a parsed value: [undefined] on [null] and on values
    that are no objects. *)
Definition optionalMember (key : string) (value : Json) : option Json :=
  match value with
  | JObject fields => lookupField key fields
  | _ => None
  end.

Definition typeErrorOf (what : string) : JsError := mkError what None.

(** [value.key]: a [TypeError] on [null]. *)
Definition member (key : string) (value : Json) : Result (option Json) :=
  match value with
  | JNull => Threw (typeErrorOf ("Cannot read properties of null (reading '" +:+ key +:+ "')"))
  | _ => Returned (optionalMember key value)
  end.

(** Truthiness of a value that may be [undefined]. *)
Definition truthy (value : option Json) : bool :=
  match value with
  | None => false
  | Some JNull => false
  | Some (JBool b) => b
  | Some (JNumber n) => negb (n =? 0)%Z
  | Some (JString s) => negb (String.eqb s "")
  | Some (JArray _) => true
  | Some (JObject _) => true
  end.

(** [value || fallback] *)
Definition orElse (value : option Json) (fallback : Json) : Json :=
  match value with
  | Some v => if truthy value then v else fallback
  | None => fallback
  end.

(** The fields of [RegistrySource] that the adapter reads. *)
Record RegistrySource := mkSource {
  id : string;
  name : string;
  url : string;
  private : bool
}.

(** [Required<OlafConfig>], as the constructor leaves it. *)
Record OlafConfig := mkOlafConfig {
  branch : string;
  basePath : string;
  collectionFilter : string
}.

(** The [Bundle] object that [fetchBundles] builds.  What is copied from
    the manifest is kept as the parsed value it is. *)
Record Bundle := mkBundle {
  bundleId : Json;
  bundleName : Json;
  version : Json;
  description : Json;
  author : Json;
  sourceId : string;
  environments : list string;
  tags : Json;
  downloads : option Z;
  rating : option Z;
  lastUpdated : string;
  size : string;
  dependencies : list string;
  homepage : option string;
  repository : option string;
  license : string;
  manifestUrl : string;
  downloadUrl : string
}.

(** The adapter object: its source and configuration, the token that the
    base class's [getAuthToken] answers, and the cache. *)
Record Adapter := mkAdapter {
  source : RegistrySource;
  config : OlafConfig;
  authToken : option string;
  cache : option (Z * list Bundle)
}.

Definition CACHE_TTL : Z := 5 * 60 * 1000.

(** The clock as one call reads it: [Date.now()] and
    [new Date().toISOString()]. *)
Record Clock := mkClock { now : Z; isoNow : string }.

(** What one [https.request] comes to: a response, whose body has been read
    to its end, or an ['error'] event. *)
Inductive HttpReply :=
  | HttpResponse (statusCode : option N) (body : string)
  | HttpError (e : JsError).

Definition Headers := list (string * string).

(** [headers[key] = value] *)
Fixpoint setHeader (key value : string) (headers : Headers) : Headers :=
  match headers with
  | [] => [(key, value)]
  | (k, v) :: rest =>
      if String.eqb k key then (k, value) :: rest
      else (k, v) :: setHeader key value rest
  end.

(** [competencyDirs.add(dir)] on a [Set], kept in insertion order. *)
Definition addDir (dir : string) (dirs : list string) : list string :=
  if bool_decide (dir ∈ dirs) then dirs else dirs ++ [dir].

(** [Buffer.from(s)] *)
Definition bufferFrom (s : string) : list Byte.byte := String.list_byte_of_string s.

(** [interface SourceMetadata] *)
Record SourceMetadata := mkMetadata {
  metadataName : string;
  metadataDescription : string;
  bundleCount : nat;
  metadataLastUpdated : string;
  metadataVersion : string
}.

(** [interface ValidationResult] *)
Record ValidationResult := mkValidation {
  valid : bool;
  errors : list string;
  warnings : list string
}.

Section WithPlatform.

Variable newURL : string -> option URL.
Variable encodeURIComponent : string -> string.
(** [JSON.parse(body)], [None] when it throws. *)
Variable jsonParse : string -> option Json.
(** The string a value becomes inside a template literal. *)
Variable toStr : Json -> string.
(** [https.request(url, { method: 'GET', headers })]. *)
Variable httpsGet : string -> Headers -> HttpReply.

Definition getHeaders (a : Adapter) : Headers :=
  let headers :=
    [("User-Agent", "Prompt-Registry-VSCode-Extension/1.0");
     ("Accept", "application/json")] in
  if Js.truthy (authToken a) then
    setHeader "Authorization" ("Bearer " +:+ default "" (authToken a)) headers
  else if private (source a) then setHeader "Authorization" "" headers
  else headers.

Definition fetchJson (url : string) (headers : Headers) : Result Json :=
  match httpsGet url headers with
  | HttpResponse statusCode body =>
      let status := default 0%N statusCode in
      if (200 <=? status)%N && (status <? 300)%N then
        match jsonParse body with
        | Some value => Returned value
        | None => Threw (mkError ("Invalid JSON from " +:+ url) None)
        end
      else Threw (mkError ("HTTP " +:+ pretty status +:+ " for " +:+ url) None)
  | HttpError e => Threw e
  end.

Definition parseGitHubUrl (url : string) : Result (string * string) :=
  match newURL url with
  | Some u =>
      let parts := Js.split (Js.dropGitSuffix (Js.dropLeadingSlash (pathname u))) in
      if negb (String.eqb (hostname u) "github.com") || (length parts <? 2)%nat
      then Threw (mkError "Invalid GitHub URL" None)
      else Returned (nth 0 parts "", nth 1 parts "")
  | None => Threw (mkError "Invalid GitHub URL" None)
  end.

Definition fetchRefSha (a : Adapter) (owner repo branch : string) : Result Json :=
  let headers := setHeader "Accept" "application/vnd.github+json" (getHeaders a) in
  let refUrl :=
    "https://api.github.com/repos/" +:+ owner +:+ "/" +:+ repo
    +:+ "/git/refs/heads/" +:+ encodeURIComponent branch in
  match fetchJson refUrl headers with
  | Returned ref =>
      let sha := optionalMember "object" ref ≫= optionalMember "sha" in
      match sha with
      | Some value =>
          if truthy sha then Returned value
          else Threw (mkError ("Failed to resolve ref for branch '" +:+ branch +:+ "'") None)
      | None => Threw (mkError ("Failed to resolve ref for branch '" +:+ branch +:+ "'") None)
      end
  | Threw e => Threw e
  end.

Definition fetchGitTree (a : Adapter) (owner repo branch : string) : Result Json :=
  let headers := setHeader "Accept" "application/vnd.github+json" (getHeaders a) in
  let byRefUrl :=
    "https://api.github.com/repos/" +:+ owner +:+ "/" +:+ repo
    +:+ "/git/trees/" +:+ encodeURIComponent branch +:+ "?recursive=1" in
  match fetchJson byRefUrl headers with
  | Returned tree => Returned tree
  | Threw _ =>
      match fetchRefSha a owner repo branch with
      | Returned sha =>
          let byShaUrl :=
            "https://api.github.com/repos/" +:+ owner +:+ "/" +:+ repo
            +:+ "/git/trees/" +:+ toStr sha +:+ "?recursive=1" in
          fetchJson byShaUrl headers
      | Threw e => Threw e
      end
  end.

Definition rawGitHubUrl (owner repo branch path : string) : string :=
  "https://raw.githubusercontent.com/" +:+ owner +:+ "/" +:+ repo +:+ "/"
  +:+ encodeURIComponent branch +:+ "/" +:+ path.

(** What [for (const node of value)] iterates over. *)
Definition iterate (value : option Json) : Result (list Json) :=
  match value with
  | Some (JArray items) => Returned items
  | Some (JString s) =>
      Returned (map (fun c => JString (String c EmptyString)) (String.list_ascii_of_string s))
  | _ => Threw (typeErrorOf "tree.tree is not iterable")
  end.

(** One iteration of the loop that finds [competency-manifest.json] files. *)
Definition scanNode (base : string) (node : Json) (competencyDirs : list string)
  : Result (list string) :=
  match member "type" node with
  | Threw e => Threw e
  | Returned nodeType =>
      match nodeType with
      | Some (JString t) =>
          if String.eqb t "blob" then
            match optionalMember "path" node with
            | Some (JString path) =>
                if Js.startsWith base path
                   && Js.endsWith "competency-manifest.json" path
                then Returned (addDir (Js.beforeLastSlash path) competencyDirs)
                else Returned competencyDirs
            | None =>
                Threw (typeErrorOf
                         "Cannot read properties of undefined (reading 'startsWith')")
            | Some JNull =>
                Threw (typeErrorOf
                         "Cannot read properties of null (reading 'startsWith')")
            | Some _ => Threw (typeErrorOf "node.path.startsWith is not a function")
            end
          else Returned competencyDirs
      | _ => Returned competencyDirs
      end
  end.

Fixpoint scanTree (base : string) (nodes : list Json) (competencyDirs : list string)
  : Result (list string) :=
  match nodes with
  | [] => Returned competencyDirs
  | node :: rest =>
      match scanNode base node competencyDirs with
      | Returned dirs => scanTree base rest dirs
      | Threw e => Threw e
      end
  end.

(** The predicate of [Array.from(competencyDirs).filter(...)]. *)
Definition passesFilter (base filter p : string) : bool :=
  if String.eqb filter "" then true
  else
    let rel := nth 0 (Js.split (Js.dropStr (String.length base + 1) p)) "" in
    String.eqb rel filter.

(** The variables of the loop over the located directories. *)
Record Gather := mkGather { bundles : list Bundle; logger : list LogEntry }.

(** One iteration: [try { ... } catch (err) { this.logger.warn(...) }]. *)
Definition visitDir (a : Adapter) (clk : Clock) (owner repo dir : string) (st : Gather)
  : Gather :=
  let manifestUrl :=
    rawGitHubUrl owner repo (branch (config a)) (dir +:+ "/competency-manifest.json") in
  match fetchJson manifestUrl (getHeaders a) with
  | Returned manifest =>
      if negb (truthy (optionalMember "id" manifest))
         || negb (truthy (optionalMember "name" manifest))
         || negb (truthy (optionalMember "version" manifest))
      then
        mkGather (bundles st)
          (logger st ++ [mkLog Warn ("Skipping invalid competency at " +:+ dir) None])
      else
        mkGather
          (bundles st ++
           [mkBundle
              (default JNull (optionalMember "id" manifest))
              (default JNull (optionalMember "name" manifest))
              (default JNull (optionalMember "version" manifest))
              (orElse (optionalMember "description" manifest) (JString "OLAF competency"))
              (orElse (optionalMember "author" manifest) (JString "Unknown"))
              (id (source a))
              ["any"]
              (orElse (optionalMember "tags" manifest) (JArray []))
              (Some 0%Z) (Some 0%Z)
              (isoNow clk)
              "n/a"
              []
              (Some (url (source a)))
              (Some (url (source a)))
              "Unknown"
              manifestUrl
              manifestUrl])
          (logger st)
  | Threw err =>
      mkGather (bundles st)
        (logger st ++ [mkLog Warn ("Failed parsing manifest for " +:+ dir +:+ ":") (Some err)])
  end.

Definition placeholder (a : Adapter) (clk : Clock) : Bundle :=
  mkBundle
    (JString (id (source a) +:+ "-placeholder"))
    (JString "OLAF Competencies (placeholder)")
    (JString "0.0.0")
    (JString "Configure repo/branch/basePath to load real competencies")
    (JString "System")
    (id (source a))
    ["any"]
    (JArray [JString "olaf"])
    None None
    (isoNow clk)
    "n/a"
    []
    None None
    "Unknown"
    (url (source a))
    (url (source a)).

(** The directories that the [try] block locates: the scan of the tree,
    then the optional filter. *)
Definition locate (a : Adapter) (tree : Json) : Result (list string) :=
  let base := Js.stripTrailingSlashes (Js.stripLeadingSlashes (basePath (config a))) in
  match member "tree" tree with
  | Threw e => Threw e
  | Returned nodes =>
      match iterate nodes with
      | Threw e => Threw e
      | Returned nodes =>
          match scanTree base nodes [] with
          | Threw e => Threw e
          | Returned competencyDirs =>
              let filter := Js.trim (collectionFilter (config a)) in
              Returned (List.filter (passesFilter base filter) competencyDirs)
          end
      end
  end.

(** The body of the outer [try]. *)
Definition fetchFresh (a : Adapter) (clk : Clock) (log : list LogEntry)
  : Result (list Bundle * Adapter * list LogEntry) :=
  match parseGitHubUrl (url (source a)) with
  | Threw e => Threw e
  | Returned (owner, repo) =>
      match fetchGitTree a owner repo (branch (config a)) with
      | Threw e => Threw e
      | Returned tree =>
          match locate a tree with
          | Threw e => Threw e
          | Returned filteredDirs =>
              let st :=
                fold_left (fun st dir => visitDir a clk owner repo dir st)
                  filteredDirs (mkGather [] log) in
              Returned (bundles st,
                        mkAdapter (source a) (config a) (authToken a)
                          (Some (now clk, bundles st)),
                        logger st)
          end
      end
  end.

(** [fetchBundles]: the bundles returned, the adapter afterwards, the log. *)
Definition fetchBundles (a : Adapter) (clk : Clock) (log : list LogEntry)
  : list Bundle * Adapter * list LogEntry :=
  let fetched :=
    match fetchFresh a clk log with
    | Returned r => r
    | Threw error =>
        ([placeholder a clk], a,
         log ++ [mkLog Error "Failed to fetch OLAF competencies" (Some error)])
    end in
  match cache a with
  | Some (timestamp, cached) =>
      if (now clk - timestamp <? CACHE_TTL)%Z then (cached, a, log) else fetched
  | None => fetched
  end.

(** [downloadBundle]: [return Buffer.from('')]. *)
Definition downloadBundle (a : Adapter) : Result (list Byte.byte) :=
  Returned (bufferFrom "").

(** [fetchMetadata]: [later] is the clock once the bundles have arrived,
    when [lastUpdated] is read. *)
Definition fetchMetadata (a : Adapter) (clk later : Clock) (log : list LogEntry)
  : SourceMetadata * Adapter * list LogEntry :=
  let '(bundles, a', log') := fetchBundles a clk log in
  (mkMetadata (name (source a)) "OLAF competencies native source" (length bundles)
     (isoNow later) "1.0.0",
   a', log').

(** [isValidUrl] of the base class [RepositoryAdapter], whose source is not
    among the files: any predicate. *)
Variable isValidUrl : string -> bool.
(** The string that an error becomes inside a template literal. *)
Variable errorToString : JsError -> string.

(** [e?.message || e] inside the template literal, for a thrown error. *)
Definition messageOr (e : JsError) : string :=
  if String.eqb (errorMessage e) "" then errorToString e else errorMessage e.

Definition validate (a : Adapter) : ValidationResult :=
  let errors :=
    if negb (isValidUrl (url (source a))) then ["Invalid repository URL"] else [] in
  let access :=
    match parseGitHubUrl (url (source a)) with
    | Returned (owner, repo) => fetchGitTree a owner repo (branch (config a))
    | Threw e => Threw e
    end in
  let warnings :=
    match access with
    | Returned _ => []
    | Threw e => ["Could not access repo/branch yet: " +:+ messageOr e]
    end in
  mkValidation (length errors =? 0)%nat errors warnings.

(** [getManifestUrl(bundleId)] and [getDownloadUrl(bundleId)] *)
Definition getManifestUrl (a : Adapter) (bundleId : string) : string := url (source a).
Definition getDownloadUrl (a : Adapter) (bundleId : string) : string := url (source a).

(** ** Notions of the specification *)

(** The cache does not answer the call: there is none, or it has expired. *)
Definition Stale (a : Adapter) (clk : Clock) : Prop :=
  match cache a with
  | Some (timestamp, _) => (CACHE_TTL <= now clk - timestamp)%Z
  | None => True
  end.

(** The URL under which the manifest of a located directory is fetched. *)
Definition manifestUrlOf (a : Adapter) (owner repo dir : string) : string :=
  rawGitHubUrl owner repo (branch (config a)) (dir +:+ "/competency-manifest.json").

(** The manifest "fails to fetch": the request errs, or is answered with a
    status outside [200, 300). *)
Definition FailsToFetch (a : Adapter) (manifestUrl : string) : Prop :=
  (exists e, httpsGet manifestUrl (getHeaders a) = HttpError e)
  \/ (exists statusCode body,
        httpsGet manifestUrl (getHeaders a) = HttpResponse statusCode body
        /\ ~ (200 <= default 0%N statusCode < 300)%N).

(** The manifest is answered with a body that does or does not parse. *)
Definition Answered (a : Adapter) (manifestUrl body : string) : Prop :=
  exists statusCode,
    httpsGet manifestUrl (getHeaders a) = HttpResponse statusCode body
    /\ (200 <= default 0%N statusCode < 300)%N.

Definition FailsToParse (a : Adapter) (manifestUrl : string) : Prop :=
  exists body, Answered a manifestUrl body /\ jsonParse body = None.

Definition Parses (a : Adapter) (manifestUrl : string) (manifest : Json) : Prop :=
  exists body, Answered a manifestUrl body /\ jsonParse body = Some manifest.

(** The manifest has a field: it is there and is not an empty or otherwise
    falsy value. *)
Definition Has (key : string) (manifest : Json) : Prop :=
  exists value, optionalMember key manifest = Some value /\ truthy (Some value) = true.

Definition Lacks (a : Adapter) (manifestUrl : string) : Prop :=
  exists manifest,
    Parses a manifestUrl manifest
    /\ (~ Has "id" manifest \/ ~ Has "name" manifest \/ ~ Has "version" manifest).

Definition WellFormed (a : Adapter) (manifestUrl : string) (manifest : Json) : Prop :=
  Parses a manifestUrl manifest
  /\ Has "id" manifest /\ Has "name" manifest /\ Has "version" manifest.

(** The bundle made of a well-formed manifest. *)
Definition Describes (a : Adapter) (manifestUrl : string) (manifest : Json) (b : Bundle)
  : Prop :=
  optionalMember "id" manifest = Some (bundleId b)
  /\ optionalMember "name" manifest = Some (bundleName b)
  /\ optionalMember "version" manifest = Some (version b)
  /\ Olaf.manifestUrl b = manifestUrl
  /\ sourceId b = id (source a).

(** [Gathered a owner repo dirs bs ws]: going through the located
    directories in order, every well-formed manifest gives one bundle of
    [bs] and every other manifest one warning of [ws]. *)
Inductive Gathered (a : Adapter) (owner repo : string)
  : list string -> list Bundle -> list LogEntry -> Prop :=
  | gathered_none : Gathered a owner repo [] [] []
  | gathered_bundle dir dirs manifest b bs ws :
      WellFormed a (manifestUrlOf a owner repo dir) manifest ->
      Describes a (manifestUrlOf a owner repo dir) manifest b ->
      Gathered a owner repo dirs bs ws ->
      Gathered a owner repo (dir :: dirs) (b :: bs) ws
  | gathered_warning dir dirs w bs ws :
      FailsToFetch a (manifestUrlOf a owner repo dir)
      \/ FailsToParse a (manifestUrlOf a owner repo dir)
      \/ Lacks a (manifestUrlOf a owner repo dir) ->
      level w = Warn ->
      Gathered a owner repo dirs bs ws ->
      Gathered a owner repo (dir :: dirs) bs (w :: ws).

End WithPlatform.

(** Modelled from the spec: [RegistryManager.installBundle] (its source is
    not among the files) installs by "a single code path":
    "[buffer = adapter.downloadBundle(bundle)] then
    [installer.installFromBuffer(bundle, buffer, options)]". *)
Definition installThrough {R : Type}
    (downloadBundle : Bundle -> Result (list Byte.byte))
    (installFromBuffer : Bundle -> list Byte.byte -> R)
    (bundle : Bundle) : Result R :=
  match downloadBundle bundle with
  | Returned buffer => Returned (installFromBuffer bundle buffer)
  | Threw e => Threw e
  end.

End Olaf.


(* ===================================================================== *)
(** * src/migrations/sourceIdNormalizationMigration.ts: files on disk     *)
(* ===================================================================== *)

Module MigrationFiles.

(** A character of the class [A-Za-z0-9._-]. *)
Definition isFilenameChar (c : ascii) : bool :=
  let n := nat_of_ascii c in
  ((65 <=? n)%nat && (n <=? 90)%nat)
  || ((97 <=? n)%nat && (n <=? 122)%nat)
  || ((48 <=? n)%nat && (n <=? 57)%nat)
  || (n =? 46)%nat || (n =? 95)%nat || (n =? 45)%nat.

(** What one byte contributes to [id.replace(/[^A-Za-z0-9._-]/g, '_')].
    The pattern has no [u] flag, so every UTF-16 code unit outside the class
    becomes one underscore.  In the UTF-8 encoding a character outside
    ASCII is a lead byte followed by continuation bytes (0x80 to 0xBF): a
    lead byte below 0xF0 stands for one code unit, a lead byte from 0xF0
    for the two code units of a surrogate pair, and a continuation byte for
    none of its own. *)
Definition replaceByte (c : ascii) : string :=
  let n := nat_of_ascii c in
  if isFilenameChar c then String c EmptyString
  else if (n <? 128)%nat then "_"
  else if (n <? 192)%nat then ""
  else if (n <? 240)%nat then "_"
  else "__".

Fixpoint replaceUnsafe (id : string) : string :=
  match id with
  | EmptyString => EmptyString
  | String c r => replaceByte c +:+ replaceUnsafe r
  end.

(** [id.replace(/[^A-Za-z0-9._-]/g, '_').substring(0, 200)] *)
Definition sanitize (id : string) : string := Js.substring0 200 (replaceUnsafe id).

(** The files below a directory: path to content. *)
Abbreviation Files := (gmap string string).

(** What the two steps work on: the files and the log. *)
Record Disk := mkDisk { files : Files; logger : list LogEntry }.

(** A [Map<string, string>], as its entries in insertion order. *)
Definition IdMap := list (string * string).

(** [idMap.get(key)] *)
Fixpoint mapGet (key : string) (idMap : IdMap) : option string :=
  match idMap with
  | [] => None
  | (k, v) :: rest => if String.eqb k key then Some v else mapGet key rest
  end.

(** [record.sourceId = value] on the fields of an object. *)
Fixpoint setField (key : string) (value : Olaf.Json) (fields : list (string * Olaf.Json))
  : list (string * Olaf.Json) :=
  match fields with
  | [] => [(key, value)]
  | (k, v) :: rest =>
      if String.eqb k key then (k, value) :: rest
      else (k, v) :: setField key value rest
  end.

(** The error of a [rename] whose source is not there. *)
Definition noSuchFile (oldFile newFile : string) : JsError :=
  mkError ("ENOENT: no such file or directory, rename '" +:+ oldFile +:+ "' -> '"
           +:+ newFile +:+ "'") (Some "ENOENT").

Section WithFileSystem.

(** [path.join(dir, name)]. *)
Variable join : string -> string -> string.
(** The error with which [fs.rename(old, new)] rejects, when it does. *)
Variable renameError : string -> string -> option JsError.
(** [fs.readdir(dir)], [None] when it rejects. *)
Variable readdir : string -> option (list string).
(** The error with which [fs.readFile(path)] rejects on a path that holds
    no file. *)
Variable readError : string -> JsError.
(** [JSON.parse(text)], and the [SyntaxError] it throws on a text that is
    no JSON. *)
Variable jsonParse : string -> option Olaf.Json.
Variable syntaxError : string -> JsError.
(** [JSON.stringify(record, null, 2)]. *)
Variable jsonStringify : Olaf.Json -> string.
(** The error with which [fs.writeFile(path, ...)] rejects, when it does. *)
Variable writeError : string -> option JsError.

(** [fs.existsSync(path)] *)
Definition existsSync (path : string) (fs : Files) : bool :=
  bool_decide (is_Some (fs !! path)).

(** [await rename(oldFile, newFile)] *)
Definition rename (oldFile newFile : string) (fs : Files) : Result Files :=
  match renameError oldFile newFile with
  | Some e => Threw e
  | None =>
      match fs !! oldFile with
      | Some data => Returned (<[newFile := data]> (delete oldFile fs))
      | None => Threw (noSuchFile oldFile newFile)
      end
  end.

(** One iteration of [for (const [oldId, newId] of idMap)]. *)
Definition renameCacheFile (cacheDir : string) (entry : string * string) (st : Disk)
  : Disk :=
  let '(oldId, newId) := entry in
  let oldFile := join cacheDir (sanitize oldId +:+ ".json") in
  let newFile := join cacheDir (sanitize newId +:+ ".json") in
  if existsSync oldFile (files st) && negb (existsSync newFile (files st)) then
    match rename oldFile newFile (files st) with
    | Returned fs' =>
        mkDisk fs'
          (logger st ++
           [mkLog Debug ("Renamed cache file: " +:+ sanitize oldId +:+ ".json -> "
                         +:+ sanitize newId +:+ ".json") None])
    | Threw error =>
        mkDisk (files st)
          (logger st ++
           [mkLog Warn ("Failed to rename cache file for " +:+ oldId) (Some error)])
    end
  else st.

Definition migrateSourceCacheFiles (cacheDir : string) (idMap : IdMap) (st : Disk) : Disk :=
  fold_left (fun st entry => renameCacheFile cacheDir entry st) idMap st.

(** The [catch] of one iteration over the installation records. *)
Definition warnRecord (file : string) (error : JsError) (st : Disk) : Disk :=
  mkDisk (files st)
    (logger st ++
     [mkLog Warn ("Failed to migrate installation record " +:+ file) (Some error)]).

(** One iteration of [for (const file of files)]. *)
Definition migrateRecord (installDir : string) (idMap : IdMap) (file : string) (st : Disk)
  : Disk :=
  if negb (Js.endsWith ".json" file) then st
  else
    let filepath := join installDir file in
    match files st !! filepath with
    | None => warnRecord file (readError filepath) st
    | Some data =>
        match jsonParse data with
        | None => warnRecord file (syntaxError data) st
        | Some record =>
            match Olaf.member "sourceId" record with
            | Threw e => warnRecord file e st
            | Returned sourceId =>
                match record, sourceId with
                | Olaf.JObject fields, Some (Olaf.JString oldId) =>
                    if negb (String.eqb oldId "") then
                      match mapGet oldId idMap with
                      | Some newId =>
                          let record' :=
                            Olaf.JObject (setField "sourceId" (Olaf.JString newId) fields) in
                          match writeError filepath with
                          | Some e => warnRecord file e st
                          | None =>
                              mkDisk (<[filepath := jsonStringify record']> (files st))
                                (logger st ++
                                 [mkLog Debug
                                    ("Updated sourceId in installation record: " +:+ file)
                                    None])
                          end
                      | None => st
                      end
                    else st
                | _, _ => st
                end
            end
        end
    end.

Definition migrateInstallationRecords (installDir : string) (idMap : IdMap) (st : Disk)
  : Disk :=
  match readdir installDir with
  | None => st
  | Some names => fold_left (fun st file => migrateRecord installDir idMap file st) names st
  end.

(** ** Notions for the statements *)

(** The cache file of a source id below the cache directory. *)
Definition cacheFile (cacheDir id : string) : string :=
  join cacheDir (sanitize id +:+ ".json").

(** The cache files of the entry [other] are not those of [entry]. *)
Definition Apart (cacheDir : string) (entry other : string * string) : Prop :=
  cacheFile cacheDir (fst other) <> cacheFile cacheDir (fst entry)
  /\ cacheFile cacheDir (fst other) <> cacheFile cacheDir (snd entry)
  /\ cacheFile cacheDir (snd other) <> cacheFile cacheDir (fst entry)
  /\ cacheFile cacheDir (snd other) <> cacheFile cacheDir (snd entry).

(** The record with its [sourceId] set. *)
Definition withSourceId (newId : string) (fields : list (string * Olaf.Json)) : Olaf.Json :=
  Olaf.JObject (setField "sourceId" (Olaf.JString newId) fields).

End WithFileSystem.

End MigrationFiles.

(* ===================================================================== *)
(** * src/utils/commandUtils.ts                                           *)
(* ===================================================================== *)

Module Command.

(** A JavaScript value, as far as the two functions look at it: its type,
    its truthiness, and the properties that [in] and a property read find
    on it (own or inherited).  An array, a [Date] and the like are objects
    with the properties they have. *)
#[warnings="-register-all"]
Inductive JsValue :=
  | VUndefined
  | VNull
  | VBool (b : bool)
  | VNumber (n : Z)
  | VNaN
  | VString (s : string)
  | VObject (props : list (string * JsValue))
  | VFunction (props : list (string * JsValue)).

Fixpoint lookupProp (key : string) (props : list (string * JsValue)) : option JsValue :=
  match props with
  | [] => None
  | (k, v) :: rest => if String.eqb k key then Some v else lookupProp key rest
  end.

(** [key in obj], for an [obj] that is an object. *)
Definition hasProp (key : string) (obj : JsValue) : bool :=
  match obj with
  | VObject props | VFunction props =>
      match lookupProp key props with Some _ => true | None => false end
  | _ => false
  end.

(** [value.key] for a [value] that is neither [null] nor [undefined]: a
    primitive has none of the properties read here. *)
Definition getProp (key : string) (value : JsValue) : JsValue :=
  match value with
  | VObject props | VFunction props => default VUndefined (lookupProp key props)
  | _ => VUndefined
  end.

Definition truthy (value : JsValue) : bool :=
  match value with
  | VUndefined | VNull | VNaN => false
  | VBool b => b
  | VNumber n => negb (n =? 0)%Z
  | VString s => negb (String.eqb s "")
  | VObject _ | VFunction _ => true
  end.

(** [typeof value === 'object'] *)
Definition typeofObject (value : JsValue) : bool :=
  match value with
  | VNull | VObject _ => true
  | _ => false
  end.

Definition isNull (value : JsValue) : bool :=
  match value with VNull => true | _ => false end.

Definition isUndefined (value : JsValue) : bool :=
  match value with VUndefined => true | _ => false end.

(** [value === 'source'] *)
Definition isSourceType (value : JsValue) : bool :=
  match value with
  | VString s => String.eqb s "source"
  | _ => false
  end.

Definition isRegistryTreeItem (obj : JsValue) : bool :=
  negb (isNull obj)
  && negb (isUndefined obj)
  && typeofObject obj
  && hasProp "label" obj
  && hasProp "type" obj
  && hasProp "data" obj.

Definition extractSourceId (param : JsValue) : JsValue :=
  let fromString :=
    match param with
    | VString _ => param
    | _ => VUndefined
    end in
  if isRegistryTreeItem param then
    let treeItem := param in
    if isSourceType (getProp "type" treeItem) && truthy (getProp "data" treeItem) then
      let source := getProp "data" treeItem in
      getProp "id" source
    else fromString
  else fromString.

(** The tree item that the view makes of a source. *)
Definition sourceItem (label : string) (source : JsValue) : JsValue :=
  VObject [("label", VString label); ("type", VString "source"); ("data", source)].

End Command.

(* ===================================================================== *)
(** * src/commands/ValidateHubCommand.ts and templates/validate-hub.js    *)
(* ===================================================================== *)

Module HubValidation.

(** The parts of a hub configuration that the validations read, typed as
    [HubConfig] of [types/hub] types them; [repository] is read through
    [any].  The [bundles] of a profile and the [profiles] are [None] when
    they are absent or no array, which the code asks with [Array.isArray];
    the [sources] of a [HubConfig] are [None] when they are absent. *)
Record HubSource := mkHubSource {
  sourceId : string;
  sourceType : string;
  sourceUrl : option string;
  repository : option string
}.

Record ProfileBundle := mkProfileBundle {
  bundleId : string;
  bundleSource : option string
}.

Record Profile := mkProfile {
  profileId : string;
  profileName : string;
  bundles : option (list ProfileBundle)
}.

Record HubConfig := mkHubConfig {
  sources : option (list HubSource);
  profiles : option (list Profile)
}.

(** What [yaml.load] has put under [sources] when the reference check
    runs, which is before anything has made sure of its type: nothing (or
    a falsy value), an array, or a truthy value that is no array (a
    string, a number, a mapping). *)
Inductive LoadedSources :=
  | NoSources
  | SourceArray (srcs : list HubSource)
  | NotAnArray.

(** The configuration as the reference check meets it. *)
Record LoadedConfig := mkLoaded {
  loadedSources : LoadedSources;
  loadedProfiles : option (list Profile)
}.

(** A configuration of the type [HubConfig], as loaded. *)
Definition loaded (config : HubConfig) : LoadedConfig :=
  mkLoaded
    (match sources config with
     | Some srcs => SourceArray srcs
     | None => NoSources
     end)
    (profiles config).

(** [{ errors, warnings }] *)
Record Findings := mkFindings { errors : list string; warnings : list string }.

(** The double quote of the messages. *)
Definition quote : string := String "034"%char EmptyString.

Definition missingSource (who : string) (bundle : ProfileBundle) : string :=
  "Profile " +:+ quote +:+ who +:+ ": Bundle " +:+ quote +:+ bundleId bundle +:+ quote
  +:+ " is missing source reference".

Definition unknownSource (who : string) (bundle : ProfileBundle) : string :=
  "Profile " +:+ quote +:+ who +:+ ": Bundle " +:+ quote +:+ bundleId bundle +:+ quote
  +:+ " references non-existent source " +:+ quote +:+ default "" (bundleSource bundle)
  +:+ quote.

(** One iteration of [for (const bundle of profile.bundles)], for the
    profile named [who] in the messages. *)
Definition checkBundle (sourceIds : gset string) (who : string)
    (errors : list string) (bundle : ProfileBundle) : list string :=
  if negb (Js.truthy (bundleSource bundle)) then errors ++ [missingSource who bundle]
  else if negb (bool_decide (default "" (bundleSource bundle) ∈ sourceIds))
  then errors ++ [unknownSource who bundle]
  else errors.

(** One iteration of [for (const profile of config.profiles)]. *)
Definition checkProfile (sourceIds : gset string) (nameOf : Profile -> string)
    (errors : list string) (profile : Profile) : list string :=
  match bundles profile with
  | None => errors
  | Some bs => fold_left (checkBundle sourceIds (nameOf profile)) bs errors
  end.

Definition checkProfiles (sourceIds : gset string) (nameOf : Profile -> string)
    (config : LoadedConfig) : Findings :=
  mkFindings
    (match loadedProfiles config with
     | Some ps => fold_left (checkProfile sourceIds nameOf) ps []
     | None => []
     end)
    [].

(** [config.sources.forEach(...)] on a value that is no array. *)
Definition notAFunction : JsError :=
  mkError "config.sources.forEach is not a function" None.

(** [ValidateHubCommand.validateProfileSourceReferences]: on a truthy
    [config.sources] it calls [forEach] without asking whether the value
    is an array, which throws a [TypeError] when it is none; every source
    id is a valid reference, and a profile is named by its name and id:
    [Profile "${profile.name}" (${profile.id})]. *)
Definition commandSourceIds (config : LoadedConfig) : Result (gset string) :=
  match loadedSources config with
  | NoSources => Returned ∅
  | SourceArray srcs =>
      Returned (fold_left (fun ids source => ids ∪ {[ sourceId source ]}) srcs ∅)
  | NotAnArray => Threw notAFunction
  end.

Definition commandName (profile : Profile) : string :=
  profileName profile +:+ quote +:+ " (" +:+ profileId profile +:+ ")".

Definition validateProfileSourceReferences (config : LoadedConfig) : Result Findings :=
  match commandSourceIds config with
  | Returned sourceIds => Returned (checkProfiles sourceIds commandName config)
  | Threw e => Threw e
  end.

(** [validateProfileSourceReferences] of [templates/validate-hub.js]: the
    source ids are collected only when [config.sources] is an array; only
    a truthy source id is a valid reference, and a profile is named by
    [profile.name || profile.id]. *)
Definition scriptSourceIds (config : LoadedConfig) : gset string :=
  match loadedSources config with
  | SourceArray srcs =>
      fold_left
        (fun ids source =>
           if negb (String.eqb (sourceId source) "") then ids ∪ {[ sourceId source ]}
           else ids)
        srcs ∅
  | NoSources | NotAnArray => ∅
  end.

Definition scriptName (profile : Profile) : string :=
  (if String.eqb (profileName profile) "" then profileId profile else profileName profile)
  +:+ quote.

Definition scriptValidateProfileSourceReferences (config : LoadedConfig) : Findings :=
  checkProfiles (scriptSourceIds config) scriptName config.

(** ** URL accessibility *)

(** The URL that the loop over the sources pushes for a source, if any. *)
Definition urlToCheck (source : HubSource) : option string :=
  if Js.truthy (sourceUrl source) then sourceUrl source
  else if Js.truthy (repository source) then
    if String.eqb (sourceType source) "github"
    then Some ("https://github.com/" +:+ default "" (repository source))
    else if String.eqb (sourceType source) "gitlab"
    then Some ("https://gitlab.com/" +:+ default "" (repository source))
    else None
  else None.

Definition pushCheck (urlChecks : list (HubSource * string)) (source : HubSource)
  : list (HubSource * string) :=
  match urlToCheck source with
  | Some url => urlChecks ++ [(source, url)]
  | None => urlChecks
  end.

Definition newline : string := String "010"%char EmptyString.

(** The state of the loop over the results: the findings and the lines
    written to the output channel. *)
Record Progress := mkProgress { findings : Findings; output : list string }.

Definition icon (severity : Prober.Severity) : string :=
  match severity with
  | Prober.SeveritySuccess => "✅"
  | Prober.SeverityWarning => "⚠️"
  | Prober.SeverityError => "❌"
  end.

Definition statusSuffix (statusCode : option N) : string :=
  match statusCode with
  | Some c => if (c =? 0)%N then "" else " (" +:+ pretty c +:+ ")"
  | None => ""
  end.

Definition sourceMessage (source : HubSource) (result : Prober.UrlCheckResult) : string :=
  "Source " +:+ quote +:+ sourceId source +:+ quote +:+ ": " +:+ Prober.message result.

(** One iteration of [for (let i = 0; i < results.length; i++)]. *)
Definition processResult (st : Progress)
    (entry : (HubSource * string) * Prober.UrlCheckResult) : Progress :=
  let '((source, _), result) := entry in
  let output' :=
    output st ++
    ["   " +:+ icon (Prober.severity result) +:+ " " +:+ sourceId source
     +:+ " (" +:+ Prober.url result +:+ ")";
     "      " +:+ Prober.message result +:+ statusSuffix (Prober.statusCode result)] in
  match Prober.severity result with
  | Prober.SeverityError =>
      mkProgress
        (mkFindings (errors (findings st) ++ [sourceMessage source result])
           (warnings (findings st)))
        output'
  | Prober.SeverityWarning =>
      mkProgress
        (mkFindings (errors (findings st))
           (warnings (findings st) ++ [sourceMessage source result]))
        output'
  | Prober.SeveritySuccess => mkProgress (findings st) output'
  end.

Section WithNetwork.

Variable newURL : string -> option URL.
Variable resolveLocation : string -> string -> option string.
Variable request : Prober.Transport -> string -> N -> Prober.Reply.

(** [validateUrls], given [fuel] requests for every URL: the state of the
    returned promise and the lines written to the output channel. *)
Definition validateUrls (fuel : nat) (config : HubConfig) (channel : list string)
  : Prober.Promise Findings * list string :=
  match sources config with
  | None | Some [] => (Prober.Fulfilled (mkFindings [] []), channel)
  | Some srcs =>
      let urlChecks := fold_left pushCheck srcs [] in
      if (length urlChecks =? 0)%nat then
        (Prober.Fulfilled (mkFindings [] []),
         channel ++ ["   ℹ️  No URLs to validate" +:+ newline])
      else
        let output1 :=
          channel ++ ["   Checking " +:+ pretty (N.of_nat (length urlChecks))
                     +:+ " URL(s)..." +:+ newline] in
        match Prober.checkUrls newURL resolveLocation request fuel
                (map snd urlChecks) None with
        | Prober.Fulfilled results =>
            let st :=
              fold_left processResult (combine urlChecks results)
                (mkProgress (mkFindings [] []) output1) in
            (Prober.Fulfilled (findings st), output st ++ [""])
        | Prober.Rejected e => (Prober.Rejected e, output1)
        | Prober.Pending => (Prober.Pending, output1)
        end
  end.

End WithNetwork.

(** ** Notions for the statements *)

(** The sources that the configuration has: those of the array under
    [sources], if there is one. *)
Definition sourcesOf (config : LoadedConfig) : list HubSource :=
  match loadedSources config with
  | SourceArray srcs => srcs
  | NoSources | NotAnArray => []
  end.

(** The references of the profiles' bundles, in the order in which they
    are checked, each with its profile. *)
Definition references (config : LoadedConfig) : list (Profile * ProfileBundle) :=
  flat_map
    (fun profile => map (fun bundle => (profile, bundle)) (default [] (bundles profile)))
    (default [] (loadedProfiles config)).

(** A reference that resolves: the bundle names a source that the
    configuration has. *)
Definition Resolves (config : LoadedConfig) (bundle : ProfileBundle) : Prop :=
  exists id source,
    bundleSource bundle = Some id /\ id <> ""
    /\ source ∈ sourcesOf config /\ sourceId source = id.

Definition resolves (config : LoadedConfig) (bundle : ProfileBundle) : bool :=
  Js.truthy (bundleSource bundle)
  && bool_decide (default "" (bundleSource bundle) ∈ map sourceId (sourcesOf config)).

(** The references that do not resolve, in the order of the profiles and
    of their bundles. *)
Definition unresolved (config : LoadedConfig) : list (Profile * ProfileBundle) :=
  List.filter (fun reference => negb (resolves config (snd reference))) (references config).

(** The message about a reference that does not resolve. *)
Definition complaint (nameOf : Profile -> string) (reference : Profile * ProfileBundle)
  : string :=
  if Js.truthy (bundleSource (snd reference))
  then unknownSource (nameOf (fst reference)) (snd reference)
  else missingSource (nameOf (fst reference)) (snd reference).

(** The URLs that are checked, each with its source. *)
Definition urlChecksOf (config : HubConfig) : list (HubSource * string) :=
  fold_left pushCheck (default [] (sources config)) [].

Definition isError (entry : (HubSource * string) * Prober.UrlCheckResult) : bool :=
  match Prober.severity (snd entry) with Prober.SeverityError => true | _ => false end.

Definition isWarning (entry : (HubSource * string) * Prober.UrlCheckResult) : bool :=
  match Prober.severity (snd entry) with Prober.SeverityWarning => true | _ => false end.

Definition messageOf (entry : (HubSource * string) * Prober.UrlCheckResult) : string :=
  sourceMessage (fst (fst entry)) (snd entry).

End HubValidation.

(* ===================================================================== *)
(** * src/services/MigrationRegistry.ts: the singleton                    *)
(* ===================================================================== *)

Module RegistryInstance.

Section WithContext.

(** [vscode.ExtensionContext] *)
Variable Context : Type.

(** A [MigrationRegistry] object: which object it is (objects are numbered
    as [new] creates them) and the context it was constructed with. *)
Record MigrationRegistry := mkRegistry { object : nat; context : Context }.

(** The static field [instance] of the class, and the number of objects
    created so far. *)
Record Static := mkStatic { instance : option MigrationRegistry; created : nat }.

Definition getInstance (context : option Context) (st : Static)
  : Result MigrationRegistry * Static :=
  match instance st with
  | None =>
      match context with
      | None =>
          (Threw (mkError "MigrationRegistry requires context on first call" None), st)
      | Some c =>
          let registry := mkRegistry (created st) c in
          (Returned registry, mkStatic (Some registry) (S (created st)))
      end
  | Some registry => (Returned registry, st)
  end.

Definition resetInstance (st : Static) : Static := mkStatic None (created st).

(** A sequence of calls of [getInstance], each with the context it is
    given, and what each returns. *)
Fixpoint getInstances (contexts : list (option Context)) (st : Static)
  : list (Result MigrationRegistry) * Static :=
  match contexts with
  | [] => ([], st)
  | context :: rest =>
      let '(r, st1) := getInstance context st in
      let '(rs, st2) := getInstances rest st1 in
      (r :: rs, st2)
  end.

End WithContext.

Arguments mkRegistry {Context}.
Arguments object {Context}.
Arguments context {Context}.
Arguments mkStatic {Context}.
Arguments instance {Context}.
Arguments created {Context}.
Arguments getInstance {Context}.
Arguments resetInstance {Context}.
Arguments getInstances {Context}.

End RegistryInstance.

(* ===================================================================== *)
(** * src/utils/scaffoldUtils.ts                                          *)
(* ===================================================================== *)

Module Scaffold.

(** What [/\{githubOrg\}/g] matches. *)
Definition placeholder : string := "{githubOrg}".

(** The text that [replace] puts in the place of one match, given the
    replacement string: [$$] is a dollar sign, [$&] the matched text, [$`]
    the text before the match and [$'] the text after it.  The pattern has
    no capture group, so a dollar sign before anything else stands for
    itself. *)
Fixpoint substitution (replacement matched before after : string) : string :=
  match replacement with
  | EmptyString => EmptyString
  | String c r =>
      if Ascii.eqb c "$" then
        match r with
        | String d r' =>
            if Ascii.eqb d "$" then String "$" (substitution r' matched before after)
            else if Ascii.eqb d "&" then matched +:+ substitution r' matched before after
            else if Ascii.eqb d "`" then before +:+ substitution r' matched before after
            else if Ascii.eqb d "'" then after +:+ substitution r' matched before after
            else String c (substitution r matched before after)
        | EmptyString => String c EmptyString
        end
      else String c (substitution r matched before after)
  end.

(** [pattern.replace(/\{githubOrg\}/g, githubOrg)], read from the left:
    [before] is the text already read, and [skip] characters of the last
    match are still to be passed over. *)
Fixpoint replaceFrom (githubOrg : string) (skip : nat) (before rest : string) : string :=
  match rest with
  | EmptyString => EmptyString
  | String c r =>
      match skip with
      | S k => replaceFrom githubOrg k (before +:+ String c EmptyString) r
      | O =>
          if Js.startsWith placeholder rest then
            substitution githubOrg placeholder before (Js.dropStr 11 rest)
            +:+ replaceFrom githubOrg 10 (before +:+ String c EmptyString) r
          else String c (replaceFrom githubOrg 0 (before +:+ String c EmptyString) r)
      end
  end.

Definition resolveRunnerPattern (pattern githubOrg : string) : string :=
  replaceFrom githubOrg 0 "" pattern.

End Scaffold.

(* ===================================================================== *)
(** * templates/validate-hub.js: checkUrl                                 *)
(* ===================================================================== *)

Module HubScript.

(** The object that the script's [checkUrl] resolves with. *)
Record CheckResult := mkCheck {
  url : string;
  statusCode : option N;
  severity : Prober.Severity;
  message : string
}.

(** What [protocol.request(url, options, callback)] comes to: it throws, or
    it returns a request that emits as [Prober.Reply] tells.  The script
    words the two failures differently, so they are kept apart here. *)
Inductive Outcome :=
  | Thrown (e : JsError)
  | Emitted (reply : Prober.Reply).

(** [res.statusCode >= 300 && res.statusCode < 400] *)
Definition isRedirection (statusCode : option N) : bool :=
  match statusCode with
  | Some c => (300 <=? c)%N && (c <? 400)%N
  | None => false
  end.

(** The branches on the status code of a response that is not followed. *)
Definition respond (url : string) (statusCode : option N) : CheckResult :=
  match statusCode with
  | Some c =>
      if (200 <=? c)%N && (c <? 300)%N then
        mkCheck url statusCode Prober.SeveritySuccess "Accessible"
      else if (c =? 401)%N || (c =? 403)%N then
        mkCheck url statusCode Prober.SeverityWarning
          "Private/Access Denied - Expected for private repositories"
      else if (c =? 404)%N then
        mkCheck url statusCode Prober.SeverityError "Not Found - URL is broken"
      else
        mkCheck url statusCode Prober.SeverityError ("HTTP Error " +:+ pretty c)
  | None => mkCheck url None Prober.SeverityError "HTTP Error undefined"
  end.

(** [req.on('error', ...)] *)
Definition onError (url : string) (e : JsError) : CheckResult :=
  mkCheck url None Prober.SeverityError
    (if Prober.codeIs e "ENOTFOUND" then "DNS lookup failed - Invalid domain"
     else if Prober.codeIs e "ETIMEDOUT" then "Connection timeout - Unreachable"
     else if Prober.codeIs e "ECONNREFUSED"
          then "Connection refused - Server not responding"
     else "Connection error").

(** [req.on('timeout', ...)] *)
Definition onTimeout (url : string) : CheckResult :=
  mkCheck url None Prober.SeverityError "Connection timeout - Unreachable".

(** [catch (error)] *)
Definition caught (url : string) (e : JsError) : CheckResult :=
  mkCheck url None Prober.SeverityError
    (if Js.includes "Invalid URL" (errorMessage e) then "Invalid URL format"
     else errorMessage e).

Definition unsupportedProtocol (url : string) (parsedUrl : URL) : CheckResult :=
  mkCheck url None Prober.SeverityError ("Unsupported protocol: " +:+ protocol parsedUrl).

Section WithNetwork.

Variable newURL : string -> option URL.
Variable resolveLocation : string -> string -> option string.
Variable request : Prober.Transport -> string -> N -> Outcome.

(** [checkUrl], given [fuel] requests.  The promise is only ever resolved.
    It stays pending when the requests ran out, and when the response
    callback threw on the [Location] header and the request emits nothing
    more. *)
Fixpoint checkUrl (fuel : nat) (url : string) (timeout : N)
  : Prober.Promise CheckResult :=
  match newURL url with
  | None => Prober.Fulfilled (caught url Prober.invalidUrlError)
  | Some parsedUrl =>
      if negb (String.eqb (protocol parsedUrl) "http:")
         && negb (String.eqb (protocol parsedUrl) "https:")
      then Prober.Fulfilled (unsupportedProtocol url parsedUrl)
      else
        let protocol :=
          if String.eqb (protocol parsedUrl) "https:"
          then Prober.ViaHttps else Prober.ViaHttp in
        match fuel with
        | O => Prober.Pending
        | S fuel' =>
            match request protocol url timeout with
            | Thrown e => Prober.Fulfilled (caught url e)
            | Emitted (Prober.Response statusCode location aftermath) =>
                if isRedirection statusCode && Js.truthy location then
                  match aftermath with
                  | Prober.Quiet =>
                      match resolveLocation (default "" location) url with
                      | Some redirectUrl => checkUrl fuel' redirectUrl timeout
                      | None => Prober.Pending
                      end
                  | Prober.LaterFailure e => Prober.Fulfilled (onError url e)
                  | Prober.LaterIdle => Prober.Fulfilled (onTimeout url)
                  end
                else Prober.Fulfilled (respond url statusCode)
            | Emitted (Prober.Failure e) => Prober.Fulfilled (onError url e)
            | Emitted Prober.Idle => Prober.Fulfilled (onTimeout url)
            end
        end
  end.

(** ** Notions for the statements *)

(** The same network as the extension's [UrlValidator] meets it: there a
    throw of [request] rejects the promise as an ['error'] event does. *)
Definition asReply (t : Prober.Transport) (url : string) (timeout : N) : Prober.Reply :=
  match request t url timeout with
  | Thrown e => Prober.Failure e
  | Emitted reply => reply
  end.

(** Servers send a [Location] with no other 3xx status than the four that
    the extension follows. *)
Definition RedirectsAreStandard : Prop :=
  forall t url timeout statusCode location aftermath,
    request t url timeout = Emitted (Prober.Response statusCode location aftermath) ->
    isRedirection statusCode = true -> Js.truthy location = true ->
    Prober.isRedirect statusCode = true.

(** [http.request] and [https.request] throw on a URL of another
    protocol. *)
Definition OtherProtocolsThrow : Prop :=
  forall t url timeout parsedUrl,
    newURL url = Some parsedUrl -> Prober.supported parsedUrl = false ->
    exists e, request t url timeout = Thrown e.

End WithNetwork.

(** The two checks report the same: the same severity and the same status
    code, but that a response without a status code is reported as 0 by
    the extension and without one by the script. *)
Definition SameVerdict (r : CheckResult) (r' : Prober.UrlCheckResult) : Prop :=
  severity r = Prober.severity r'
  /\ (statusCode r = Prober.statusCode r'
      \/ (statusCode r = None /\ Prober.statusCode r' = Some 0%N)).

(** How a result of the script relates to the promise of the extension's
    [makeRequest]. *)
Definition Matches (r : CheckResult) (p : Prober.Promise N) : Prop :=
  match p with
  | Prober.Fulfilled c => forall url, SameVerdict r (Prober.classify url c)
  | Prober.Rejected e => severity r = Prober.SeverityError /\ statusCode r = None
  | Prober.Pending => False
  end.

End HubScript.
(* ===================================================================== *)
(** * Sample platform answers used by the examples                        *)
(* ===================================================================== *)

Module Samples.

(** What [new URL] answers on the URLs of the examples; every other string
    of the examples is one the constructor rejects. *)
Definition newURL (s : string) : option URL :=
  if String.eqb s "https://github.com/Owner/Repo"
  then Some (mkURL "https:" "github.com" "/Owner/Repo")
  else if String.eqb s "https://github.com/owner/repo"
  then Some (mkURL "https:" "github.com" "/owner/repo")
  else if String.eqb s "HTTPS://GitHub.com/Owner/Repo/"
  then Some (mkURL "https:" "github.com" "/Owner/Repo/")
  else if String.eqb s "http://example.com"
  then Some (mkURL "http:" "example.com" "/")
  else if String.eqb s "https://example.com/hub"
  then Some (mkURL "https:" "example.com" "/hub")
  else if String.eqb s "https://example.com/loop"
  then Some (mkURL "https:" "example.com" "/loop")
  else if String.eqb s "ftp://example.com/file"
  then Some (mkURL "ftp:" "example.com" "/file")
  else if String.eqb s "https://example.com/café"
  then Some (mkURL "https:" "example.com" "/caf%C3%A9")
  else None.

(** [new URL(location, base).toString()] on the redirect of the examples. *)
Definition resolveLocation (location base : string) : option string :=
  if String.eqb location "/loop" && String.eqb base "https://example.com/loop"
  then Some "https://example.com/loop"
  else None.

(** A network in which [/hub] answers 200 and [/loop] redirects to itself,
    the connection being closed after every response. *)
Definition request (t : Prober.Transport) (url : string) (timeout : N) : Prober.Reply :=
  if String.eqb url "https://example.com/hub"
  then Prober.Response (Some 200%N) None Prober.Quiet
  else if String.eqb url "https://example.com/loop"
  then Prober.Response (Some 302%N) (Some "/loop") Prober.Quiet
  else Prober.Failure (mkError "getaddrinfo ENOTFOUND" (Some "ENOTFOUND")).

(** The same network when the connections are kept alive: the request
    that was answered with the redirect emits ['timeout'] while the
    redirect is being followed. *)
Definition requestKeptAlive (t : Prober.Transport) (url : string) (timeout : N)
  : Prober.Reply :=
  if String.eqb url "https://example.com/loop"
  then Prober.Response (Some 302%N) (Some "/loop") Prober.LaterIdle
  else request t url timeout.

(** ** A repository for the OLAF adapter

    [github.com/acme/olaf] holds four competency manifests: one well
    formed, one whose body is no JSON, one that is not found, and one
    without a version. *)

Definition olafURL (s : string) : option URL :=
  if String.eqb s "https://github.com/acme/olaf"
  then Some (mkURL "https:" "github.com" "/acme/olaf")
  else None.

Definition encodeURIComponent (s : string) : string := s.

Definition blob (path : string) : Olaf.Json :=
  Olaf.JObject [("path", Olaf.JString path); ("mode", Olaf.JString "100644");
                ("type", Olaf.JString "blob")].

Definition treeValue : Olaf.Json :=
  Olaf.JObject
    [("sha", Olaf.JString "0a1b2c");
     ("tree",
      Olaf.JArray
        [Olaf.JObject [("path", Olaf.JString "olaf-core"); ("type", Olaf.JString "tree")];
         blob "olaf-core/competencies/dev/review/competency-manifest.json";
         blob "olaf-core/competencies/dev/review/README.md";
         blob "olaf-core/competencies/dev/broken/competency-manifest.json";
         blob "olaf-core/competencies/pm/plan/competency-manifest.json";
         blob "olaf-core/competencies/dev/noversion/competency-manifest.json";
         blob "docs/competency-manifest.json"])].

Definition reviewManifest : Olaf.Json :=
  Olaf.JObject [("id", Olaf.JString "review"); ("name", Olaf.JString "Code review");
                ("version", Olaf.JString "1.2.0"); ("author", Olaf.JString "acme")].

Definition noVersionManifest : Olaf.Json :=
  Olaf.JObject [("id", Olaf.JString "noversion"); ("name", Olaf.JString "No version");
                ("version", Olaf.JString "")].

(** [JSON.parse] on the bodies served below. *)
Definition jsonParse (body : string) : option Olaf.Json :=
  if String.eqb body "tree-body" then Some treeValue
  else if String.eqb body "review-body" then Some reviewManifest
  else if String.eqb body "noversion-body" then Some noVersionManifest
  else None.

Definition toStr (value : Olaf.Json) : string :=
  match value with
  | Olaf.JString s => s
  | _ => ""
  end.

Definition rawBase : string :=
  "https://raw.githubusercontent.com/acme/olaf/main/olaf-core/competencies/".

Definition httpsGet (url : string) (headers : Olaf.Headers) : Olaf.HttpReply :=
  if String.eqb url "https://api.github.com/repos/acme/olaf/git/trees/main?recursive=1"
  then Olaf.HttpResponse (Some 200%N) "tree-body"
  else if String.eqb url (rawBase +:+ "dev/review/competency-manifest.json")
  then Olaf.HttpResponse (Some 200%N) "review-body"
  else if String.eqb url (rawBase +:+ "dev/broken/competency-manifest.json")
  then Olaf.HttpResponse (Some 200%N) "<html>Sign in</html>"
  else if String.eqb url (rawBase +:+ "dev/noversion/competency-manifest.json")
  then Olaf.HttpResponse (Some 200%N) "noversion-body"
  else Olaf.HttpResponse (Some 404%N) "Not Found".

Definition olafAdapter : Olaf.Adapter :=
  Olaf.mkAdapter
    (Olaf.mkSource "olaf-acme" "ACME competencies" "https://github.com/acme/olaf" false)
    (Olaf.mkOlafConfig "main" "olaf-core/competencies" "")
    None None.

Definition olafClock : Olaf.Clock := Olaf.mkClock 1767225600000 "2026-01-01T00:00:00.000Z".

(** ** A configuration for the migration: a source stored under its legacy
    id, one stored under its current id, and one with an id of its own. *)
Definition storedSources : Migration.Config :=
  Migration.mkStoredConfig
    [Migration.mkSource "github-5ed19c768f41" "Test Source" "github"
       "https://github.com/Owner/Repo" None;
     Migration.mkSource "github-2bbe3751c8d5" "Already Migrated" "github"
       "https://github.com/owner/repo" None;
     Migration.mkSource "my-custom-source" "Custom Source" "local"
       "file:///path/to/source" None].

(** ** Migration functions for the runner: one that counts its invocations
    in the environment and succeeds, one that counts and throws. *)
Definition counting : Registry.M nat unit :=
  fun w => (Returned tt,
            Registry.mkWorld (Registry.globalState w) (Registry.logged w)
              (Registry.clock w) (S (Registry.env w))).

Definition failing : Registry.M nat unit :=
  fun w => (Threw (mkError "migration failed" None),
            Registry.mkWorld (Registry.globalState w) (Registry.logged w)
              (Registry.clock w) (S (Registry.env w))).

Definition fresh : Registry.World nat :=
  Registry.mkWorld ∅ [] "2026-01-01T00:00:00.000Z" 0.

(** ** Redirect chains of any length

    [https://example.com/] answers 200, and a URL with a longer path
    redirects to the URL with the first character of the path removed. *)
Definition chainBase : string := "https://example.com/".

Definition chainURL (s : string) : option URL :=
  if Js.startsWith chainBase s
  then Some (mkURL "https:" "example.com" (String "/"%char (Js.dropStr 20 s)))
  else None.

Definition chainResolve (location base : string) : option string := Some location.

Definition chainRequest (t : Prober.Transport) (url : string) (timeout : N) : Prober.Reply :=
  match Js.dropStr 20 url with
  | String _ rest =>
      Prober.Response (Some 302%N) (Some (chainBase +:+ rest)) Prober.Quiet
  | EmptyString => Prober.Response (Some 200%N) None Prober.Quiet
  end.

(** The URL whose path has [k] characters. *)
Fixpoint chainPath (k : nat) : string :=
  match k with
  | O => EmptyString
  | S k' => String "a"%char (chainPath k')
  end.

(** The URLs that redirect on the way from the URL whose path has [k]
    characters. *)
Fixpoint chainVisited (k : nat) : list string :=
  match k with
  | O => []
  | S k' => (chainBase +:+ chainPath k) :: chainVisited k'
  end.

(** ** A disk for the migration's file steps

    Paths are joined with a slash, no operation fails, and the cache
    directory holds the cache of the source that is stored under its
    legacy id. *)
Definition join (dir name : string) : string := dir +:+ "/" +:+ name.

Definition neverFails (oldFile newFile : string) : option JsError := None.

Definition writable (path : string) : option JsError := None.

Definition migratedIds : MigrationFiles.IdMap :=
  [("github-5ed19c768f41", "github-2bbe3751c8d5")].

Definition cacheDisk : MigrationFiles.Disk :=
  MigrationFiles.mkDisk
    (<["cache/github-5ed19c768f41.json" := "cached bundles"]>
       (<["cache/my-custom-source.json" := "other bundles"]> ∅))
    [].

(** An installation directory with one record of the migrated source, one
    of another source, and a file that is no JSON. *)
Definition installedRecord : Olaf.Json :=
  Olaf.JObject [("bundleId", Olaf.JString "review");
                ("sourceId", Olaf.JString "github-5ed19c768f41")].

Definition otherRecord : Olaf.Json :=
  Olaf.JObject [("bundleId", Olaf.JString "plan");
                ("sourceId", Olaf.JString "my-custom-source")].

Definition recordParse (text : string) : option Olaf.Json :=
  if String.eqb text "review-record" then Some installedRecord
  else if String.eqb text "plan-record" then Some otherRecord
  else None.

Definition recordStringify (value : Olaf.Json) : string :=
  match Olaf.optionalMember "sourceId" value with
  | Some (Olaf.JString id) => "record of " +:+ id
  | _ => "record"
  end.

Definition recordSyntaxError (text : string) : JsError :=
  mkError "Unexpected token in JSON" None.

Definition recordReadError (path : string) : JsError :=
  mkError "EISDIR: illegal operation on a directory, read" (Some "EISDIR").

Definition installListing (dir : string) : option (list string) :=
  if String.eqb dir "installed" then Some ["review.json"; "plan.json"; "notes.txt"]
  else None.

Definition installDisk : MigrationFiles.Disk :=
  MigrationFiles.mkDisk
    (<["installed/review.json" := "review-record"]>
       (<["installed/plan.json" := "plan-record"]>
          (<["installed/notes.txt" := "remember"]> ∅)))
    [].

(** ** A hub configuration: two sources, and a profile whose bundles name
    the first source, no source, and a source that is not there. *)
Definition hubConfig : HubValidation.HubConfig :=
  HubValidation.mkHubConfig
    (Some [HubValidation.mkHubSource "hub-source" "http" (Some "https://example.com/hub")
             None;
           HubValidation.mkHubSource "loop-source" "http" (Some "https://example.com/loop")
             None])
    (Some [HubValidation.mkProfile "dev" "Developers"
             (Some [HubValidation.mkProfileBundle "review" (Some "hub-source");
                    HubValidation.mkProfileBundle "plan" None;
                    HubValidation.mkProfileBundle "deploy" (Some "gone")])]).

(** The same hub with the first source only. *)
Definition reachableHub : HubValidation.HubConfig :=
  HubValidation.mkHubConfig
    (Some [HubValidation.mkHubSource "hub-source" "http" (Some "https://example.com/hub")
             None;
           HubValidation.mkHubSource "docs" "local" None None])
    None.

(** The chain of redirects as the script meets it: no request throws. *)
Definition chainOutcome (t : Prober.Transport) (url : string) (timeout : N)
  : HubScript.Outcome :=
  HubScript.Emitted (chainRequest t url timeout).

(** A server that answers 303 with a [Location], which the script follows
    and the extension does not. *)
Definition seeOther (t : Prober.Transport) (url : string) (timeout : N)
  : HubScript.Outcome :=
  if String.eqb url "https://example.com/hub"
  then HubScript.Emitted (Prober.Response (Some 200%N) None Prober.Quiet)
  else HubScript.Emitted
         (Prober.Response (Some 303%N) (Some "https://example.com/hub") Prober.Quiet).


End Samples.

(* ===================================================================== *)
(** * Properties                                                          *)
(* ===================================================================== *)

(** ** SHA-256: the constants and the standard's test vectors *)

Module Sha256Facts.

Example sha256_constants :
  length Sha256.roundConstants = 64
  /\ nth 0 Sha256.roundConstants 0%N = 0x428a2f98%N
  /\ nth 63 Sha256.roundConstants 0%N = 0xc67178f2%N
  /\ nth 0 Sha256.initialHash 0%N = 0x6a09e667%N
  /\ nth 7 Sha256.initialHash 0%N = 0x5be0cd19%N.
Proof. vm_compute. repeat split. Qed.

(** The two standard test vectors, and one message that needs two blocks. *)
Example sha256_empty :
  Sha256.hex "" = "e3b0c44298fc1c149afbf4c8996fb92427ae41e4649b934ca495991b7852b855".
Proof. vm_compute. reflexivity. Qed.

Example sha256_abc :
  Sha256.hex "abc" = "ba7816bf8f01cfea414140de5dae2223b00361a396177a9cb410ff61f20015ad".
Proof. vm_compute. reflexivity. Qed.

Example sha256_two_blocks :
  Sha256.hex "abcdbcdecdefdefgefghfghighijhijkijkljklmklmnlmnomnopnopq"
  = "248d6a61d20638b8e5c026930c3e6039a33ce45964ff2167f6ecedd419db06c1".
Proof. vm_compute. reflexivity. Qed.

End Sha256Facts.

(* ===================================================================== *)
(** * The string primitives                                               *)
(* ===================================================================== *)

Module JsFacts.
Import Js.

Example stripTrailingSlashes_ex : stripTrailingSlashes "github.com/owner/repo//" = "github.com/owner/repo".
Proof. reflexivity. Qed.

Example stripTrailingSlashes_inner : stripTrailingSlashes "a//b/" = "a//b".
Proof. reflexivity. Qed.

Example stripProtocol_ex :
  stripProtocol "https://github.com/x" = "github.com/x"
  /\ stripProtocol "http://github.com/x" = "github.com/x"
  /\ stripProtocol "HTTPS://github.com/x" = "HTTPS://github.com/x"
  /\ stripProtocol "ftp://github.com/x" = "ftp://github.com/x".
Proof. repeat split. Qed.

Example lowerFirstSegment_ex : lowerFirstSegment "GitHub.com/Owner/Repo" = "github.com/Owner/Repo".
Proof. reflexivity. Qed.

Example split_ex :
  split "acme/olaf" = ["acme"; "olaf"] /\ split "" = [""] /\ split "a//b/" = ["a"; ""; "b"; ""].
Proof. repeat split. Qed.

Example beforeLastSlash_ex :
  beforeLastSlash "olaf-core/competencies/dev/competency-manifest.json"
  = "olaf-core/competencies/dev"
  /\ beforeLastSlash "competency-manifest.json" = "".
Proof. split; reflexivity. Qed.

Example trim_ex : trim "  developer " = "developer" /\ trim "   " = "".
Proof. split; reflexivity. Qed.

(** A no-break space (U+00A0) and an ideographic space (U+3000) are white
    space too; a letter whose encoding shares bytes with them is not. *)
Example trim_unicode :
  trim (String "194" (String "160" "developer" +:+ String "227" (String "128" (String "128" ""))))
  = "developer"
  /\ trim (String "195" (String "160" " b ")) = String "195" (String "160" " b").
Proof. split; reflexivity. Qed.

Example includes_ex :
  includes "Invalid URL" "TypeError: Invalid URL" = true
  /\ includes "certificate" "socket hang up" = false.
Proof. split; reflexivity. Qed.

Lemma spanStr_split f s a b :
  Js.spanStr f s = (a, b) ->
  s = a +:+ b /\ Js.allChars f a = true
  /\ match b with String c _ => f c = false | EmptyString => True end.
Proof.
  revert a b. induction s as [|c s IH]; intros a b H; simpl in H.
  - injection H as <- <-. repeat split.
  - destruct (f c) eqn:Hc.
    + destruct (Js.spanStr f s) as [a' b'] eqn:E. injection H as <- <-.
      destruct (IH _ _ eq_refl) as (-> & Ha & Hb).
      simpl. rewrite Hc, Ha. repeat split. exact Hb.
    + injection H as <- <-. simpl. repeat split. exact Hc.
Qed.

Lemma spanStr_app f a b :
  Js.allChars f a = true ->
  match b with String c _ => f c = false | EmptyString => True end ->
  Js.spanStr f (a +:+ b) = (a, b).
Proof.
  intros Ha Hb. induction a as [|c a IH]; simpl.
  - destruct b as [|c r]; simpl; [reflexivity|]. now rewrite Hb.
  - simpl in Ha. apply andb_true_iff in Ha as [Hc Ha].
    now rewrite Hc, (IH Ha).
Qed.

Lemma append_cons (x : ascii) (a b : string) : String x a +:+ b = String x (a +:+ b).
Proof. reflexivity. Qed.

Lemma append_assoc (a b c : string) : (a +:+ b) +:+ c = a +:+ (b +:+ c).
Proof.
  induction a as [|x a IH]; [reflexivity|]. rewrite !append_cons. now rewrite IH.
Qed.

Lemma append_empty_r (a : string) : a +:+ "" = a.
Proof.
  induction a as [|x a IH]; [reflexivity|]. rewrite append_cons. now rewrite IH.
Qed.

Lemma rev_app_append (s t : string) : String.rev_app s t = String.rev s +:+ t.
Proof.
  unfold String.rev. revert t. induction s as [|a s IH]; intros t; [reflexivity|].
  cbn [String.rev_app]. rewrite (IH (String a t)), (IH (String a "")), append_assoc.
  reflexivity.
Qed.

Lemma rev_cons (a : ascii) (s : string) : String.rev (String a s) = String.rev s +:+ String a "".
Proof. unfold String.rev at 1. cbn [String.rev_app]. apply rev_app_append. Qed.

Lemma rev_append (s t : string) : String.rev (s +:+ t) = String.rev t +:+ String.rev s.
Proof.
  induction s as [|a s IH].
  - change ("" +:+ t) with t. change (String.rev "") with "". now rewrite append_empty_r.
  - rewrite append_cons, !rev_cons, IH, append_assoc. reflexivity.
Qed.

Lemma rev_involutive (s : string) : String.rev (String.rev s) = s.
Proof.
  induction s as [|a s IH]; [reflexivity|].
  rewrite rev_cons, rev_append, IH. reflexivity.
Qed.

(** What is left of the scan starts with no character of the class. *)
Lemma startsWith_slash_rest (s : string) :
  startsWith "/" (stripLeadingSlashes s) = false.
Proof.
  unfold stripLeadingSlashes.
  destruct (spanStr isSlash s) as [a b] eqn:E.
  destruct (spanStr_split _ _ _ _ E) as (_ & _ & Hb). cbn [snd].
  destruct b as [|c b]; [reflexivity|].
  change (startsWith "/" (String c b)) with (if Ascii.eqb "/" c then true else false).
  unfold isSlash in Hb. rewrite Ascii.eqb_sym, Hb. reflexivity.
Qed.

(** [replace(/\/+$/, '')] leaves a string that does not end in a slash. *)
Lemma stripTrailingSlashes_clean (s : string) :
  endsWith "/" (stripTrailingSlashes s) = false.
Proof.
  unfold endsWith, stripTrailingSlashes. rewrite rev_involutive.
  apply startsWith_slash_rest.
Qed.

(** What it removes are slashes at the end, and nothing else. *)
Lemma stripTrailingSlashes_slashes (s : string) :
  exists slashes,
    s = stripTrailingSlashes s +:+ slashes /\ allChars isSlash slashes = true.
Proof.
  unfold stripTrailingSlashes, stripLeadingSlashes.
  destruct (spanStr isSlash (String.rev s)) as [a b] eqn:E.
  destruct (spanStr_split _ _ _ _ E) as (Hs & Ha & _). cbn [snd].
  exists (String.rev a). split.
  - rewrite <- rev_append, <- Hs. now rewrite rev_involutive.
  - clear -Ha. induction a as [|c a IH]; [reflexivity|].
    cbn in Ha. apply andb_true_iff in Ha as [Hc Ha].
    rewrite rev_cons.
    assert (H : forall x y, allChars isSlash x = true -> allChars isSlash y = true ->
                  allChars isSlash (x +:+ y) = true).
    { clear. intros x y Hx Hy. induction x as [|d x IHx]; [exact Hy|].
      rewrite append_cons. cbn in *. apply andb_true_iff in Hx as [Hd Hx].
      now rewrite Hd, IHx. }
    apply H; [now apply IH|]. cbn. now rewrite Hc.
Qed.

Lemma lowerAscii_idem (c : ascii) : lowerAscii (lowerAscii c) = lowerAscii c.
Proof.
  destruct c as [[] [] [] [] [] [] [] []]; vm_compute; reflexivity.
Qed.

Lemma lowerAscii_slash (c : ascii) : isSlash (lowerAscii c) = isSlash c.
Proof.
  destruct c as [[] [] [] [] [] [] [] []]; vm_compute; reflexivity.
Qed.

Lemma toLowerCase_idem (s : string) : toLowerCase (toLowerCase s) = toLowerCase s.
Proof.
  induction s as [|c s IH]; simpl; [reflexivity|].
  now rewrite lowerAscii_idem, IH.
Qed.

Lemma toLowerCase_append (s t : string) :
  toLowerCase (s +:+ t) = toLowerCase s +:+ toLowerCase t.
Proof.
  induction s as [|c s IH]; [reflexivity|].
  rewrite append_cons. cbn [toLowerCase]. now rewrite append_cons, IH.
Qed.

Lemma toLowerCase_rev (s : string) : toLowerCase (String.rev s) = String.rev (toLowerCase s).
Proof.
  induction s as [|c s IH]; [reflexivity|].
  cbn [toLowerCase]. rewrite !rev_cons, toLowerCase_append, IH. reflexivity.
Qed.

Lemma toLowerCase_dropStr (n : nat) (s : string) :
  toLowerCase (dropStr n s) = dropStr n (toLowerCase s).
Proof.
  revert s. induction n as [|n IH]; intros s; [reflexivity|].
  destruct s as [|c s]; [reflexivity|]. cbn. apply IH.
Qed.

Lemma toLowerCase_stripLeadingSlashes (s : string) :
  toLowerCase (stripLeadingSlashes s) = stripLeadingSlashes (toLowerCase s).
Proof.
  unfold stripLeadingSlashes. induction s as [|c s IH]; [reflexivity|].
  cbn. rewrite lowerAscii_slash. destruct (isSlash c).
  - destruct (spanStr isSlash s) as [a b], (spanStr isSlash (toLowerCase s)) as [a' b'].
    exact IH.
  - reflexivity.
Qed.

(** Lowercasing and removing the trailing slashes commute. *)
Lemma toLowerCase_stripTrailingSlashes (s : string) :
  toLowerCase (stripTrailingSlashes s) = stripTrailingSlashes (toLowerCase s).
Proof.
  unfold stripTrailingSlashes.
  now rewrite toLowerCase_rev, toLowerCase_stripLeadingSlashes, toLowerCase_rev.
Qed.

Lemma stripProtocol_lowercase (s : string) :
  toLowerCase s = s -> toLowerCase (stripProtocol s) = stripProtocol s.
Proof.
  intros H. unfold stripProtocol.
  destruct (startsWith "https://" s); [now rewrite toLowerCase_dropStr, H|].
  destruct (startsWith "http://" s); [now rewrite toLowerCase_dropStr, H|exact H].
Qed.

End JsFacts.

(* ===================================================================== *)
(** * Source identity                                                     *)
(* ===================================================================== *)

Module SourceIdFacts.
Import SourceId.

Lemma eqb_empty_dec (s : string) : {s = ""} + {String.eqb s "" = false}.
Proof. destruct s; [left | right]; reflexivity. Qed.

Lemma normalizeBranch_stated (b : option string) :
  normalizeBranch b = statedBranch (nonEmpty b).
Proof.
  destruct b as [b|]; simpl; [|reflexivity].
  destruct (eqb_empty_dec b) as [->|E]; [reflexivity|].
  rewrite E. simpl. reflexivity.
Qed.

Lemma orDefault_stated (p : option string) :
  Js.orDefault p "collections" = statedCollectionsPath (nonEmpty p).
Proof.
  destruct p as [p|]; simpl; [|reflexivity].
  destruct (eqb_empty_dec p) as [->|E]; [reflexivity|].
  rewrite E. reflexivity.
Qed.

Lemma nonEmpty_id (o : option string) : o <> Some "" -> nonEmpty o = o.
Proof.
  destruct o as [s|]; simpl; [|reflexivity].
  destruct (eqb_empty_dec s) as [->|E]; [congruence|].
  now rewrite E.
Qed.

Lemma branchOf_withoutEmpty cfg : branchOf (withoutEmpty cfg) = nonEmpty (branchOf cfg).
Proof. destruct cfg as [[b p]|]; reflexivity. Qed.

Lemma collectionsPathOf_withoutEmpty cfg :
  collectionsPathOf (withoutEmpty cfg) = nonEmpty (collectionsPathOf cfg).
Proof. destruct cfg as [[b p]|]; reflexivity. Qed.

Section WithURL.

Variable newURL : string -> option URL.

Lemma generateHubSourceId_unfold t u cfg :
  generateHubSourceId newURL t u cfg
  = idFormula t (normalizeUrl newURL u)
      (normalizeBranch (branchOf cfg))
      (Js.orDefault (collectionsPathOf cfg) "collections").
Proof. reflexivity. Qed.

(** The normalized URL is entirely lowercase. *)
Lemma normalizeUrl_lowercase u :
  Js.toLowerCase (normalizeUrl newURL u) = normalizeUrl newURL u.
Proof.
  unfold normalizeUrl. destruct (newURL u) as [parsed|]; cbn zeta.
  - now rewrite JsFacts.toLowerCase_append, JsFacts.toLowerCase_stripTrailingSlashes,
      !JsFacts.toLowerCase_idem.
  - rewrite JsFacts.toLowerCase_stripTrailingSlashes.
    now rewrite JsFacts.stripProtocol_lowercase by apply JsFacts.toLowerCase_idem.
Qed.

(** C1 (as amended).  The identifier is [t-] followed by the first twelve
    hex digits of the SHA-256 of [t:N:b:p], where [N] is the normalized URL,
    [b] is [main] when the branch is absent, empty or [master] and the
    branch otherwise, and [p] is the collections path when it is present
    and not empty and [collections] otherwise.  In particular the stated
    formula holds as soon as neither option is the empty string, and equal
    inputs give equal identifiers.  The normalized URL is lowercase; for a
    URL that parses it is the lowercased host followed by the lowercased
    path without its trailing slashes, and otherwise the lowercased string
    without its [http(s)://] prefix and its trailing slashes. *)
Theorem generateHubSourceId_formula (t u : string) (cfg : option SourceIdConfig) :
  generateHubSourceId newURL t u cfg = statedId newURL t u (withoutEmpty cfg)
  /\ (branchOf cfg <> Some "" -> collectionsPathOf cfg <> Some "" ->
      generateHubSourceId newURL t u cfg = statedId newURL t u cfg)
  /\ (forall t' u' cfg', t = t' -> u = u' -> cfg = cfg' ->
      generateHubSourceId newURL t u cfg = generateHubSourceId newURL t' u' cfg')
  /\ Js.toLowerCase (normalizeUrl newURL u) = normalizeUrl newURL u
  /\ (forall parsed, newURL u = Some parsed ->
        exists path,
          normalizeUrl newURL u = Js.toLowerCase (hostname parsed) +:+ path
          /\ Js.endsWith "/" path = false
          /\ exists slashes, Js.toLowerCase (pathname parsed) = path +:+ slashes
                             /\ Js.allChars Js.isSlash slashes = true)
  /\ (newURL u = None -> Js.endsWith "/" (normalizeUrl newURL u) = false).
Proof.
  assert (E : generateHubSourceId newURL t u cfg = statedId newURL t u (withoutEmpty cfg)).
  { rewrite generateHubSourceId_unfold. unfold statedId.
    now rewrite branchOf_withoutEmpty, collectionsPathOf_withoutEmpty,
      normalizeBranch_stated, orDefault_stated. }
  split; [exact E|]. split; [|split; [|split; [|split]]].
  - intros Hb Hp. rewrite E. unfold statedId.
    rewrite branchOf_withoutEmpty, collectionsPathOf_withoutEmpty.
    now rewrite (nonEmpty_id _ Hb), (nonEmpty_id _ Hp).
  - now intros t' u' cfg' -> -> ->.
  - apply normalizeUrl_lowercase.
  - intros parsed Hp. unfold normalizeUrl. rewrite Hp. cbn zeta.
    exists (Js.stripTrailingSlashes (Js.toLowerCase (pathname parsed))).
    split; [reflexivity|]. split; [apply JsFacts.stripTrailingSlashes_clean|].
    apply JsFacts.stripTrailingSlashes_slashes.
  - intros Hp. unfold normalizeUrl. rewrite Hp.
    apply JsFacts.stripTrailingSlashes_clean.
Qed.

(** C6.  The identifier does not distinguish an absent branch from [main]
    or [master], nor an absent collections path from [collections]; an
    absent configuration is an empty one. *)
Theorem generateHubSourceId_branch_path_invariant (t u : string) :
  (forall p,
      generateHubSourceId newURL t u (Some (mkConfig None p))
      = generateHubSourceId newURL t u (Some (mkConfig (Some "main") p))
      /\ generateHubSourceId newURL t u (Some (mkConfig None p))
         = generateHubSourceId newURL t u (Some (mkConfig (Some "master") p)))
  /\ (forall b,
      generateHubSourceId newURL t u (Some (mkConfig b (Some "collections")))
      = generateHubSourceId newURL t u (Some (mkConfig b None)))
  /\ generateHubSourceId newURL t u None
     = generateHubSourceId newURL t u (Some (mkConfig (Some "main") None))
  /\ generateHubSourceId newURL t u None
     = generateHubSourceId newURL t u (Some (mkConfig (Some "master") None))
  /\ generateHubSourceId newURL t u None
     = generateHubSourceId newURL t u (Some (mkConfig None (Some "collections")))
  /\ generateHubSourceId newURL t u None
     = generateHubSourceId newURL t u (Some (mkConfig None None)).
Proof.
  repeat split; reflexivity.
Qed.

Lemma generateLegacyHubSourceId_unfold t u cfg :
  generateLegacyHubSourceId newURL t u cfg
  = if String.eqb (normalizeUrlLegacy newURL u) (normalizeUrl newURL u) then None
    else Some (idFormula t (normalizeUrlLegacy newURL u)
                 (normalizeBranch (branchOf cfg))
                 (Js.orDefault (collectionsPathOf cfg) "collections")).
Proof. reflexivity. Qed.

Lemma normalize_agree_lowercase_path u parsed :
  newURL u = Some parsed ->
  Js.toLowerCase (pathname parsed) = pathname parsed ->
  normalizeUrlLegacy newURL u = normalizeUrl newURL u.
Proof.
  intros Hp Hl. unfold normalizeUrlLegacy, normalizeUrl. rewrite Hp.
  cbn zeta. now rewrite Hl.
Qed.

Lemma lowerAscii_fixed (c : ascii) : Js.lowerAscii c = c <-> Js.isUpper c = false.
Proof.
  unfold Js.lowerAscii, Js.isUpper. cbn zeta.
  destruct ((65 <=? nat_of_ascii c)%nat && (nat_of_ascii c <=? 90)%nat) eqn:E.
  - split; [|discriminate]. intros H. exfalso.
    apply andb_true_iff in E as [E1 E2]. apply Nat.leb_le in E1, E2.
    apply (f_equal nat_of_ascii) in H.
    rewrite nat_ascii_embedding in H by lia. lia.
  - split; reflexivity.
Qed.

(** A string is its own lowercase exactly when it has no letter of [A-Z]. *)
Lemma toLowerCase_fixed (s : string) :
  Js.toLowerCase s = s <-> Js.allChars (fun c => negb (Js.isUpper c)) s = true.
Proof.
  induction s as [|c r IH]; [split; reflexivity|]. cbn.
  rewrite andb_true_iff, negb_true_iff, <- lowerAscii_fixed, <- IH.
  split; [intros [= H1 H2]; now split|intros [-> ->]; reflexivity].
Qed.

Lemma append_same_head (a b c : string) : a +:+ b = a +:+ c -> b = c.
Proof.
  induction a as [|x a IH]; [easy|]. rewrite !JsFacts.append_cons.
  intros [= H]. now apply IH.
Qed.

Lemma normalizeUrl_parsed u parsed :
  newURL u = Some parsed ->
  normalizeUrl newURL u
  = Js.toLowerCase (hostname parsed)
    +:+ Js.toLowerCase (Js.stripTrailingSlashes (pathname parsed)).
Proof.
  intros Hp. unfold normalizeUrl. rewrite Hp. cbn zeta.
  now rewrite JsFacts.toLowerCase_stripTrailingSlashes.
Qed.

Lemma normalizeUrlLegacy_parsed u parsed :
  newURL u = Some parsed ->
  normalizeUrlLegacy newURL u
  = Js.toLowerCase (hostname parsed) +:+ Js.stripTrailingSlashes (pathname parsed).
Proof. intros Hp. unfold normalizeUrlLegacy. now rewrite Hp. Qed.

(** C4 (as amended).  The legacy identifier is undefined exactly when the
    legacy and the current normalization of the URL coincide.  For a URL
    that parses, the legacy normalization is the lowercased host followed
    by the parsed path as it is, without its trailing slashes, where the
    current one lowercases the path too; so the legacy identifier is
    undefined exactly when the parsed path, without its trailing slashes,
    has no letter of [A-Z], in particular when the parsed path is
    lowercase.  For a string of ASCII characters that does not parse, the
    legacy normalization removes a leading [http://] or [https://] and
    the trailing slashes and lowercases what comes before the first
    slash, and nothing else.  When the two normalizations differ, the
    legacy identifier is the identifier formula taken over the
    legacy-normalized URL, with the branch and collections path
    normalized as for the current identifier. *)
Theorem generateLegacyHubSourceId_spec (t u : string) (cfg : option SourceIdConfig) :
  (generateLegacyHubSourceId newURL t u cfg = None
   <-> normalizeUrlLegacy newURL u = normalizeUrl newURL u)
  /\ (forall parsed, newURL u = Some parsed ->
        let path := Js.stripTrailingSlashes (pathname parsed) in
        normalizeUrlLegacy newURL u = Js.toLowerCase (hostname parsed) +:+ path
        /\ normalizeUrl newURL u
           = Js.toLowerCase (hostname parsed) +:+ Js.toLowerCase path
        /\ (generateLegacyHubSourceId newURL t u cfg = None
            <-> Js.allChars (fun c => negb (Js.isUpper c)) path = true))
  /\ (forall parsed, newURL u = Some parsed ->
        Js.toLowerCase (pathname parsed) = pathname parsed ->
        generateLegacyHubSourceId newURL t u cfg = None)
  /\ (newURL u = None -> Js.allChars Js.isAscii u = true ->
      exists host rest,
        Js.stripTrailingSlashes (Js.stripProtocol u) = host +:+ rest
        /\ Js.allChars (fun c => negb (Js.isSlash c)) host = true
        /\ (rest = "" \/ Js.startsWith "/" rest = true)
        /\ normalizeUrlLegacy newURL u = Js.toLowerCase host +:+ rest)
  /\ (normalizeUrlLegacy newURL u <> normalizeUrl newURL u ->
      let b := statedBranch (nonEmpty (branchOf cfg)) in
      let p := statedCollectionsPath (nonEmpty (collectionsPathOf cfg)) in
      generateLegacyHubSourceId newURL t u cfg
        = Some (idFormula t (normalizeUrlLegacy newURL u) b p)
      /\ generateHubSourceId newURL t u cfg
        = idFormula t (normalizeUrl newURL u) b p).
Proof.
  assert (Hnone : generateLegacyHubSourceId newURL t u cfg = None
                  <-> normalizeUrlLegacy newURL u = normalizeUrl newURL u).
  { rewrite generateLegacyHubSourceId_unfold.
    destruct (String.eqb_spec (normalizeUrlLegacy newURL u) (normalizeUrl newURL u));
      split; try tauto; discriminate. }
  split; [exact Hnone|]. split; [|split; [|split]].
  - intros parsed Hp path.
    split; [now apply normalizeUrlLegacy_parsed|].
    split; [now apply normalizeUrl_parsed|].
    rewrite Hnone, (normalizeUrlLegacy_parsed _ _ Hp), (normalizeUrl_parsed _ _ Hp).
    fold path. rewrite <- toLowerCase_fixed. split.
    + intros H. symmetry. eapply append_same_head. exact H.
    + intros H. now rewrite H.
  - intros parsed Hp Hl. apply Hnone.
    eapply normalize_agree_lowercase_path; eassumption.
  - intros Hp _. unfold normalizeUrlLegacy. rewrite Hp. unfold Js.lowerFirstSegment.
    destruct (Js.spanStr (fun c => negb (Js.isSlash c))
                (Js.stripTrailingSlashes (Js.stripProtocol u))) as [host rest] eqn:E.
    exists host, rest. destruct (JsFacts.spanStr_split _ _ _ _ E) as (Hs & Hh & Hr).
    split; [exact Hs|]. split; [exact Hh|]. split; [|reflexivity].
    destruct rest as [|c rest]; [now left|right].
    apply negb_false_iff in Hr. unfold Js.isSlash in Hr. cbn [Js.startsWith].
    rewrite Ascii.eqb_sym, Hr. now destruct rest.
  - intros NE. cbn zeta. rewrite generateLegacyHubSourceId_unfold.
    destruct (String.eqb_spec (normalizeUrlLegacy newURL u) (normalizeUrl newURL u));
      [contradiction|].
    rewrite generateHubSourceId_unfold.
    now rewrite normalizeBranch_stated, orDefault_stated.
Qed.

End WithURL.

(** ** The URLs of the repository's tests and documentation *)

Example normalizeUrl_mixed_case :
  normalizeUrl Samples.newURL "https://github.com/Owner/Repo"
  = "github.com/owner/repo".
Proof. vm_compute. reflexivity. Qed.

(** The examples of the function's documentation. *)
Example normalizeUrl_documented :
  normalizeUrl Samples.newURL "HTTPS://GitHub.com/Owner/Repo/" = "github.com/owner/repo"
  /\ normalizeUrl Samples.newURL "http://example.com" = "example.com".
Proof. vm_compute. split; reflexivity. Qed.

(** A string that is no URL goes through the fallback of either function. *)
Example normalizeUrl_fallback :
  normalizeUrl Samples.newURL "GitHub.com/Owner/Repo//" = "github.com/owner/repo"
  /\ normalizeUrlLegacy Samples.newURL "GitHub.com/Owner/Repo//"
     = "github.com/Owner/Repo".
Proof. vm_compute. split; reflexivity. Qed.

(** On a string that [new URL] rejects, the legacy fallback strips the
    protocol before lowercasing anything, the current one after lowercasing
    everything: with the scheme in capitals the two differ although nothing
    after the host is in capitals. *)
Example normalizeUrl_fallback_capital_scheme :
  normalizeUrl Samples.newURL "HTTPS://exa mple.com/path" = "exa mple.com/path"
  /\ normalizeUrlLegacy Samples.newURL "HTTPS://exa mple.com/path"
     = "https://exa mple.com/path"
  /\ generateLegacyHubSourceId Samples.newURL "github"
       "HTTPS://exa mple.com/path" None <> None.
Proof. vm_compute. repeat split; discriminate. Qed.

Example normalizeUrlLegacy_mixed_case :
  normalizeUrlLegacy Samples.newURL "https://github.com/Owner/Repo"
  = "github.com/Owner/Repo".
Proof. vm_compute. reflexivity. Qed.

Example generateHubSourceId_mixed_case :
  generateHubSourceId Samples.newURL "github" "https://github.com/Owner/Repo" None
  = "github-2bbe3751c8d5".
Proof. vm_compute. reflexivity. Qed.

Example generateLegacyHubSourceId_mixed_case :
  generateLegacyHubSourceId Samples.newURL "github" "https://github.com/Owner/Repo" None
  = Some "github-5ed19c768f41".
Proof. vm_compute. reflexivity. Qed.

Example generateLegacyHubSourceId_lowercase :
  generateLegacyHubSourceId Samples.newURL "github" "https://github.com/owner/repo" None
  = None.
Proof. vm_compute. reflexivity. Qed.

(** C1, the claim as stated, fails on an empty branch: the code hashes
    [github:github.com/owner/repo:main:collections], the stated formula
    [github:github.com/owner/repo::collections]. *)
Lemma generateHubSourceId_empty_branch :
  generateHubSourceId Samples.newURL "github" "https://github.com/owner/repo"
    (Some (mkConfig (Some "") None))
  <> statedId Samples.newURL "github" "https://github.com/owner/repo"
       (Some (mkConfig (Some "") None)).
Proof. vm_compute. discriminate. Qed.

(** The same for an empty collections path. *)
Example generateHubSourceId_empty_collectionsPath :
  generateHubSourceId Samples.newURL "github" "https://github.com/owner/repo"
    (Some (mkConfig None (Some "")))
  = "github-2bbe3751c8d5"
  /\ statedId Samples.newURL "github" "https://github.com/owner/repo"
       (Some (mkConfig None (Some "")))
     = "github-6e6b3552ea4a".
Proof. vm_compute. split; reflexivity. Qed.

(** The stated formula on a configuration without empty strings. *)
Lemma generateHubSourceId_formula_witness :
  generateHubSourceId Samples.newURL "github" "https://github.com/owner/repo"
    (Some (mkConfig (Some "develop") None))
  = statedId Samples.newURL "github" "https://github.com/owner/repo"
      (Some (mkConfig (Some "develop") None)).
Proof.
  apply (proj1 (proj2 (generateHubSourceId_formula Samples.newURL "github"
                         "https://github.com/owner/repo"
                         (Some (mkConfig (Some "develop") None)))));
    discriminate.
Defined.

(** C4, the claim as stated, fails: a URL whose path is written in
    lowercase can have a legacy identifier.  The path of
    [https://example.com/café] parses to [/caf%C3%A9], the hex digits of
    the escape in upper case; the current normalization lowercases them
    and the legacy one does not. *)
Lemma generateLegacyHubSourceId_lowercase_written :
  Js.toLowerCase "https://example.com/café" = "https://example.com/café"
  /\ normalizeUrlLegacy Samples.newURL "https://example.com/café"
     = "example.com/caf%C3%A9"
  /\ normalizeUrl Samples.newURL "https://example.com/café" = "example.com/caf%c3%a9"
  /\ generateLegacyHubSourceId Samples.newURL "github" "https://example.com/café" None
     = Some "github-8f6aecd89d71".
Proof. vm_compute. repeat split. Qed.

(** A URL with capitals in its path has the legacy identifier of the
    formula, taken over the URL with the case of the path kept. *)
Lemma generateLegacyHubSourceId_spec_witness :
  generateLegacyHubSourceId Samples.newURL "github" "https://github.com/Owner/Repo" None
  = Some (idFormula "github" "github.com/Owner/Repo" "main" "collections").
Proof.
  apply (proj1 (proj2 (proj2 (proj2 (proj2
           (generateLegacyHubSourceId_spec Samples.newURL "github"
              "https://github.com/Owner/Repo" None)))) ltac:(discriminate))).
Defined.

End SourceIdFacts.

(* ===================================================================== *)
(** * The migration runner                                                *)
(* ===================================================================== *)

Module RegistryFacts.
Import Registry.

Section Runner.

Context {Env : Type}.
Implicit Types (w : World Env) (fn : M Env unit) (name : string).

Lemma settled_dec (r : option MigrationRecord) : {settled r} + {~ settled r}.
Proof.
  destruct r as [[[] c d]|].
  - right. intros (x & [= <-] & [H|H]); discriminate H.
  - left. eexists; split; [reflexivity|]. now left.
  - left. eexists; split; [reflexivity|]. now right.
  - right. intros (x & H & _). discriminate H.
Qed.

Lemma runMigration_settled name fn w :
  settled (recordOf name w) ->
  runMigration name fn w = (Returned tt, noting Debug (alreadyNote name w) None w).
Proof.
  intros (r & Hr & Hs). unfold alreadyNote. rewrite Hr. unfold recordOf in Hr.
  unfold runMigration, mbind, M_bind, bind, getMigrationState, globalStateGet.
  rewrite Hr. destruct r as [[] c d]; simpl in Hs.
  - destruct Hs; discriminate.
  - reflexivity.
  - reflexivity.
Qed.

Lemma runMigration_unsettled name fn w :
  ~ settled (recordOf name w) ->
  runMigration name fn w = conclude name (fn (announced name w)).
Proof.
  intros Hn. unfold recordOf in Hn.
  unfold runMigration, mbind, M_bind, bind, getMigrationState, globalStateGet.
  destruct (default ∅ (globalState w !! STATE_KEY) !! name) as [[[] c d]|] eqn:E.
  - unfold log, tryCatch, announced, noting, conclude.
    destruct (fn _) as [[[]|e] w1]; reflexivity.
  - exfalso. apply Hn. eexists; split; [reflexivity|]. now left.
  - exfalso. apply Hn. eexists; split; [reflexivity|]. now right.
  - unfold log, tryCatch, announced, noting, conclude.
    destruct (fn _) as [[[]|e] w1]; reflexivity.
Qed.

Lemma markMigrationComplete_effect name d w :
  exists w',
    markMigrationComplete name d w = (Returned tt, w')
    /\ recordOf name w' = Some (mkRecord completed (Some (clock w)) d)
    /\ (forall other, other <> name -> recordOf other w' = recordOf other w)
    /\ env w' = env w.
Proof.
  eexists. split; [reflexivity|]. cbn. unfold recordOf. cbn.
  rewrite lookup_insert_eq. cbn. split; [apply lookup_insert_eq|].
  split; [|reflexivity].
  intros other Hne. now rewrite lookup_insert_ne.
Qed.

(** C2.  When the persisted record of [name] is completed or skipped, the
    run returns without invoking the function (any function gives the same
    result) and the persisted state is unchanged.  Otherwise the function is
    started, with the record still unmarked, and its outcome decides: after
    a successful return the record of [name] is marked completed; after a
    throw the same error reaches the caller and the runner writes nothing,
    so a record the function did not touch is still unsettled and the next
    run starts its function again. *)
Theorem runMigration_runs_once name fn w :
  (settled (recordOf name w) ->
     fst (runMigration name fn w) = Returned tt
     /\ globalState (snd (runMigration name fn w)) = globalState w
     /\ env (snd (runMigration name fn w)) = env w
     /\ forall fn', runMigration name fn' w = runMigration name fn w)
  /\ (~ settled (recordOf name w) ->
     runMigration name fn w = conclude name (fn (announced name w))
     /\ globalState (announced name w) = globalState w
     /\ (forall w1, fn (announced name w) = (Returned tt, w1) ->
           fst (runMigration name fn w) = Returned tt
           /\ (exists r, recordOf name (snd (runMigration name fn w)) = Some r
                         /\ status r = completed)
           /\ env (snd (runMigration name fn w)) = env w1)
     /\ (forall e w1, fn (announced name w) = (Threw e, w1) ->
           fst (runMigration name fn w) = Threw e
           /\ globalState (snd (runMigration name fn w)) = globalState w1
           /\ env (snd (runMigration name fn w)) = env w1
           /\ (recordOf name w1 = recordOf name w ->
               ~ settled (recordOf name (snd (runMigration name fn w)))
               /\ forall fn',
                    runMigration name fn' (snd (runMigration name fn w))
                    = conclude name
                        (fn' (announced name (snd (runMigration name fn w))))))).
Proof.
  split.
  - intros Hs. rewrite (runMigration_settled name fn w Hs). cbn. repeat split.
    intros fn'. apply runMigration_settled, Hs.
  - intros Hn. pose proof (runMigration_unsettled name fn w Hn) as E.
    split; [exact E|]. split; [reflexivity|]. split.
    + intros w1 Hfn. rewrite E, Hfn. cbn [conclude].
      destruct (markMigrationComplete_effect name None w1) as (w' & -> & Hr & _ & He).
      cbn. split; [reflexivity|]. split; [|exact He]. eexists; split; [exact Hr|reflexivity].
    + intros e w1 Hfn. rewrite E, Hfn. cbn [conclude fst snd].
      split; [reflexivity|]. split; [reflexivity|]. split; [reflexivity|].
      intros Hsame.
      assert (Hn' : ~ settled (recordOf name
                 (noting Error ("Migration '" +:+ name +:+ "' failed") (Some e) w1))).
      { unfold recordOf in *. cbn. rewrite Hsame. exact Hn. }
      split; [exact Hn'|]. intros fn'. now apply runMigration_unsettled.
Qed.

End Runner.

(** The runs of the repository's tests, with a function that counts its
    invocations. *)
Example runMigration_first_run :
  let w1 := snd (runMigration "test-migration" Samples.counting Samples.fresh) in
  env w1 = 1
  /\ recordOf "test-migration" w1
     = Some (mkRecord completed (Some "2026-01-01T00:00:00.000Z") None)
  /\ env (snd (runMigration "test-migration" Samples.counting w1)) = 1.
Proof. vm_compute. repeat split. Qed.

Example runMigration_failure_is_retried :
  let w1 := snd (runMigration "test-migration" Samples.failing Samples.fresh) in
  fst (runMigration "test-migration" Samples.failing Samples.fresh)
  = Threw (mkError "migration failed" None)
  /\ recordOf "test-migration" w1 = None
  /\ env (snd (runMigration "test-migration" Samples.counting w1)) = 2.
Proof. vm_compute. repeat split. Qed.

Example runMigration_skipped_not_run :
  let w1 := snd (markMigrationSkipped "test-migration" (Some "not needed") Samples.fresh) in
  env (snd (runMigration "test-migration" Samples.counting w1)) = 0.
Proof. vm_compute. reflexivity. Qed.

Lemma fresh_unsettled : ~ settled (recordOf "test-migration" Samples.fresh).
Proof. intros (x & H & _). vm_compute in H. discriminate H. Qed.

Lemma skipped_settled :
  settled (recordOf "test-migration"
             (snd (markMigrationSkipped "test-migration" None Samples.fresh))).
Proof. eexists. split; [vm_compute; reflexivity|]. now right. Qed.

(** Both hypotheses of [runMigration_runs_once] are met: a skipped
    migration is not run, and a failed one throws its error on. *)
Lemma runMigration_runs_once_witness :
  env (snd (runMigration "test-migration" Samples.counting
              (snd (markMigrationSkipped "test-migration" None Samples.fresh)))) = 0
  /\ fst (runMigration "test-migration" Samples.failing Samples.fresh)
     = Threw (mkError "migration failed" None).
Proof.
  split.
  - pose proof (proj1 (runMigration_runs_once "test-migration" Samples.counting
                         (snd (markMigrationSkipped "test-migration" None Samples.fresh)))
                  skipped_settled) as (_ & _ & He & _).
    exact He.
  - pose proof (proj2 (runMigration_runs_once "test-migration" Samples.failing
                         Samples.fresh) fresh_unsettled) as (_ & _ & _ & H).
    exact (proj1 (H _ _ eq_refl)).
Defined.

End RegistryFacts.

(* ===================================================================== *)
(** * The sourceId-normalization migration                                *)
(* ===================================================================== *)

Module MigrationFacts.
Import Migration.

Lemma hyphen_not_letter : isLowerLetter "-" = false.
Proof. reflexivity. Qed.

(** The test of the code is the pattern of the specification. *)
Lemma isHubGeneratedId_iff (s : string) :
  isHubGeneratedId s = true <-> MatchesHubPattern s.
Proof.
  unfold isHubGeneratedId, MatchesHubPattern. split.
  - destruct (Js.spanStr isLowerLetter s) as [a b] eqn:E.
    destruct (JsFacts.spanStr_split _ _ _ _ E) as (-> & Ha & _).
    destruct a as [|c a]; [discriminate|].
    destruct b as [|d hex]; [discriminate|].
    destruct (Ascii.eqb_spec d "-") as [->|Hd].
    + intros H. apply andb_true_iff in H as [Hl Hh].
      apply Nat.eqb_eq in Hl.
      exists (String c a), hex. repeat split; try assumption. discriminate.
    + intros H. exfalso.
      destruct d as [[] [] [] [] [] [] [] []]; try discriminate H.
      now apply Hd.
  - intros (letters & hex & -> & Hne & Hl & Hlen & Hh).
    change ("-" +:+ hex) with (String "-"%char hex).
    rewrite (JsFacts.spanStr_app isLowerLetter letters (String "-"%char hex) Hl hyphen_not_letter).
    destruct letters as [|c a]; [contradiction|].
    rewrite Hh, Hlen. reflexivity.
Qed.

Example isHubGeneratedId_examples :
  isHubGeneratedId "github-a1b2c3d4e5f6" = true
  /\ isHubGeneratedId "my-custom-source" = false
  /\ isHubGeneratedId "github-A1B2C3D4E5F6" = false
  /\ isHubGeneratedId "github-a1b2c3d4e5f6a" = false
  /\ isHubGeneratedId "-a1b2c3d4e5f6" = false
  /\ isHubGeneratedId "awesome-copilot-a1b2c3d4e5f6" = false.
Proof. repeat split. Qed.

Lemma pattern_nonempty (s : string) : MatchesHubPattern s -> s <> "".
Proof.
  intros (letters & hex & -> & Hne & _). destruct letters; [contradiction|discriminate].
Qed.

Section WithURL.

Variable newURL : string -> option URL.

Abbreviation currentId source :=
  (SourceId.generateHubSourceId newURL (type source) (url source) (idConfig source)).
Abbreviation legacyIdOf source :=
  (SourceId.generateLegacyHubSourceId newURL (type source) (url source) (idConfig source)).

Lemma Due_dec (source : RegistrySource) : {Due newURL source} + {~ Due newURL source}.
Proof.
  unfold Due.
  destruct (isHubGeneratedId (id source)) eqn:Hp.
  - destruct (decide (currentId source = id source)) as [E|NE].
    + right. tauto.
    + destruct (decide (legacyIdOf source = Some (id source))) as [L|NL].
      * left. rewrite <- isHubGeneratedId_iff. tauto.
      * right. tauto.
  - right. rewrite <- isHubGeneratedId_iff, Hp. intros [H _]. discriminate.
Qed.

(** The loop variables after an iteration that rewrites the source. *)
Lemma visit_due source st :
  Due newURL source ->
  visit newURL source st
  = (renamed newURL source,
     mkLoop (<[id source := currentId source]> (idMap st)) true
       (logger st ++
        [mkLog Info ("Migrating source '" +:+ name source +:+ "': " +:+ id source
                     +:+ " -> " +:+ currentId source) None])).
Proof.
  intros (Hp & Hne & Hl). unfold visit.
  pose proof (pattern_nonempty _ Hp) as Hid.
  apply isHubGeneratedId_iff in Hp. rewrite Hp. cbn [negb].
  destruct (String.eqb_spec (id source) (currentId source)) as [E|_]; [congruence|].
  cbn [negb]. rewrite Hl. cbn [Js.truthy].
  destruct (String.eqb_spec (id source) "") as [E|_]; [contradiction|].
  rewrite bool_decide_eq_true_2 by reflexivity. reflexivity.
Qed.

Lemma visit_not_due source st :
  ~ Due newURL source -> visit newURL source st = (source, st).
Proof.
  intros Hn. unfold visit.
  destruct (isHubGeneratedId (id source)) eqn:Hp; [|reflexivity]. cbn [negb].
  destruct (String.eqb_spec (id source) (currentId source)) as [E|NE]; [reflexivity|].
  cbn [negb].
  destruct (Js.truthy (legacyIdOf source)); [|reflexivity]. cbn [andb].
  destruct (bool_decide_reflect (Some (id source) = legacyIdOf source)) as [L|_];
    [|reflexivity].
  exfalso. apply Hn. split; [now apply isHubGeneratedId_iff|].
  split; [congruence|]. now symmetry.
Qed.

Abbreviation Settles := (Migration.Settles newURL).

Lemma visit_Settles source st : Settles source (fst (visit newURL source st)).
Proof.
  destruct (Due_dec source) as [D|N].
  - rewrite (visit_due _ _ D). split; [reflexivity|tauto].
  - rewrite (visit_not_due _ _ N). split; [tauto|reflexivity].
Qed.

Lemma visit_changed source st :
  changed st = true -> changed (snd (visit newURL source st)) = true.
Proof.
  intros H. destruct (Due_dec source) as [D|N].
  - now rewrite (visit_due _ _ D).
  - now rewrite (visit_not_due _ _ N).
Qed.

Lemma forEach_cons source rest st :
  forEach newURL (source :: rest) st
  = (fst (visit newURL source st)
       :: fst (forEach newURL rest (snd (visit newURL source st))),
     snd (forEach newURL rest (snd (visit newURL source st)))).
Proof.
  cbn [forEach]. destruct (visit newURL source st) as [source' st'].
  cbn [fst snd]. now destruct (forEach newURL rest st').
Qed.

Lemma forEach_sources sources st :
  Forall2 Settles sources (fst (forEach newURL sources st)).
Proof.
  revert st. induction sources as [|source rest IH]; intros st; [constructor|].
  rewrite forEach_cons. cbn [fst]. constructor; [apply visit_Settles|apply IH].
Qed.

Lemma forEach_changed sources st :
  changed st = true -> changed (snd (forEach newURL sources st)) = true.
Proof.
  revert st. induction sources as [|source rest IH]; intros st H; [exact H|].
  rewrite forEach_cons. cbn [snd]. apply IH, visit_changed, H.
Qed.

(** When the loop ends with [changed] unset, no source was touched. *)
Lemma forEach_unchanged sources st :
  changed (snd (forEach newURL sources st)) = false ->
  fst (forEach newURL sources st) = sources.
Proof.
  revert st. induction sources as [|source rest IH]; intros st; [reflexivity|].
  rewrite forEach_cons. cbn [fst snd]. intros H.
  destruct (Due_dec source) as [D|N].
  - rewrite (visit_due _ _ D) in H. cbn [snd] in H.
    rewrite forEach_changed in H by reflexivity. discriminate H.
  - rewrite (visit_not_due _ _ N) in *. cbn [fst snd] in *. now rewrite (IH st H).
Qed.

(** Every entry of the map was made for a source that was due. *)
Lemma forEach_idMap_sound sources st old new :
  idMap (snd (forEach newURL sources st)) !! old = Some new ->
  idMap st !! old = Some new
  \/ exists source, source ∈ sources /\ id source = old /\ Due newURL source
                    /\ new = currentId source.
Proof.
  revert st. induction sources as [|source rest IH]; intros st; [now left|].
  rewrite forEach_cons. cbn [snd]. intros H.
  destruct (IH _ H) as [H1|(s & Hin & Hid & Hd & Hn)].
  - destruct (Due_dec source) as [D|N].
    + rewrite (visit_due _ _ D) in H1. cbn in H1.
      destruct (decide (id source = old)) as [<-|Hne].
      * rewrite lookup_insert_eq in H1. injection H1 as <-.
        right. exists source. split; [apply list_elem_of_here|]. tauto.
      * rewrite lookup_insert_ne in H1 by assumption. now left.
    + rewrite (visit_not_due _ _ N) in H1. now left.
  - right. exists s. split; [now apply list_elem_of_further|]. tauto.
Qed.

Lemma visit_idMap_keeps source st old :
  is_Some (idMap st !! old) -> is_Some (idMap (snd (visit newURL source st)) !! old).
Proof.
  intros H. destruct (Due_dec source) as [D|N].
  - rewrite (visit_due _ _ D). cbn.
    destruct (decide (id source = old)) as [<-|Hne].
    + rewrite lookup_insert_eq. eauto.
    + now rewrite lookup_insert_ne.
  - now rewrite (visit_not_due _ _ N).
Qed.

Lemma forEach_idMap_keeps sources st old :
  is_Some (idMap st !! old) ->
  is_Some (idMap (snd (forEach newURL sources st)) !! old).
Proof.
  revert st. induction sources as [|source rest IH]; intros st H; [exact H|].
  rewrite forEach_cons. cbn [snd]. apply IH, visit_idMap_keeps, H.
Qed.

(** The old id of every source that was due is in the map. *)
Lemma forEach_idMap_complete sources st source :
  source ∈ sources -> Due newURL source ->
  is_Some (idMap (snd (forEach newURL sources st)) !! id source).
Proof.
  revert st. induction sources as [|x rest IH]; intros st Hin D.
  - now apply not_elem_of_nil in Hin.
  - rewrite forEach_cons. cbn [snd]. apply elem_of_cons in Hin as [<-|Hin].
    + apply forEach_idMap_keeps. rewrite (visit_due _ _ D). cbn.
      rewrite lookup_insert_eq. eauto.
    + now apply IH.
Qed.

Lemma same_id_same_source (l : list RegistrySource) (x y : RegistrySource) :
  NoDup (map id l) -> x ∈ l -> y ∈ l -> id x = id y -> x = y.
Proof.
  intros Hnd Hx Hy Hid.
  apply list_elem_of_lookup in Hx as [i Hi]. apply list_elem_of_lookup in Hy as [j Hj].
  assert (Hi' : map id l !! i = Some (id x)) by now rewrite list_lookup_fmap, Hi.
  assert (Hj' : map id l !! j = Some (id x)) by now rewrite list_lookup_fmap, Hj, Hid.
  pose proof (NoDup_lookup _ _ _ _ Hnd Hi' Hj') as ->. congruence.
Qed.

Lemma stored_sources storage log :
  Forall2 Settles (sources storage)
    (sources (stored (migrateConfigSources newURL storage log))).
Proof.
  unfold migrateConfigSources, getSources, saveConfig.
  pose proof (forEach_sources (sources storage) (mkLoop ∅ false log)) as Hs.
  pose proof (forEach_unchanged (sources storage) (mkLoop ∅ false log)) as Hu.
  destruct (forEach newURL (sources storage) (mkLoop ∅ false log)) as [sources' st].
  cbn in *. destruct (changed st) eqn:Hc; cbn.
  - exact Hs.
  - now rewrite Hu in Hs.
Qed.


(** A source that has been rewritten is not due again. *)
Lemma renamed_not_due source : ~ Due newURL (renamed newURL source).
Proof. intros (_ & Hne & _). now apply Hne. Qed.

Lemma Settles_not_due source source' : Settles source source' -> ~ Due newURL source'.
Proof.
  intros [Hd Hn]. destruct (Due_dec source) as [D|N].
  - rewrite (Hd D). apply renamed_not_due.
  - now rewrite (Hn N).
Qed.

Lemma forEach_none_due sources st :
  Forall (fun source => ~ Due newURL source) sources ->
  forEach newURL sources st = (sources, st).
Proof.
  revert st. induction sources as [|source rest IH]; intros st H; [reflexivity|].
  apply Forall_cons in H as [Hs Hr].
  rewrite forEach_cons, (visit_not_due _ _ Hs). cbn [fst snd]. now rewrite (IH st Hr).
Qed.

Lemma migrateConfigSources_none_due storage log :
  Forall (fun source => ~ Due newURL source) (sources storage) ->
  migrateConfigSources newURL storage log = mkMigrated ∅ storage log.
Proof.
  intros H. unfold migrateConfigSources, getSources.
  now rewrite (forEach_none_due _ _ H).
Qed.

(** X1.  The migration of the configuration is idempotent: run on what it
    has stored, it rewrites nothing, returns the empty map and logs
    nothing. *)
Theorem migrateConfigSources_idempotent (storage : Config) (log log' : list LogEntry) :
  let once := migrateConfigSources newURL storage log in
  let twice := migrateConfigSources newURL (stored once) log' in
  stored twice = stored once /\ returned twice = ∅ /\ written twice = log'.
Proof.
  cbn zeta. pose proof (stored_sources storage log) as Hall.
  rewrite migrateConfigSources_none_due; [repeat split|].
  apply Forall_forall. intros source' Hin.
  apply list_elem_of_lookup in Hin as [i Hi].
  destruct (Forall2_lookup_r _ _ _ _ _ Hall Hi) as (source & _ & Hs).
  eapply Settles_not_due, Hs.
Qed.

(** X2.  The test [/^[a-z]+-[a-f0-9]{12}$/] accepts exactly the strings
    made of one or more lowercase letters, a hyphen, and twelve lowercase
    hex digits. *)
Theorem isHubGeneratedId_is_pattern (s : string) :
  isHubGeneratedId s = true <-> MatchesHubPattern s.
Proof. apply isHubGeneratedId_iff. Qed.

End WithURL.

(** The configuration of the repository's migration test. *)
Example migrateConfigSources_sample :
  let result := migrateConfigSources Samples.newURL Samples.storedSources [] in
  map id (sources (stored result))
  = ["github-2bbe3751c8d5"; "github-2bbe3751c8d5"; "my-custom-source"]
  /\ returned result !! "github-5ed19c768f41" = Some "github-2bbe3751c8d5"
  /\ length (written result) = 1.
Proof. vm_compute. repeat split. Qed.

Lemma sample_legacy_due :
  Due Samples.newURL
    (mkSource "github-5ed19c768f41" "Test Source" "github"
       "https://github.com/Owner/Repo" None).
Proof.
  split; [|split].
  - apply isHubGeneratedId_iff. reflexivity.
  - vm_compute. discriminate.
  - vm_compute. reflexivity.
Qed.


End MigrationFacts.

(* ===================================================================== *)
(** * The URL accessibility prober                                        *)
(* ===================================================================== *)

Module ProberFacts.
Import Prober.

Lemma truthy_spec (o : option string) :
  Js.truthy o = true <-> exists l, o = Some l /\ l <> "".
Proof.
  destruct o as [l|]; simpl.
  - destruct (String.eqb_spec l "") as [->|Hne]; simpl.
    + split; [discriminate|]. intros (l & [= <-] & H). now contradiction H.
    + split; [|reflexivity]. intros _. now exists l.
  - split; [discriminate|]. intros (l & H & _). discriminate H.
Qed.

Lemma all_Fulfilled {A} (promises : list (Promise A)) (values : list A) :
  all promises = Fulfilled values <-> promises = map Fulfilled values.
Proof.
  revert values. induction promises as [|p rest IH]; intros values.
  - simpl. split.
    + intros [= <-]. reflexivity.
    + destruct values; [reflexivity|discriminate].
  - simpl. destruct p as [|a|e].
    + split.
      * destruct (all rest); discriminate.
      * destruct values; discriminate.
    + destruct (all rest) as [|l|e] eqn:E.
      * split; [discriminate|]. destruct values as [|v values]; [discriminate|].
        intros [= -> H]. apply IH in H. discriminate H.
      * split.
        -- intros [= <-]. simpl. f_equal. now apply IH.
        -- destruct values as [|v values]; [discriminate|].
           intros [= -> H]. apply IH in H. now injection H as ->.
      * split; [discriminate|]. destruct values as [|v values]; [discriminate|].
        intros [= -> H]. apply IH in H. discriminate H.
    + split; [discriminate|]. destruct values; discriminate.
Qed.

Lemma all_Pending {A} (promises : list (Promise A)) :
  (forall p, p ∈ promises -> forall e, p <> Rejected e) ->
  Pending ∈ promises -> all promises = Pending.
Proof.
  induction promises as [|p rest IH]; intros Hnr Hin.
  - now apply not_elem_of_nil in Hin.
  - assert (Hrest : forall q, q ∈ rest -> forall e, q <> Rejected e).
    { intros q Hq. apply Hnr. now apply list_elem_of_further. }
    assert (Hall : forall e, all rest <> Rejected e).
    { clear -Hrest. induction rest as [|q rest IH]; [discriminate|].
      intros e. simpl.
      assert (Hq : forall e', q <> Rejected e') by (apply Hrest, list_elem_of_here).
      assert (IH' : forall e', all rest <> Rejected e').
      { apply IH. intros q' Hq'. apply Hrest. now apply list_elem_of_further. }
      destruct q as [|a|e']; [| |now contradiction (Hq e')];
        destruct (all rest) as [|l|e'] eqn:E; try discriminate;
        now contradiction (IH' e'). }
    simpl. apply elem_of_cons in Hin as [<-|Hin].
    + destruct (all rest) as [|l|e] eqn:E; try reflexivity. now contradiction (Hall e).
    + specialize (IH Hrest Hin). rewrite IH.
      destruct p as [|a|e]; try reflexivity.
      exfalso. eapply Hnr; [apply list_elem_of_here|reflexivity].
Qed.

Section WithNetwork.

Variable newURL : string -> option URL.
Variable resolveLocation : string -> string -> option string.
Variable request : Transport -> string -> N -> Reply.

Abbreviation makeRequest := (Prober.makeRequest newURL resolveLocation request).
Abbreviation checkUrl := (Prober.checkUrl newURL resolveLocation request).
Abbreviation checkUrls := (Prober.checkUrls newURL resolveLocation request).
Abbreviation Checked := (Prober.Checked newURL).
Abbreviation Replies := (Prober.Replies newURL request).
Abbreviation Redirects := (Prober.Redirects newURL resolveLocation request).
Abbreviation Leads := (Prober.Leads newURL resolveLocation request).
Abbreviation Answers := (Prober.Answers newURL request).
Abbreviation FinalStatus := (Prober.FinalStatus newURL resolveLocation request).
Abbreviation Fails := (Prober.Fails newURL request).
Abbreviation Interrupted := (Prober.Interrupted newURL request).
Abbreviation Stuck := (Prober.Stuck newURL resolveLocation request).

Lemma followed_spec statusCode location :
  isRedirect statusCode && Js.truthy location = true <-> followed statusCode location.
Proof.
  unfold followed. rewrite andb_true_iff, truthy_spec. reflexivity.
Qed.

Lemma not_followed_spec statusCode location :
  isRedirect statusCode && Js.truthy location = false <-> ~ followed statusCode location.
Proof.
  rewrite <- followed_spec. destruct (isRedirect statusCode && Js.truthy location);
    split; congruence.
Qed.

(** One request, by the reply of the network. *)
Lemma makeRequest_step fuel url timeout reply :
  Replies timeout url reply ->
  makeRequest (S fuel) url timeout
  = match reply with
    | Response statusCode location aftermath =>
        if isRedirect statusCode && Js.truthy location then
          let '(later, p) :=
            match resolveLocation (default "" location) url with
            | Some redirectUrl => makeRequest fuel redirectUrl timeout
            | None => ([], Pending)
            end in
          match aftermath with
          | Quiet => (url :: later, p)
          | LaterFailure e => (url :: later, Rejected e)
          | LaterIdle => (url :: later, Rejected (timeoutError timeout))
          end
        else ([url], Fulfilled (default 0%N statusCode))
    | Failure e => ([url], Rejected e)
    | Idle => ([url], Rejected (timeoutError timeout))
    end.
Proof.
  intros (parsed & Hu & <-). cbn [Prober.makeRequest]. rewrite Hu. reflexivity.
Qed.

Lemma makeRequest_unparsed fuel url timeout :
  newURL url = None -> makeRequest fuel url timeout = ([], Rejected invalidUrlError).
Proof. intros Hu. destruct fuel; cbn [Prober.makeRequest]; now rewrite Hu. Qed.

Lemma makeRequest_no_fuel url timeout parsed :
  newURL url = Some parsed -> makeRequest 0 url timeout = ([], Pending).
Proof. intros Hu. cbn [Prober.makeRequest]. now rewrite Hu. Qed.

Lemma parsed_replies url timeout parsed :
  newURL url = Some parsed ->
  Replies timeout url (request (transportOf parsed) url timeout).
Proof. intros Hu. now exists parsed. Qed.

Lemma Replies_unique timeout url reply reply' :
  Replies timeout url reply -> Replies timeout url reply' -> reply = reply'.
Proof. intros (p & Hp & <-) (p' & Hp' & <-). congruence. Qed.

Lemma makeRequest_redirect fuel url timeout next :
  Redirects timeout url next ->
  makeRequest (S fuel) url timeout
  = (url :: fst (makeRequest fuel next timeout), snd (makeRequest fuel next timeout)).
Proof.
  intros (sc & loc & Hr & Hf & Hres).
  rewrite (makeRequest_step _ _ _ _ Hr).
  apply followed_spec in Hf. rewrite Hf. cbn [default from_option id]. rewrite Hres.
  now destruct (makeRequest fuel next timeout).
Qed.

Lemma makeRequest_answered fuel url timeout c :
  Answers timeout url c -> makeRequest (S fuel) url timeout = ([url], Fulfilled c).
Proof.
  intros (sc & loc & late & Hr & Hnf & ->).
  rewrite (makeRequest_step _ _ _ _ Hr).
  apply not_followed_spec in Hnf. now rewrite Hnf.
Qed.

Lemma makeRequest_failed fuel url timeout e :
  Fails timeout url e -> makeRequest (S fuel) url timeout = ([url], Rejected e).
Proof.
  intros [Hr|[Hr ->]]; now rewrite (makeRequest_step _ _ _ _ Hr).
Qed.

Lemma makeRequest_interrupted fuel url timeout e :
  Interrupted timeout url e -> snd (makeRequest (S fuel) url timeout) = Rejected e.
Proof.
  intros (sc & loc & Hf & H). apply followed_spec in Hf.
  destruct H as [Hr|[Hr ->]]; rewrite (makeRequest_step _ _ _ _ Hr), Hf;
    destruct (match resolveLocation _ url with Some _ => _ | None => _ end);
    reflexivity.
Qed.

Lemma makeRequest_stuck fuel url timeout :
  Stuck timeout url -> makeRequest (S fuel) url timeout = ([url], Pending).
Proof.
  intros (sc & loc & Hr & Hf & Hres).
  rewrite (makeRequest_step _ _ _ _ Hr).
  apply followed_spec in Hf. rewrite Hf. cbn [default from_option id].
  now rewrite Hres.
Qed.

(** Redirects are followed, one request each, as far as the requests go. *)
Lemma makeRequest_leads timeout url visited last :
  Leads timeout url visited last ->
  forall fuel,
    makeRequest (length visited + fuel) url timeout
    = (visited ++ fst (makeRequest fuel last timeout),
       snd (makeRequest fuel last timeout)).
Proof.
  induction 1 as [url|url next visited last Hred Hl IH]; intros fuel.
  - cbn. now destruct (makeRequest fuel url timeout).
  - cbn [length Nat.add app]. rewrite (makeRequest_redirect _ _ _ _ Hred), IH.
    reflexivity.
Qed.

Lemma makeRequest_short timeout url visited last :
  Leads timeout url visited last ->
  forall fuel, fuel < length visited ->
    makeRequest fuel url timeout = (take fuel visited, Pending).
Proof.
  induction 1 as [url|url next visited last Hred Hl IH]; intros fuel Hlt.
  - cbn in Hlt. lia.
  - destruct fuel as [|fuel].
    + destruct Hred as (sc & loc & (parsed & Hu & _) & _).
      now rewrite (makeRequest_no_fuel _ _ _ Hu).
    + rewrite (makeRequest_redirect _ _ _ _ Hred).
      destruct visited as [|v visited'].
      * cbn in Hlt. lia.
      * rewrite IH by (cbn in Hlt |- *; lia). reflexivity.
Qed.

(** With no request left the promise at the end of the redirects is
    pending, unless the last URL does not parse. *)
Lemma makeRequest_exact timeout url visited last parsed :
  Leads timeout url visited last -> newURL last = Some parsed ->
  makeRequest (length visited) url timeout = (visited, Pending).
Proof.
  intros Hl Hu. rewrite <- (Nat.add_0_r (length visited)).
  rewrite (makeRequest_leads _ _ _ _ Hl), (makeRequest_no_fuel _ _ _ Hu).
  cbn. now rewrite app_nil_r.
Qed.

(** Where a settled promise comes from: the redirects lead, within the
    requests given, to a URL that does not parse, that is answered, whose
    request fails, or whose redirecting request is interrupted. *)
Lemma makeRequest_settled timeout fuel :
  forall url p,
    snd (makeRequest fuel url timeout) = p -> p <> Pending ->
    exists visited last,
      Leads timeout url visited last
      /\ ((newURL last = None /\ p = Rejected invalidUrlError
           /\ length visited <= fuel)
          \/ (length visited < fuel
              /\ ((exists c, Answers timeout last c /\ p = Fulfilled c)
                  \/ (exists e, Fails timeout last e /\ p = Rejected e)
                  \/ (exists e, Interrupted timeout last e /\ p = Rejected e)))).
Proof.
  induction fuel as [|fuel IH]; intros url p Hrun Hp.
  - destruct (newURL url) as [parsed|] eqn:Hu.
    + rewrite (makeRequest_no_fuel _ _ _ Hu) in Hrun. cbn in Hrun. congruence.
    + rewrite (makeRequest_unparsed _ _ _ Hu) in Hrun. cbn in Hrun.
      exists [], url. split; [constructor|]. left. cbn. auto.
  - destruct (newURL url) as [parsed|] eqn:Hu.
    2:{ rewrite (makeRequest_unparsed _ _ _ Hu) in Hrun. cbn in Hrun.
        exists [], url. split; [constructor|]. left. cbn. split; [exact Hu|].
        split; [congruence|lia]. }
    pose proof (parsed_replies url timeout parsed Hu) as Hr.
    rewrite (makeRequest_step _ _ _ _ Hr) in Hrun.
    destruct (request (transportOf parsed) url timeout) as [sc loc late|e|] eqn:Hreq.
    + destruct (isRedirect sc && Js.truthy loc) eqn:E.
      * pose proof (proj1 (followed_spec sc loc) E) as Hf.
        destruct late as [|e|].
        -- destruct Hf as [Hred (l & -> & Hl)]. cbn [default from_option id] in Hrun.
           destruct (resolveLocation l url) as [next|] eqn:Hres.
           ++ destruct (makeRequest fuel next timeout) as [later q] eqn:Hq.
              cbn in Hrun. subst q.
              destruct (IH next p) as (visited & last & Hlead & Hend);
                [now rewrite Hq|exact Hp|].
              exists (url :: visited), last. split.
              ** econstructor; [|exact Hlead].
                 exists sc, l. split; [exact Hr|]. split; [|exact Hres].
                 split; [exact Hred|]. now exists l.
              ** cbn [length].
                 destruct Hend as [(H1 & H2 & H3)|[H1 H2]];
                   [left; repeat split; [assumption|assumption|lia]
                   |right; split; [lia|exact H2]].
           ++ cbn in Hrun. congruence.
        -- exists [], url. split; [constructor|]. right. split; [cbn; lia|].
           right. right. exists e. split.
           ++ exists sc, loc. split; [exact Hf|]. now left.
           ++ destruct (match resolveLocation _ url with Some _ => _ | None => _ end).
              cbn in Hrun. congruence.
        -- exists [], url. split; [constructor|]. right. split; [cbn; lia|].
           right. right. exists (timeoutError timeout). split.
           ++ exists sc, loc. split; [exact Hf|]. right. now split.
           ++ destruct (match resolveLocation _ url with Some _ => _ | None => _ end).
              cbn in Hrun. congruence.
      * cbn in Hrun. exists [], url. split; [constructor|]. right.
        split; [cbn; lia|]. left. exists (default 0%N sc). split; [|congruence].
        exists sc, loc, late. split; [exact Hr|]. split; [|reflexivity].
        now apply not_followed_spec.
    + cbn in Hrun. exists [], url. split; [constructor|]. right.
      split; [cbn; lia|]. right. left. exists e. split; [now left|congruence].
    + cbn in Hrun. exists [], url. split; [constructor|]. right.
      split; [cbn; lia|]. right. left. exists (timeoutError timeout).
      split; [right; now split|congruence].
Qed.

(** Once settled, the promise stays as it is when more requests are given. *)
Lemma makeRequest_stable timeout fuel :
  forall url p more,
    snd (makeRequest fuel url timeout) = p -> p <> Pending ->
    snd (makeRequest (fuel + more) url timeout) = p.
Proof.
  intros url p more Hrun Hp.
  destruct (makeRequest_settled _ _ _ _ Hrun Hp) as (visited & last & Hl & Hend).
  destruct Hend as [(Hu & -> & Hle)|[Hlt Hend]].
  - replace (fuel + more) with (length visited + (fuel + more - length visited)) by lia.
    rewrite (makeRequest_leads _ _ _ _ Hl), (makeRequest_unparsed _ _ _ Hu). reflexivity.
  - replace (fuel + more)
      with (length visited + S (fuel + more - S (length visited))) by lia.
    rewrite (makeRequest_leads _ _ _ _ Hl). cbn [snd].
    destruct Hend as [(c & Ha & ->)|[(e & Hf & ->)|(e & Hi & ->)]].
    + now rewrite (makeRequest_answered _ _ _ _ Ha).
    + now rewrite (makeRequest_failed _ _ _ _ Hf).
    + now apply makeRequest_interrupted.
Qed.

Lemma makeRequest_settles_once timeout fuel fuel' url p p' :
  snd (makeRequest fuel url timeout) = p -> p <> Pending ->
  snd (makeRequest fuel' url timeout) = p' -> p' <> Pending ->
  p = p'.
Proof.
  intros H Hp H' Hp'.
  pose proof (makeRequest_stable _ _ _ _ fuel' H Hp) as E.
  pose proof (makeRequest_stable _ _ _ _ fuel H' Hp') as E'.
  rewrite (Nat.add_comm fuel' fuel) in E'. congruence.
Qed.

(** The final status is reached by the run, and by no run another. *)
Lemma makeRequest_final timeout url c fuel :
  FinalStatus timeout url c ->
  snd (makeRequest fuel url timeout) = Pending
  \/ snd (makeRequest fuel url timeout) = Fulfilled c.
Proof.
  intros (visited & last & Hl & Ha).
  destruct (Nat.lt_ge_cases (length visited) fuel) as [Hlt|Hge].
  - right. replace fuel with (length visited + S (fuel - S (length visited))) by lia.
    now rewrite (makeRequest_leads _ _ _ _ Hl), (makeRequest_answered _ _ _ _ Ha).
  - left. destruct Ha as (sc & loc & late & (parsed & Hu & _) & _).
    destruct (Nat.eq_dec fuel (length visited)) as [->|Hne].
    + now rewrite (makeRequest_exact _ _ _ _ _ Hl Hu).
    + now rewrite (makeRequest_short _ _ _ _ Hl) by lia.
Qed.

Lemma makeRequest_fulfilled timeout fuel url c :
  snd (makeRequest fuel url timeout) = Fulfilled c -> FinalStatus timeout url c.
Proof.
  intros Hrun.
  destruct (makeRequest_settled _ _ _ _ Hrun ltac:(discriminate))
    as (visited & last & Hl & [(_ & H & _)|[_ [(c' & Ha & H)|[(e & _ & H)|(e & _ & H)]]]]);
    try discriminate H.
  injection H as <-. now exists visited, last.
Qed.

Lemma classify_cases url c :
  ((200 <= c < 300)%N /\ severity (classify url c) = SeveritySuccess)
  \/ ((c = 401 \/ c = 403)%N /\ severity (classify url c) = SeverityWarning)
  \/ (~ (200 <= c < 300)%N /\ c <> 401%N /\ c <> 403%N
      /\ severity (classify url c) = SeverityError).
Proof.
  unfold classify.
  destruct (N.leb_spec 200 c); destruct (N.ltb_spec c 300); cbn [andb];
    try (left; split; [lia|reflexivity]);
    (destruct (N.eqb_spec c 401); [right; left; split; [lia|reflexivity]|]);
    (destruct (N.eqb_spec c 403); [right; left; split; [lia|reflexivity]|]);
    right; right; cbn [orb]; destruct (N.eqb_spec c 404);
    (split; [lia|split; [assumption|split; [assumption|reflexivity]]]).
Qed.

Lemma checkUrl_unparsed fuel url timeout :
  newURL url = None ->
  checkUrl fuel url timeout
  = ([], Fulfilled (mkResult url false None (Some "Invalid URL format")
                      SeverityError "Invalid URL format")).
Proof. intros H. unfold Prober.checkUrl. now rewrite H. Qed.

Lemma checkUrl_unsupported fuel url timeout parsed :
  newURL url = Some parsed -> supported parsed = false ->
  checkUrl fuel url timeout
  = ([], Fulfilled (mkResult url false None (Some "Unsupported protocol")
                      SeverityError
                      ("Unsupported protocol: " +:+ protocol parsed
                       +:+ ". Only HTTP/HTTPS supported"))).
Proof. intros H1 H2. unfold Prober.checkUrl. now rewrite H1, H2. Qed.

Lemma checkUrl_requested fuel url timeout parsed :
  newURL url = Some parsed -> supported parsed = true ->
  checkUrl fuel url timeout
  = match makeRequest fuel url (default defaultTimeout timeout) with
    | (sent, Fulfilled statusCode) => (sent, Fulfilled (classify url statusCode))
    | (sent, Rejected e) =>
        (sent, Fulfilled (mkResult url false None (Some (errorMessage e))
                            SeverityError (categorizeError e)))
    | (sent, Pending) => (sent, Pending)
    end.
Proof. intros H1 H2. unfold Prober.checkUrl. now rewrite H1, H2. Qed.

Lemma checkUrl_never_rejects fuel url timeout e :
  snd (checkUrl fuel url timeout) <> Rejected e.
Proof.
  unfold Prober.checkUrl. destruct (newURL url) as [parsed|]; [|discriminate].
  destruct (supported parsed); cbn [negb]; [|discriminate].
  destruct (makeRequest _ _ _) as [sent [|c|e']]; discriminate.
Qed.

Lemma supported_spec parsed :
  supported parsed = false
  <-> protocol parsed <> "http:" /\ protocol parsed <> "https:".
Proof.
  unfold supported.
  destruct (String.eqb_spec (protocol parsed) "http:");
    destruct (String.eqb_spec (protocol parsed) "https:"); cbn; split;
    try discriminate; try tauto.
Qed.

Lemma checkUrl_checked fuel url timeout :
  Checked url ->
  checkUrl fuel url timeout
  = match makeRequest fuel url (default defaultTimeout timeout) with
    | (sent, Fulfilled statusCode) => (sent, Fulfilled (classify url statusCode))
    | (sent, Rejected e) =>
        (sent, Fulfilled (mkResult url false None (Some (errorMessage e))
                            SeverityError (categorizeError e)))
    | (sent, Pending) => (sent, Pending)
    end.
Proof. intros (parsed & Hu & Hs). now apply checkUrl_requested with parsed. Qed.

Lemma checkUrl_unchecked fuel url timeout :
  ~ Checked url ->
  exists res, snd (checkUrl fuel url timeout) = Fulfilled res
              /\ severity res = SeverityError.
Proof.
  intros Hn. destruct (newURL url) as [parsed|] eqn:Hu.
  - destruct (supported parsed) eqn:Hs.
    + exfalso. apply Hn. now exists parsed.
    + rewrite (checkUrl_unsupported _ _ _ _ Hu Hs). eexists. split; reflexivity.
  - rewrite (checkUrl_unparsed _ _ _ Hu). eexists. split; reflexivity.
Qed.

Lemma checkUrl_sent fuel url timeout :
  Checked url ->
  fst (checkUrl fuel url timeout)
  = fst (makeRequest fuel url (default defaultTimeout timeout)).
Proof.
  intros Hc. rewrite (checkUrl_checked _ _ _ Hc).
  now destruct (makeRequest fuel url (default defaultTimeout timeout)) as [sent [|c|e]].
Qed.


(** C9 (as amended).  Redirect following has no depth bound.  Redirects
    from a requested URL that lead to a response that is not followed are
    followed to it whatever their number, with one request for each URL
    on the way and one for the last, and with fewer requests the check is
    still pending.  [checkUrl] resolves in these cases and no other: the
    redirects lead to a URL that does not parse, that is answered by a
    response that is not followed, or whose request fails or times out;
    or they lead to a redirecting request that itself fails or times out
    afterwards, on a socket kept alive.  Hence, where connections are
    closed after each response, redirects that lead back to the URL keep
    the check pending for ever, every request given being spent, and so
    do redirects that lead to a [Location] that does not resolve; and a
    redirecting request that is interrupted resolves the check to an
    error wherever its redirect leads, also around a cycle.  Whatever a
    redirecting request emits afterwards, its redirect is followed: the
    requests go on from the target. *)
Theorem checkUrl_redirects_unbounded (url : string) (timeout : option N) :
  Checked url ->
  let t := default defaultTimeout timeout in
  (forall visited last c, Leads t url visited last -> Answers t last c ->
     (forall fuel, length visited < fuel ->
        checkUrl fuel url timeout = (visited ++ [last], Fulfilled (classify url c)))
     /\ (forall fuel, fuel <= length visited ->
           checkUrl fuel url timeout = (take fuel visited, Pending)))
  /\ ((exists fuel res, snd (checkUrl fuel url timeout) = Fulfilled res)
      <-> exists visited last,
            Leads t url visited last
            /\ (newURL last = None
                \/ (exists c, Answers t last c)
                \/ (exists e, Fails t last e)
                \/ (exists e, Interrupted t last e)))
  /\ (forall visited, Leads t url (url :: visited) url ->
        forall fuel,
          snd (checkUrl fuel url timeout) = Pending
          /\ length (fst (checkUrl fuel url timeout)) = fuel)
  /\ (forall visited last, Leads t url visited last -> Stuck t last ->
        forall fuel,
          snd (checkUrl fuel url timeout) = Pending
          /\ (length visited < fuel ->
              fst (checkUrl fuel url timeout) = visited ++ [last]))
  /\ (forall visited last e, Leads t url visited last -> Interrupted t last e ->
        forall fuel, length visited < fuel ->
          exists res,
            snd (checkUrl fuel url timeout) = Fulfilled res
            /\ severity res = SeverityError
            /\ error res = Some (errorMessage e))
  /\ (forall visited last statusCode location aftermath next,
        Leads t url visited last ->
        Replies t last (Response statusCode (Some location) aftermath) ->
        followed statusCode (Some location) ->
        resolveLocation location last = Some next ->
        forall fuel,
          fst (checkUrl (length visited + S fuel) url timeout)
          = visited ++ last :: fst (makeRequest fuel next t)).
Proof.
  intros Hc. cbn zeta. split; [|split; [|split; [|split; [|split]]]].
  - intros visited last c Hl Ha. split.
    + intros fuel Hlt. rewrite (checkUrl_checked _ _ _ Hc).
      replace fuel with (length visited + S (fuel - S (length visited))) by lia.
      now rewrite (makeRequest_leads _ _ _ _ Hl), (makeRequest_answered _ _ _ _ Ha).
    + intros fuel Hle. rewrite (checkUrl_checked _ _ _ Hc).
      destruct (Nat.eq_dec fuel (length visited)) as [->|Hne].
      * destruct Ha as (sc & loc & late & (parsed & Hu & _) & _).
        rewrite (makeRequest_exact _ _ _ _ _ Hl Hu). now rewrite firstn_all.
      * now rewrite (makeRequest_short _ _ _ _ Hl) by lia.
  - split.
    + intros (fuel & res & Hres). rewrite (checkUrl_checked _ _ _ Hc) in Hres.
      destruct (makeRequest fuel url (default defaultTimeout timeout))
        as [sent p] eqn:Hrun.
      destruct (makeRequest_settled (default defaultTimeout timeout) fuel url p)
        as (visited & last & Hl & Hend).
      { now rewrite Hrun. }
      { destruct p; [discriminate Hres|discriminate|discriminate]. }
      exists visited, last. split; [exact Hl|].
      destruct Hend as [(Hu & _)|[_ [(c & Ha & _)|[(e & Hf & _)|(e & Hi & _)]]]].
      * now left.
      * right. left. now exists c.
      * right. right. left. now exists e.
      * right. right. right. now exists e.
    + intros (visited & last & Hl & Hend). exists (S (length visited)).
      rewrite (checkUrl_checked _ _ _ Hc).
      replace (S (length visited)) with (length visited + 1) by lia.
      rewrite (makeRequest_leads _ _ _ _ Hl).
      destruct Hend as [Hu|[(c & Ha)|[(e & Hf)|(e & Hi)]]].
      * rewrite (makeRequest_unparsed _ _ _ Hu). eexists. reflexivity.
      * rewrite (makeRequest_answered _ _ _ _ Ha). eexists. reflexivity.
      * rewrite (makeRequest_failed _ _ _ _ Hf). eexists. reflexivity.
      * pose proof (makeRequest_interrupted 0 _ _ _ Hi) as E.
        destruct (makeRequest 1 last _) as [later q]. cbn in E. subst q.
        eexists. reflexivity.
  - intros visited Hl fuel. rewrite (checkUrl_checked _ _ _ Hc).
    assert (H : snd (makeRequest fuel url (default defaultTimeout timeout)) = Pending
                /\ length (fst (makeRequest fuel url (default defaultTimeout timeout)))
                   = fuel).
    { induction fuel as [fuel IH] using lt_wf_ind.
      destruct (Nat.lt_ge_cases fuel (length (url :: visited))) as [Hlt|Hge].
      - rewrite (makeRequest_short _ _ _ _ Hl) by exact Hlt. cbn [fst snd].
        split; [reflexivity|]. rewrite length_take. lia.
      - replace fuel with (length (url :: visited) + (fuel - length (url :: visited)))
          at 1 2 by lia.
        rewrite (makeRequest_leads _ _ _ _ Hl). cbn [fst snd].
        destruct (IH (fuel - length (url :: visited))) as [Hp Hlen].
        { cbn [length] in Hge |- *. lia. }
        split; [exact Hp|]. rewrite length_app, Hlen. lia. }
    destruct (makeRequest fuel url (default defaultTimeout timeout)) as [sent p].
    cbn in H. destruct H as [-> H]. cbn. split; [reflexivity|exact H].
  - intros visited last Hl Hs fuel. rewrite (checkUrl_checked _ _ _ Hc).
    destruct (Nat.lt_ge_cases (length visited) fuel) as [Hlt|Hge].
    + replace fuel with (length visited + S (fuel - S (length visited))) by lia.
      rewrite (makeRequest_leads _ _ _ _ Hl), (makeRequest_stuck _ _ _ Hs).
      cbn. split; reflexivity.
    + split; [|lia].
      destruct (Nat.eq_dec fuel (length visited)) as [->|Hne].
      * destruct Hs as (sc & loc & (parsed & Hu & _) & _).
        now rewrite (makeRequest_exact _ _ _ _ _ Hl Hu).
      * now rewrite (makeRequest_short _ _ _ _ Hl) by lia.
  - intros visited last e Hl Hi fuel Hlt. rewrite (checkUrl_checked _ _ _ Hc).
    replace fuel with (length visited + S (fuel - S (length visited))) by lia.
    rewrite (makeRequest_leads _ _ _ _ Hl).
    pose proof (makeRequest_interrupted (fuel - S (length visited)) _ _ _ Hi) as E.
    destruct (makeRequest (S _) last _) as [later q]. cbn in E. subst q.
    cbn. eexists. split; [reflexivity|]. split; reflexivity.
  - intros visited last sc loc late next Hl Hr Hf Hres fuel.
    rewrite (checkUrl_sent _ _ _ Hc), (makeRequest_leads _ _ _ _ Hl). cbn [fst].
    f_equal. rewrite (makeRequest_step _ _ _ _ Hr).
    apply followed_spec in Hf. rewrite Hf. cbn [default from_option id].
    rewrite Hres.
    destruct (makeRequest fuel next (default defaultTimeout timeout)) as [later p].
    now destruct late.
Qed.

Lemma checkUrl_settled_Fulfilled fuel url timeout :
  snd (checkUrl fuel url timeout) <> Pending ->
  exists res, snd (checkUrl fuel url timeout) = Fulfilled res.
Proof.
  intros H. destruct (snd (checkUrl fuel url timeout)) as [|res|e] eqn:E.
  - now contradiction H.
  - now exists res.
  - exfalso. eapply checkUrl_never_rejects. exact E.
Qed.

(** C8 (as amended).  When every URL's check resolves, [checkUrls] resolves
    to one result per URL, in the order of the input, the i-th result being
    that of [checkUrl] on the i-th URL alone (for the empty list, to the
    empty list); when some URL's check stays pending, so does [checkUrls];
    and whenever [checkUrls] resolves, its results are the results of the
    single checks, in order. *)
Theorem checkUrls_in_order (fuel : nat) (urls : list string) (timeout : option N) :
  ((forall url, url ∈ urls -> snd (checkUrl fuel url timeout) <> Pending) ->
     exists results,
       checkUrls fuel urls timeout = Fulfilled results
       /\ length results = length urls
       /\ forall i url, urls !! i = Some url ->
            exists res, results !! i = Some res
                        /\ snd (checkUrl fuel url timeout) = Fulfilled res)
  /\ ((exists url, url ∈ urls /\ snd (checkUrl fuel url timeout) = Pending) ->
      checkUrls fuel urls timeout = Pending)
  /\ Prober.checkUrls newURL resolveLocation request fuel [] timeout = Fulfilled []
  /\ (forall results,
        checkUrls fuel urls timeout = Fulfilled results
        <-> map (fun url => snd (checkUrl fuel url timeout)) urls = map Fulfilled results).
Proof.
  split; [|split; [|split; [reflexivity|intros results; apply all_Fulfilled]]].
  - intros Hall. unfold Prober.checkUrls.
    induction urls as [|u rest IH].
    + exists []. split; [reflexivity|]. split; [reflexivity|].
      intros i url Hi. discriminate Hi.
    + destruct IH as (results & Hr & Hlen & Hnth).
      { intros url Hin. apply Hall. now apply list_elem_of_further. }
      destruct (checkUrl_settled_Fulfilled fuel u timeout) as [res Hres].
      { apply Hall. apply list_elem_of_here. }
      exists (res :: results). cbn [map all]. rewrite Hres, Hr.
      split; [reflexivity|]. split; [cbn; now rewrite Hlen|].
      intros [|i] url Hi; cbn in Hi.
      * injection Hi as <-. exists res. split; [reflexivity|exact Hres].
      * apply Hnth, Hi.
  - intros (url & Hin & Hp). unfold Prober.checkUrls. apply all_Pending.
    + intros p Hp' e ->. apply list_elem_of_fmap in Hp' as (u & Hu & _).
      symmetry in Hu. eapply checkUrl_never_rejects. exact Hu.
    + rewrite <- Hp. apply list_elem_of_fmap. now exists url.
Qed.

End WithNetwork.

(** ** The sample network: [/hub] answers 200, [/loop] redirects to itself *)

Abbreviation sampleCheckUrl :=
  (Prober.checkUrl Samples.newURL Samples.resolveLocation Samples.request).
Abbreviation sampleCheckUrls :=
  (Prober.checkUrls Samples.newURL Samples.resolveLocation Samples.request).

Example checkUrl_hub :
  sampleCheckUrl 1 "https://example.com/hub" None
  = (["https://example.com/hub"],
     Fulfilled (mkResult "https://example.com/hub" true (Some 200%N) None
                  SeveritySuccess "Accessible")).
Proof. vm_compute. reflexivity. Qed.

Example checkUrl_unsupported_scheme :
  sampleCheckUrl 0 "ftp://example.com/file" None
  = ([], Fulfilled (mkResult "ftp://example.com/file" false None
                      (Some "Unsupported protocol") SeverityError
                      "Unsupported protocol: ftp:. Only HTTP/HTTPS supported")).
Proof. vm_compute. reflexivity. Qed.

Example checkUrl_invalid :
  sampleCheckUrl 0 "not-a-valid-url" None
  = ([], Fulfilled (mkResult "not-a-valid-url" false None
                      (Some "Invalid URL format") SeverityError "Invalid URL format")).
Proof. vm_compute. reflexivity. Qed.

Lemma loop_redirects timeout :
  Prober.Redirects Samples.newURL Samples.resolveLocation Samples.request timeout
    "https://example.com/loop" "https://example.com/loop".
Proof.
  exists (Some 302%N), "/loop". split; [|split].
  - exists (mkURL "https:" "example.com" "/loop"). split; reflexivity.
  - split; [reflexivity|]. eexists; split; [reflexivity|discriminate].
  - reflexivity.
Qed.

Lemma loop_requests fuel timeout :
  Prober.makeRequest Samples.newURL Samples.resolveLocation Samples.request
    fuel "https://example.com/loop" timeout
  = (repeat "https://example.com/loop" fuel, Pending).
Proof.
  induction fuel as [|fuel IH]; [reflexivity|].
  rewrite (makeRequest_redirect _ _ _ _ _ _ _ (loop_redirects timeout)).
  now rewrite IH.
Qed.

Lemma loop_pending fuel timeout :
  sampleCheckUrl fuel "https://example.com/loop" timeout
  = (repeat "https://example.com/loop" fuel, Pending).
Proof.
  unfold Prober.checkUrl.
  change (Samples.newURL "https://example.com/loop")
    with (Some (mkURL "https:" "example.com" "/loop")).
  change (negb (supported (mkURL "https:" "example.com" "/loop"))) with false.
  cbv iota. now rewrite loop_requests.
Qed.

(** When the redirecting request itself times out the check resolves, to
    an error. *)
Example checkUrl_cycle_kept_alive :
  Prober.checkUrl Samples.newURL Samples.resolveLocation Samples.requestKeptAlive
    1 "https://example.com/loop" (Some 5000%N)
  = (["https://example.com/loop"],
     Fulfilled (mkResult "https://example.com/loop" false None
                  (Some "Request timeout after 5000ms") SeverityError
                  "Connection timeout - Unreachable")).
Proof. vm_compute. reflexivity. Qed.

(** The redirect is followed all the same, and so is every later one:
    all the requests that are given are spent, whatever their number. *)
Lemma kept_alive_cycle_goes_on (fuel : nat) :
  Prober.checkUrl Samples.newURL Samples.resolveLocation Samples.requestKeptAlive
    (S fuel) "https://example.com/loop" (Some 5000%N)
  = (repeat "https://example.com/loop" (S fuel),
     Fulfilled (mkResult "https://example.com/loop" false None
                  (Some "Request timeout after 5000ms") SeverityError
                  "Connection timeout - Unreachable")).
Proof.
  assert (H : Prober.makeRequest Samples.newURL Samples.resolveLocation
                Samples.requestKeptAlive (S fuel) "https://example.com/loop" 5000
              = (repeat "https://example.com/loop" (S fuel),
                 Rejected (timeoutError 5000))).
  { induction fuel as [|fuel IH]; [reflexivity|].
    rewrite (makeRequest_step Samples.newURL Samples.resolveLocation
               Samples.requestKeptAlive (S fuel) "https://example.com/loop" 5000
               (Response (Some 302%N) (Some "/loop") LaterIdle)).
    - change (isRedirect (Some 302%N) && Js.truthy (Some "/loop")) with true.
      cbv iota.
      change (Samples.resolveLocation (default "" (Some "/loop"))
                "https://example.com/loop")
        with (Some "https://example.com/loop").
      cbv iota. now rewrite IH.
    - exists (mkURL "https:" "example.com" "/loop"). split; reflexivity. }
  unfold Prober.checkUrl.
  change (Samples.newURL "https://example.com/loop")
    with (Some (mkURL "https:" "example.com" "/loop")).
  change (negb (supported (mkURL "https:" "example.com" "/loop"))) with false.
  cbv iota. cbn [default from_option id]. rewrite H. reflexivity.
Qed.


(** C9, the claim as stated, fails: nothing bounds redirect following; on
    the cyclic chain every request granted is spent and the promise stays
    pending. *)
Lemma checkUrl_cyclic_never_settles :
  NeverSettles (fun fuel => snd (sampleCheckUrl fuel "https://example.com/loop" None))
  /\ length (fst (sampleCheckUrl 1000 "https://example.com/loop" None)) = 1000.
Proof.
  split.
  - intros fuel. now rewrite loop_pending.
  - rewrite loop_pending. apply repeat_length.
Qed.

(** C8, the claim as stated, fails: the check of [/hub] alone resolves to
    success, yet together with the cyclic URL [checkUrls] returns nothing. *)
Lemma checkUrls_blocked_by_cycle :
  snd (sampleCheckUrl 1 "https://example.com/hub" None)
  = Fulfilled (mkResult "https://example.com/hub" true (Some 200%N) None
                 SeveritySuccess "Accessible")
  /\ NeverSettles (fun fuel =>
       sampleCheckUrls fuel ["https://example.com/hub"; "https://example.com/loop"] None).
Proof.
  split; [vm_compute; reflexivity|].
  intros fuel. unfold Prober.checkUrls. cbn [map all].
  rewrite loop_pending. cbn [snd].
  destruct (snd (sampleCheckUrl fuel "https://example.com/hub" None)) eqn:E;
    try reflexivity.
  exfalso. eapply checkUrl_never_rejects. exact E.
Qed.

(** ** Chains of any length are followed

    In the network of [Samples.chainRequest] the URL with a path of [k]
    characters is [k] redirects away from a 200. *)

Abbreviation chainCheckUrl :=
  (Prober.checkUrl Samples.chainURL Samples.chainResolve Samples.chainRequest).

Lemma chain_length (k : nat) : length (Samples.chainVisited k) = k.
Proof. induction k as [|k IH]; [reflexivity|]. cbn [Samples.chainVisited length]. now rewrite IH. Qed.

Lemma chain_leads (k : nat) (timeout : N) :
  Prober.Leads Samples.chainURL Samples.chainResolve Samples.chainRequest timeout
    (Samples.chainBase +:+ Samples.chainPath k) (Samples.chainVisited k)
    Samples.chainBase.
Proof.
  induction k as [|k IH]; [constructor|].
  cbn [Samples.chainVisited]. econstructor; [|exact IH].
  exists (Some 302%N), (Samples.chainBase +:+ Samples.chainPath k). split; [|split].
  - exists (mkURL "https:" "example.com"
              (String "/"%char (String "a"%char (Samples.chainPath k)))).
    split; reflexivity.
  - split; [reflexivity|]. eexists. split; [reflexivity|discriminate].
  - reflexivity.
Qed.

Lemma chain_answers (timeout : N) :
  Prober.Answers Samples.chainURL Samples.chainRequest timeout Samples.chainBase 200.
Proof.
  exists (Some 200%N), None, Quiet. split; [|split; [|reflexivity]].
  - exists (mkURL "https:" "example.com" "/"). split; reflexivity.
  - intros [_ (l & H & _)]. discriminate H.
Qed.

Lemma chain_checked (k : nat) :
  Prober.Checked Samples.chainURL (Samples.chainBase +:+ Samples.chainPath k).
Proof.
  exists (mkURL "https:" "example.com" (String "/"%char (Samples.chainPath k))).
  split; reflexivity.
Qed.

(** X3.  A chain of [k] redirects is followed with [k + 1] requests, for
    every [k], and with fewer requests the check is still pending. *)
Lemma checkUrl_follows_chains_of_any_length (k : nat) :
  snd (chainCheckUrl (S k) (Samples.chainBase +:+ Samples.chainPath k) None)
  = Fulfilled (classify (Samples.chainBase +:+ Samples.chainPath k) 200)
  /\ length (fst (chainCheckUrl (S k) (Samples.chainBase +:+ Samples.chainPath k) None))
     = S k
  /\ snd (chainCheckUrl k (Samples.chainBase +:+ Samples.chainPath k) None) = Pending.
Proof.
  pose proof (chain_leads k defaultTimeout) as Hl.
  pose proof (chain_answers defaultTimeout) as Ha.
  rewrite !(checkUrl_checked _ _ _ _ _ _ (chain_checked k)).
  cbn [default from_option id].
  assert (E : Prober.makeRequest Samples.chainURL Samples.chainResolve
                Samples.chainRequest (S k)
                (Samples.chainBase +:+ Samples.chainPath k) defaultTimeout
              = (Samples.chainVisited k ++ [Samples.chainBase], Fulfilled 200%N)).
  { replace (S k) with (length (Samples.chainVisited k) + 1)
      by (rewrite chain_length; lia).
    rewrite (makeRequest_leads _ _ _ _ _ _ _ Hl).
    now rewrite (makeRequest_answered _ _ _ 0 _ _ _ Ha). }
  assert (E' : Prober.makeRequest Samples.chainURL Samples.chainResolve
                 Samples.chainRequest k
                 (Samples.chainBase +:+ Samples.chainPath k) defaultTimeout
               = (Samples.chainVisited k, Pending)).
  { rewrite <- (chain_length k) at 1.
    apply (makeRequest_exact _ _ _ _ _ _ _ (mkURL "https:" "example.com" "/") Hl).
    reflexivity. }
  rewrite E, E'. cbn [fst snd]. split; [reflexivity|]. split; [|reflexivity].
  rewrite length_app, chain_length. cbn. lia.
Qed.


(** The same chain is followed with three requests, one for each URL. *)
Lemma checkUrl_redirects_unbounded_witness :
  chainCheckUrl 3 "https://example.com/aa" None
  = (["https://example.com/aa"; "https://example.com/a"; "https://example.com/"],
     Fulfilled (classify "https://example.com/aa" 200)).
Proof.
  exact (proj1 (proj1 (checkUrl_redirects_unbounded Samples.chainURL
                         Samples.chainResolve Samples.chainRequest
                         "https://example.com/aa" None (chain_checked 2))
                  _ _ 200%N (chain_leads 2 defaultTimeout)
                  (chain_answers defaultTimeout))
           3 (Nat.lt_succ_diag_r 2)).
Defined.

(** A list all of whose checks resolve: a reachable URL, an unsupported
    scheme and a string that is no URL. *)
Lemma checkUrls_in_order_witness :
  exists results,
    sampleCheckUrls 1 ["https://example.com/hub"; "ftp://example.com/file"; "not-a-valid-url"]
      None = Fulfilled results
    /\ length results = 3.
Proof.
  destruct (proj1 (checkUrls_in_order Samples.newURL Samples.resolveLocation
                     Samples.request 1
                     ["https://example.com/hub"; "ftp://example.com/file"; "not-a-valid-url"]
                     None)) as (results & Hr & Hlen & _).
  - intros url Hin. apply list_elem_of_In in Hin. cbn in Hin.
    destruct Hin as [<-|[<-|[<-|[]]]]; vm_compute; discriminate.
  - exists results. split; [exact Hr|exact Hlen].
Defined.

End ProberFacts.

(* ===================================================================== *)
(** * The OLAF competencies adapter                                       *)
(* ===================================================================== *)

Module OlafFacts.
Import Olaf.

Lemma truthy_Has key manifest :
  truthy (optionalMember key manifest) = true <-> Has key manifest.
Proof.
  unfold Has. destruct (optionalMember key manifest) as [v|].
  - split; [intros H; now exists v|]. intros (v' & [= <-] & H). exact H.
  - split; [discriminate|]. intros (v' & H & _). discriminate H.
Qed.

Section WithPlatform.

Variable newURL : string -> option URL.
Variable encodeURIComponent : string -> string.
Variable jsonParse : string -> option Json.
Variable toStr : Json -> string.
Variable httpsGet : string -> Headers -> HttpReply.

Abbreviation fetchJson := (Olaf.fetchJson jsonParse httpsGet).
Abbreviation visitDir := (Olaf.visitDir encodeURIComponent jsonParse httpsGet).
Abbreviation manifestUrlOf := (Olaf.manifestUrlOf encodeURIComponent).
Abbreviation Gathered := (Olaf.Gathered encodeURIComponent jsonParse httpsGet).
Abbreviation fetchFresh :=
  (Olaf.fetchFresh newURL encodeURIComponent jsonParse toStr httpsGet).
Abbreviation fetchBundles :=
  (Olaf.fetchBundles newURL encodeURIComponent jsonParse toStr httpsGet).

(** What [fetchJson] comes to, in the words of the specification. *)
Lemma fetchJson_outcome (a : Adapter) (manifestUrl : string) :
  match fetchJson manifestUrl (getHeaders a) with
  | Returned manifest => Parses jsonParse httpsGet a manifestUrl manifest
  | Threw _ => FailsToFetch httpsGet a manifestUrl
               \/ FailsToParse jsonParse httpsGet a manifestUrl
  end.
Proof.
  unfold Olaf.fetchJson, Parses, FailsToParse, FailsToFetch, Answered.
  destruct (httpsGet manifestUrl (getHeaders a)) as [statusCode body|e] eqn:Hget.
  - destruct (N.leb_spec 200 (default 0%N statusCode));
      destruct (N.ltb_spec (default 0%N statusCode) 300); cbn [andb].
    + destruct (jsonParse body) as [manifest|] eqn:Hparse.
      * exists body. split; [|exact Hparse]. exists statusCode. split; [reflexivity|lia].
      * right. exists body. split; [|exact Hparse]. exists statusCode.
        split; [reflexivity|lia].
    + left. right. exists statusCode, body. split; [reflexivity|lia].
    + left. right. exists statusCode, body. split; [reflexivity|lia].
    + left. right. exists statusCode, body. split; [reflexivity|lia].
  - left. left. now exists e.
Qed.

(** One iteration of the loop adds one bundle for a well-formed manifest
    and one warning for any other. *)
Lemma visitDir_outcome (a : Adapter) (clk : Clock) (owner repo dir : string) (st : Gather) :
  (exists manifest b,
      WellFormed jsonParse httpsGet a (manifestUrlOf a owner repo dir) manifest
      /\ Describes a (manifestUrlOf a owner repo dir) manifest b
      /\ visitDir a clk owner repo dir st = mkGather (bundles st ++ [b]) (logger st))
  \/ (exists w,
      (FailsToFetch httpsGet a (manifestUrlOf a owner repo dir)
       \/ FailsToParse jsonParse httpsGet a (manifestUrlOf a owner repo dir)
       \/ Lacks jsonParse httpsGet a (manifestUrlOf a owner repo dir))
      /\ level w = Warn
      /\ visitDir a clk owner repo dir st = mkGather (bundles st) (logger st ++ [w])).
Proof.
  unfold Olaf.visitDir. fold (manifestUrlOf a owner repo dir).
  pose proof (fetchJson_outcome a (manifestUrlOf a owner repo dir)) as Hout.
  destruct (fetchJson (manifestUrlOf a owner repo dir) (getHeaders a)) as [manifest|err].
  - destruct (truthy (optionalMember "id" manifest)) eqn:Hid;
      [destruct (truthy (optionalMember "name" manifest)) eqn:Hname;
       [destruct (truthy (optionalMember "version" manifest)) eqn:Hver|]|]; cbn [negb orb].
    + left. apply truthy_Has in Hid as Hid', Hname as Hname', Hver as Hver'.
      destruct Hid' as (vi & Ei & _), Hname' as (vn & En & _), Hver' as (vv & Ev & _).
      eexists manifest, _. split; [|split; [|reflexivity]].
      * split; [exact Hout|]. repeat split; apply truthy_Has; assumption.
      * unfold Describes. cbn. rewrite Ei, En, Ev. repeat split.
    + right. eexists. split; [|split; [|reflexivity]]; [|reflexivity].
      right. right. exists manifest. split; [exact Hout|]. right. right.
      rewrite <- truthy_Has, Hver. discriminate.
    + right. eexists. split; [|split; [|reflexivity]]; [|reflexivity].
      right. right. exists manifest. split; [exact Hout|]. right. left.
      rewrite <- truthy_Has, Hname. discriminate.
    + right. eexists. split; [|split; [|reflexivity]]; [|reflexivity].
      right. right. exists manifest. split; [exact Hout|]. left.
      rewrite <- truthy_Has, Hid. discriminate.
  - right. eexists. split; [|split; [|reflexivity]]; [|reflexivity].
    destruct Hout as [H|H]; [now left|right; now left].
Qed.

Lemma gather_all (a : Adapter) (clk : Clock) (owner repo : string) (dirs : list string) :
  forall st,
  exists bs ws,
    fold_left (fun st dir => visitDir a clk owner repo dir st) dirs st
    = mkGather (bundles st ++ bs) (logger st ++ ws)
    /\ Gathered a owner repo dirs bs ws
    /\ length bs + length ws = length dirs.
Proof.
  induction dirs as [|dir dirs IH]; intros st.
  - exists [], []. cbn. rewrite !app_nil_r. destruct st.
    split; [reflexivity|]. split; [constructor|reflexivity].
  - cbn [fold_left].
    destruct (visitDir_outcome a clk owner repo dir st)
      as [(manifest & b & Hw & Hd & ->)|(w & Hs & Hl & ->)].
    + destruct (IH (mkGather (bundles st ++ [b]) (logger st))) as (bs & ws & -> & Hg & Hlen).
      exists (b :: bs), ws. cbn [bundles logger]. rewrite <- app_assoc.
      split; [reflexivity|]. split; [|cbn; lia].
      eapply gathered_bundle; eassumption.
    + destruct (IH (mkGather (bundles st) (logger st ++ [w]))) as (bs & ws & -> & Hg & Hlen).
      exists bs, (w :: ws). cbn [bundles logger]. rewrite <- app_assoc.
      split; [reflexivity|]. split; [|cbn; lia].
      eapply gathered_warning; eassumption.
Qed.

(** C7.  Once the repository tree has been listed and its manifest
    directories located, [fetchBundles] goes through all of them: every
    manifest that fails to fetch, fails to parse as JSON, or lacks an id, a
    name or a version is skipped with one warning, every well-formed
    manifest gives one bundle, in the order of the directories; the call
    returns that list (and caches it), not the placeholder, and logs no
    error, however many manifests are malformed. *)
Theorem fetchBundles_skips_malformed
    (a : Adapter) (clk : Clock) (log : list LogEntry)
    (owner repo : string) (tree : Json) (located : list string) :
  Stale a clk ->
  parseGitHubUrl newURL (url (source a)) = Returned (owner, repo) ->
  fetchGitTree encodeURIComponent jsonParse toStr httpsGet a owner repo (branch (config a))
    = Returned tree ->
  locate a tree = Returned located ->
  exists bs ws,
    fetchBundles a clk log
    = (bs, mkAdapter (source a) (config a) (authToken a) (Some (now clk, bs)), log ++ ws)
    /\ Gathered a owner repo located bs ws
    /\ length bs + length ws = length located
    /\ Forall (fun w => level w = Warn) ws.
Proof.
  intros Hstale Hparse Htree Hloc.
  destruct (gather_all a clk owner repo located (mkGather [] log))
    as (bs & ws & Hfold & Hg & Hlen).
  exists bs, ws.
  assert (Hfresh : fetchFresh a clk log
            = Returned (bs, mkAdapter (source a) (config a) (authToken a)
                              (Some (now clk, bs)), log ++ ws)).
  { unfold Olaf.fetchFresh. rewrite Hparse, Htree, Hloc. cbn zeta.
    rewrite Hfold. reflexivity. }
  split; [|split; [exact Hg|split; [exact Hlen|]]].
  - unfold Olaf.fetchBundles. cbn zeta. rewrite Hfresh.
    unfold Stale in Hstale. destruct (cache a) as [[timestamp cached]|]; [|reflexivity].
    destruct (Z.ltb_spec (now clk - timestamp) CACHE_TTL); [lia|reflexivity].
  - clear -Hg. induction Hg; [constructor|assumption|constructor; assumption].
Qed.

(** C10.  [downloadBundle] returns the empty buffer for every adapter,
    whatever bundle is asked for, so the installer reached through
    [downloadBundle] then [installFromBuffer] is handed no bytes. *)
Theorem downloadBundle_empty (a : Adapter) :
  downloadBundle a = Returned []
  /\ (forall (R : Type) (installFromBuffer : Bundle -> list Byte.byte -> R) (bundle : Bundle),
        installThrough (fun _ => downloadBundle a) installFromBuffer bundle
        = Returned (installFromBuffer bundle [])).
Proof. split; reflexivity. Qed.

End WithPlatform.

(** ** The sample repository *)

Abbreviation sampleFetchBundles :=
  (Olaf.fetchBundles Samples.olafURL Samples.encodeURIComponent Samples.jsonParse
     Samples.toStr Samples.httpsGet).

Example fetchBundles_sample :
  let '(bs, a, log) := sampleFetchBundles Samples.olafAdapter Samples.olafClock [] in
  map bundleId bs = [JString "review"]
  /\ map text log
     = ["Failed parsing manifest for olaf-core/competencies/dev/broken:";
        "Failed parsing manifest for olaf-core/competencies/pm/plan:";
        "Skipping invalid competency at olaf-core/competencies/dev/noversion"]
  /\ map level log = [Warn; Warn; Warn]
  /\ cache a = Some (now Samples.olafClock, bs).
Proof. vm_compute. repeat split. Qed.

(** A second call within the five minutes answers from the cache. *)
Example fetchBundles_cached :
  let '(bs, a, log) := sampleFetchBundles Samples.olafAdapter Samples.olafClock [] in
  sampleFetchBundles a (mkClock (now Samples.olafClock + 1000) "2026-01-01T00:00:01.000Z") log
  = (bs, a, log).
Proof. vm_compute. reflexivity. Qed.

(** The hypotheses of [fetchBundles_skips_malformed] hold of the sample:
    four manifests are located, one is well formed, three are skipped. *)
Lemma fetchBundles_skips_malformed_witness :
  exists bs ws,
    sampleFetchBundles Samples.olafAdapter Samples.olafClock []
    = (bs, mkAdapter (source Samples.olafAdapter) (config Samples.olafAdapter)
             (authToken Samples.olafAdapter) (Some (now Samples.olafClock, bs)), [] ++ ws)
    /\ Olaf.Gathered Samples.encodeURIComponent Samples.jsonParse Samples.httpsGet
         Samples.olafAdapter "acme" "olaf"
         ["olaf-core/competencies/dev/review"; "olaf-core/competencies/dev/broken";
          "olaf-core/competencies/pm/plan"; "olaf-core/competencies/dev/noversion"]
         bs ws
    /\ length bs + length ws = 4
    /\ Forall (fun w => level w = Warn) ws.
Proof.
  apply (fetchBundles_skips_malformed Samples.olafURL Samples.encodeURIComponent
           Samples.jsonParse Samples.toStr Samples.httpsGet
           Samples.olafAdapter Samples.olafClock [] "acme" "olaf" Samples.treeValue).
  - exact I.
  - vm_compute. reflexivity.
  - vm_compute. reflexivity.
  - vm_compute. reflexivity.
Defined.

End OlafFacts.

(* ===================================================================== *)
(** * Further properties of the code                                      *)
(* ===================================================================== *)

(** ** More on strings *)

Module StringFacts.
Import Js.

Lemma length_append (a b : string) :
  String.length (a +:+ b) = String.length a + String.length b.
Proof.
  induction a as [|c a IH]; [reflexivity|].
  rewrite JsFacts.append_cons. cbn. now rewrite IH.
Qed.

Lemma allChars_append f (a b : string) :
  allChars f (a +:+ b) = allChars f a && allChars f b.
Proof.
  induction a as [|c a IH]; [reflexivity|]. rewrite JsFacts.append_cons. cbn.
  rewrite IH. now rewrite andb_assoc.
Qed.

Lemma allChars_impl (f g : ascii -> bool) s :
  (forall c, f c = true -> g c = true) -> allChars f s = true -> allChars g s = true.
Proof.
  intros Hfg. induction s as [|c r IH]; [reflexivity|]. cbn. intros H.
  apply andb_true_iff in H as [Hc Hr]. now rewrite (Hfg _ Hc), IH.
Qed.

(** Two splittings of one string at the same distance from its end, or
    from its start, are the same splitting. *)
Lemma append_inj_length (a b c d : string) :
  a +:+ b = c +:+ d -> String.length b = String.length d -> a = c /\ b = d.
Proof.
  revert c. induction a as [|x a IH]; intros c H L.
  - destruct c as [|y c]; [now split|]. exfalso.
    change ("" +:+ b) with b in H. subst b. rewrite length_append in L. cbn in L. lia.
  - destruct c as [|y c].
    + exfalso. change ("" +:+ d) with d in H. subst d.
      rewrite length_append in L. cbn in L. lia.
    + rewrite !JsFacts.append_cons in H. injection H as -> H.
      destruct (IH _ H L) as [-> ->]. now split.
Qed.

Lemma append_inj_length_l (a b c d : string) :
  a +:+ b = c +:+ d -> String.length a = String.length c -> a = c /\ b = d.
Proof.
  revert c. induction a as [|x a IH]; intros c H L.
  - destruct c; [now split|discriminate L].
  - destruct c as [|y c]; [discriminate L|].
    rewrite !JsFacts.append_cons in H. injection H as -> H. injection L as L.
    destruct (IH _ H L) as [-> ->]. now split.
Qed.

Lemma substring0_length n s :
  String.length (substring0 n s) = Nat.min n (String.length s).
Proof.
  unfold substring0. revert s. induction n as [|n IH]; intros s.
  - destruct s; reflexivity.
  - destruct s as [|c s]; [reflexivity|]. cbn. now rewrite IH.
Qed.

Lemma substring0_allChars f n s :
  allChars f s = true -> allChars f (substring0 n s) = true.
Proof.
  unfold substring0. revert s. induction n as [|n IH]; intros s H.
  - destruct s; reflexivity.
  - destruct s as [|c s]; [reflexivity|]. cbn in *.
    apply andb_true_iff in H as [-> H]. cbn. now apply IH.
Qed.

Lemma startsWith_spec (p s : string) :
  startsWith p s = true <-> exists r, s = p +:+ r.
Proof.
  revert s. induction p as [|a p IH]; intros s.
  - split; [intros _; now exists s|reflexivity].
  - destruct s as [|b s]; cbn.
    + split; [discriminate|]. intros (r & H). rewrite JsFacts.append_cons in H. discriminate.
    + destruct (Ascii.eqb_spec a b) as [->|Hne].
      * rewrite IH. split; intros (r & H); exists r.
        -- rewrite JsFacts.append_cons. now f_equal.
        -- rewrite JsFacts.append_cons in H. now injection H.
      * split; [discriminate|]. intros (r & H). rewrite JsFacts.append_cons in H.
        injection H as E _. congruence.
Qed.

(** *** [split] on a character *)

Lemma splitOn_nonempty sep s : splitOn sep s <> [].
Proof.
  destruct s as [|c r]; [discriminate|]. cbn.
  destruct (Ascii.eqb c sep); [discriminate|]. destruct (splitOn sep r); discriminate.
Qed.

Lemma splitOn_length_cons sep c r :
  length (splitOn sep (String c r))
  = if Ascii.eqb c sep then S (length (splitOn sep r)) else length (splitOn sep r).
Proof.
  cbn. destruct (Ascii.eqb c sep); [reflexivity|].
  pose proof (splitOn_nonempty sep r). destruct (splitOn sep r); [contradiction|reflexivity].
Qed.

(** The pieces of a concatenation: those of its parts, the last piece of
    the first part and the first piece of the second being one. *)
Lemma splitOn_length_append sep a b :
  length (splitOn sep (a +:+ b)) + 1 = length (splitOn sep a) + length (splitOn sep b).
Proof.
  induction a as [|c a IH].
  - change ("" +:+ b) with b. cbn. lia.
  - rewrite JsFacts.append_cons, !splitOn_length_cons.
    destruct (Ascii.eqb c sep); lia.
Qed.

(** There are two pieces or more exactly when the separator occurs. *)
Lemma splitOn_several sep s :
  2 <= length (splitOn sep s) <-> exists a b, s = a +:+ String sep b.
Proof.
  induction s as [|c r IH].
  - cbn. split; [lia|]. intros (a & b & H). destruct a; discriminate H.
  - rewrite splitOn_length_cons. destruct (Ascii.eqb_spec c sep) as [->|Hne].
    + split; [intros _; now exists "", r|]. intros _.
      pose proof (splitOn_nonempty sep r). destruct (splitOn sep r); [contradiction|cbn; lia].
    + rewrite IH. split; intros (a & b & H).
      * exists (String c a), b. rewrite JsFacts.append_cons. now f_equal.
      * destruct a as [|x a].
        -- change ("" +:+ String sep b) with (String sep b) in H.
           injection H as E _. congruence.
        -- rewrite JsFacts.append_cons in H. injection H as _ H. now exists a, b.
Qed.

Lemma splitOn_single sep s :
  allChars (fun c => negb (Ascii.eqb c sep)) s = true -> length (splitOn sep s) = 1.
Proof.
  induction s as [|c r IH]; [reflexivity|]. cbn [allChars]. intros H.
  apply andb_true_iff in H as [Hc Hr]. rewrite splitOn_length_cons.
  apply negb_true_iff in Hc. rewrite Hc. now apply IH.
Qed.

End StringFacts.

(** ** The digest in hexadecimal *)

Module DigestFacts.
Import Sha256.
Local Open Scope N_scope.

Lemma compress_length h block : length (compress h block) = Nat.min (length h) 8.
Proof. unfold compress. now rewrite List.length_map, List.length_combine. Qed.

Lemma fold_compress_length bs :
  forall h, length h = 8%nat -> length (fold_left compress bs h) = 8%nat.
Proof.
  induction bs as [|b bs IH]; intros h H; [exact H|].
  cbn. apply IH. rewrite compress_length, H. reflexivity.
Qed.

Lemma digestWords_length msg : length (digestWords msg) = 8%nat.
Proof. unfold digestWords. apply fold_compress_length. reflexivity. Qed.

Lemma hexOfWord_length k x : String.length (hexOfWord k x) = k.
Proof. induction k as [|k IH]; [reflexivity|]. cbn. now rewrite IH. Qed.

Lemma hexDigit_lower n : n < 16 -> Migration.isLowerHex (hexDigit n) = true.
Proof.
  intros H. rewrite <- (N2Nat.id n).
  assert (Hk : (N.to_nat n < 16)%nat) by lia.
  generalize dependent (N.to_nat n). intros k Hk.
  do 16 (destruct k as [|k]; [reflexivity|]). lia.
Qed.

Lemma hexOfWord_lower k x : Js.allChars Migration.isLowerHex (hexOfWord k x) = true.
Proof.
  induction k as [|k IH]; [reflexivity|]. cbn [hexOfWord Js.allChars].
  rewrite IH, andb_true_r. apply hexDigit_lower.
  change 0xF with (N.ones 4). rewrite N.land_ones. apply N.mod_lt. discriminate.
Qed.

(** A digest is 64 characters of [0-9a-f]. *)
Lemma hex_length s : String.length (hex s) = 64%nat.
Proof.
  unfold hex. pose proof (digestWords_length (bytesOf s)) as H.
  destruct (digestWords (bytesOf s)) as [|a [|b [|c [|d [|e [|f [|g [|h [|]]]]]]]]];
    try discriminate H.
  cbn [fold_right]. rewrite !StringFacts.length_append, !hexOfWord_length. reflexivity.
Qed.

Lemma hex_lower s : Js.allChars Migration.isLowerHex (hex s) = true.
Proof.
  unfold hex. induction (digestWords (bytesOf s)) as [|w ws IH]; [reflexivity|].
  cbn [fold_right]. rewrite StringFacts.allChars_append, IH, hexOfWord_lower. reflexivity.
Qed.

(** Its first twelve characters. *)
Lemma hash12_length s : String.length (Js.substring0 12 (hex s)) = 12%nat.
Proof. now rewrite StringFacts.substring0_length, hex_length. Qed.

Lemma hash12_lower s : Js.allChars Migration.isLowerHex (Js.substring0 12 (hex s)) = true.
Proof. apply StringFacts.substring0_allChars, hex_lower. Qed.

Lemma letter_not_hyphen c :
  Migration.isLowerLetter c = true -> negb (Ascii.eqb c "-") = true.
Proof. destruct (Ascii.eqb_spec c "-") as [->|]; [discriminate|reflexivity]. Qed.

Lemma hex_not_hyphen c : Migration.isLowerHex c = true -> negb (Ascii.eqb c "-") = true.
Proof. destruct (Ascii.eqb_spec c "-") as [->|]; [discriminate|reflexivity]. Qed.

End DigestFacts.

(** ** Hub keys and the two identifier formats *)

Module HubKeyFacts.
Import Js SourceId Migration.

(** X4.  [isLegacyHubSourceId] accepts exactly the strings of the form
    [hub-H-R]: the prefix [hub-], then any text with at least one more
    hyphen in it.  Neither [H] nor [R] need be non-empty, so [hub--] is
    accepted, and [hub-only] is not. *)
Theorem isLegacyHubSourceId_spec (sourceId : string) :
  isLegacyHubSourceId sourceId = true
  <-> exists hubId rest, sourceId = "hub-" +:+ hubId +:+ "-" +:+ rest.
Proof.
  unfold isLegacyHubSourceId. rewrite andb_true_iff, StringFacts.startsWith_spec. split.
  - intros [(r & ->) H]. apply Nat.leb_le in H.
    change ("hub-" +:+ r) with (String "h" (String "u" (String "b" (String "-" r)))) in H.
    rewrite !StringFacts.splitOn_length_cons in H. cbn in H.
    assert (H2 : 2 <= length (splitOn "-" r)) by lia.
    apply StringFacts.splitOn_several in H2 as (a & b & ->). now exists a, b.
  - intros (a & b & ->). split; [eauto|]. apply Nat.leb_le.
    change ("hub-" +:+ a +:+ "-" +:+ b)
      with (String "h" (String "u" (String "b" (String "-" (a +:+ String "-" b))))).
    rewrite !StringFacts.splitOn_length_cons. cbn.
    assert (2 <= length (splitOn "-" (a +:+ String "-" b))); [|lia].
    apply StringFacts.splitOn_several. now exists a, b.
Qed.

Example isLegacyHubSourceId_documented :
  isLegacyHubSourceId "hub-my-hub-source1" = true
  /\ isLegacyHubSourceId "hub-test-hub-github-source" = true
  /\ isLegacyHubSourceId "github-a1b2c3d4e5f6" = false
  /\ isLegacyHubSourceId "hub-only" = false
  /\ isLegacyHubSourceId "hub--" = true.
Proof. repeat split. Qed.

Section WithURL.

Variable newURL : string -> option URL.

(** An identifier is the type, a hyphen, and twelve characters of [0-9a-f]. *)
Lemma generateHubSourceId_shape t u cfg :
  exists hash,
    generateHubSourceId newURL t u cfg = t +:+ "-" +:+ hash
    /\ String.length hash = 12
    /\ allChars isLowerHex hash = true.
Proof.
  eexists. split; [reflexivity|].
  split; [apply DigestFacts.hash12_length|apply DigestFacts.hash12_lower].
Qed.

Lemma id_shape_pattern t hash :
  String.length hash = 12 -> allChars isLowerHex hash = true ->
  (isHubGeneratedId (t +:+ "-" +:+ hash) = true
   <-> t <> "" /\ allChars isLowerLetter t = true).
Proof.
  intros Hl Hh. rewrite MigrationFacts.isHubGeneratedId_iff. split.
  - intros (letters & hex & E & Hne & Hlet & Hlen & _).
    apply (StringFacts.append_inj_length t ("-" +:+ hash) letters ("-" +:+ hex)) in E
      as [-> _].
    + now split.
    + change (String.length ("-" +:+ hash)) with (S (String.length hash)).
      change (String.length ("-" +:+ hex)) with (S (String.length hex)). lia.
  - intros [Hne Hlet]. now exists t, hash.
Qed.

Lemma pattern_segments id :
  isHubGeneratedId id = true -> length (splitOn "-" id) = 2.
Proof.
  intros H. apply MigrationFacts.isHubGeneratedId_iff in H
    as (letters & hex & -> & _ & Hlet & _ & Hhex).
  pose proof (StringFacts.splitOn_length_append "-" letters ("-" +:+ hex)) as E.
  change ("-" +:+ hex) with (String "-"%char hex) in *.
  rewrite StringFacts.splitOn_length_cons in E. cbn [Ascii.eqb Bool.eqb] in E.
  rewrite (StringFacts.splitOn_single "-" letters) in E
    by (eapply StringFacts.allChars_impl; [apply DigestFacts.letter_not_hyphen|exact Hlet]).
  rewrite (StringFacts.splitOn_single "-" hex) in E
    by (eapply StringFacts.allChars_impl; [apply DigestFacts.hex_not_hyphen|exact Hhex]).
  lia.
Qed.

Lemma startsWith_hub_append t r :
  startsWith "hub-" (t +:+ String "-" r) = startsWith "hub-" t || String.eqb t "hub".
Proof.
  destruct t as [|c1 [|c2 [|c3 [|c4 t]]]]; rewrite ?JsFacts.append_cons;
    change ("" +:+ String "-" r) with (String "-"%char r); cbn [startsWith String.eqb].
  - reflexivity.
  - destruct (Ascii.eqb "h" c1) eqn:E1; [|now rewrite Ascii.eqb_sym, E1].
    rewrite (Ascii.eqb_sym c1), E1. reflexivity.
  - destruct (Ascii.eqb "h" c1) eqn:E1; [|now rewrite Ascii.eqb_sym, E1].
    rewrite (Ascii.eqb_sym c1), E1.
    destruct (Ascii.eqb "u" c2) eqn:E2; [|now rewrite Ascii.eqb_sym, E2].
    rewrite (Ascii.eqb_sym c2), E2. reflexivity.
  - destruct (Ascii.eqb "h" c1) eqn:E1; [|now rewrite Ascii.eqb_sym, E1].
    rewrite (Ascii.eqb_sym c1), E1.
    destruct (Ascii.eqb "u" c2) eqn:E2; [|now rewrite Ascii.eqb_sym, E2].
    rewrite (Ascii.eqb_sym c2), E2.
    destruct (Ascii.eqb "b" c3) eqn:E3; [|now rewrite Ascii.eqb_sym, E3].
    rewrite (Ascii.eqb_sym c3), E3. reflexivity.
  - destruct (Ascii.eqb "h" c1) eqn:E1; [|now rewrite Ascii.eqb_sym, E1].
    rewrite (Ascii.eqb_sym c1), E1.
    destruct (Ascii.eqb "u" c2) eqn:E2; [|now rewrite Ascii.eqb_sym, E2].
    rewrite (Ascii.eqb_sym c2), E2.
    destruct (Ascii.eqb "b" c3) eqn:E3; [|now rewrite Ascii.eqb_sym, E3].
    rewrite (Ascii.eqb_sym c3), E3.
    destruct (Ascii.eqb "-" c4) eqn:E4; reflexivity.
Qed.

(** X5.  The two formats do not overlap: no identifier of the current
    format [type-hash] that the migration recognises is taken for a legacy
    hub-prefixed identifier, and an identifier that [generateHubSourceId]
    makes is taken for one exactly when the source type itself begins with
    [hub-]. *)
Theorem current_ids_are_not_legacy_hub_ids (t u : string) (cfg : option SourceIdConfig) :
  (forall id, isHubGeneratedId id = true -> isLegacyHubSourceId id = false)
  /\ isLegacyHubSourceId (generateHubSourceId newURL t u cfg) = startsWith "hub-" t.
Proof.
  split.
  - intros id H. unfold isLegacyHubSourceId. rewrite (pattern_segments id H).
    apply andb_false_r.
  - destruct (generateHubSourceId_shape t u cfg) as (hash & -> & Hl & Hh).
    unfold isLegacyHubSourceId.
    change ("-" +:+ hash) with (String "-"%char hash).
    rewrite startsWith_hub_append.
    pose proof (StringFacts.splitOn_length_append "-" t (String "-"%char hash)) as E.
    rewrite StringFacts.splitOn_length_cons in E. cbn [Ascii.eqb Bool.eqb] in E.
    rewrite (StringFacts.splitOn_single "-" hash) in E
      by (eapply StringFacts.allChars_impl; [apply DigestFacts.hex_not_hyphen|exact Hh]).
    destruct (String.eqb_spec t "hub") as [->|Hne].
    + assert (L : length (splitOn "-" ("hub" +:+ String "-" hash)) = 2)
        by (cbn in E; lia).
      rewrite L. reflexivity.
    + rewrite orb_false_r. destruct (startsWith "hub-" t) eqn:Hs; [|reflexivity].
      cbn [andb]. apply Nat.leb_le.
      apply StringFacts.startsWith_spec in Hs as (r & ->).
      change ("hub-" +:+ r) with (String "h" (String "u" (String "b" (String "-" r)))) in *.
      rewrite !StringFacts.splitOn_length_cons in E. cbn [Ascii.eqb Bool.eqb] in E.
      pose proof (StringFacts.splitOn_nonempty "-" r).
      destruct (splitOn "-" r); [contradiction|]. cbn [length] in E. lia.
Qed.

(** X6.  What [generateHubSourceId] returns matches the pattern by which the
    migration recognises hub-generated identifiers exactly when the source
    type is a non-empty word of lowercase letters: identifiers of sources
    of a type such as [awesome-copilot], which contains a hyphen, are never
    recognised. *)
Theorem generateHubSourceId_recognised (t u : string) (cfg : option SourceIdConfig) :
  isHubGeneratedId (generateHubSourceId newURL t u cfg) = true
  <-> t <> "" /\ allChars isLowerLetter t = true.
Proof.
  destruct (generateHubSourceId_shape t u cfg) as (hash & -> & Hl & Hh).
  now apply id_shape_pattern.
Qed.

Lemma generateHubKey_branch u br :
  br <> "" -> br <> "main" -> br <> "master" ->
  generateHubKey newURL u (Some br) = generateHubKey newURL u None +:+ "-" +:+ br.
Proof.
  intros H1 H2 H3. unfold generateHubKey, namesOtherBranch. cbn zeta. cbn [truthy].
  destruct (String.eqb_spec br "") as [E|_]; [contradiction|].
  rewrite !bool_decide_eq_false_2 by congruence. reflexivity.
Qed.

(** X7.  The hub key is the first twelve hex digits of the SHA-256 of the
    normalized URL when the branch is absent, empty, [main] or [master], and
    that hash followed by a hyphen and the branch otherwise.  Hence the
    branch can be read off a key: two keys with a branch are equal only for
    equal branches (and equal hashes), and a key with a branch is never a
    key without. *)
Theorem generateHubKey_spec (u : string) :
  let hash := generateHubKey newURL u None in
  String.length hash = 12
  /\ allChars isLowerHex hash = true
  /\ hash = substring0 12 (Sha256.hex (normalizeUrl newURL u))
  /\ generateHubKey newURL u (Some "main") = hash
  /\ generateHubKey newURL u (Some "master") = hash
  /\ generateHubKey newURL u (Some "") = hash
  /\ (forall br, br <> "" -> br <> "main" -> br <> "master" ->
        generateHubKey newURL u (Some br) = hash +:+ "-" +:+ br)
  /\ (forall u' br br',
        br <> "" -> br <> "main" -> br <> "master" ->
        br' <> "" -> br' <> "main" -> br' <> "master" ->
        generateHubKey newURL u (Some br) = generateHubKey newURL u' (Some br') ->
        br = br' /\ generateHubKey newURL u None = generateHubKey newURL u' None)
  /\ (forall u' br, br <> "" -> br <> "main" -> br <> "master" ->
        generateHubKey newURL u (Some br) <> generateHubKey newURL u' None).
Proof.
  cbn zeta.
  split; [apply DigestFacts.hash12_length|]. split; [apply DigestFacts.hash12_lower|].
  do 4 (split; [reflexivity|]).
  split; [intros br; apply generateHubKey_branch|]. split.
  - intros u' br br' H1 H2 H3 H1' H2' H3' E.
    rewrite !generateHubKey_branch in E by assumption.
    apply StringFacts.append_inj_length_l in E;
      [|unfold generateHubKey; cbn; now rewrite !DigestFacts.hash12_length].
    destruct E as [E1 E2]. split; [|exact E1].
    change ("-" +:+ br) with (String "-"%char br) in E2.
    change ("-" +:+ br') with (String "-"%char br') in E2. now injection E2.
  - intros u' br H1 H2 H3 E. rewrite generateHubKey_branch in E by assumption.
    apply (f_equal String.length) in E. rewrite StringFacts.length_append in E.
    unfold generateHubKey in E. cbn in E. rewrite !DigestFacts.hash12_length in E.
    change (String.length ("-" +:+ br)) with (S (String.length br)) in E. lia.
Qed.

(** X8.  The legacy hub key is undefined exactly when the legacy and the
    current normalization of the URL coincide, that is exactly when the
    legacy source identifier is undefined; otherwise it is the hash of the
    legacy-normalized URL with the same branch suffix as the current key. *)
Theorem generateLegacyHubKey_spec (u : string) (b : option string) :
  (generateLegacyHubKey newURL u b = None
   <-> normalizeUrlLegacy newURL u = normalizeUrl newURL u)
  /\ (forall t cfg,
        generateLegacyHubKey newURL u b = None
        <-> generateLegacyHubSourceId newURL t u cfg = None)
  /\ (forall key, generateLegacyHubKey newURL u b = Some key ->
        exists hash,
          hash = substring0 12 (Sha256.hex (normalizeUrlLegacy newURL u))
          /\ String.length hash = 12
          /\ key = hash +:+ dropStr 12 (generateHubKey newURL u b)).
Proof.
  unfold generateLegacyHubKey, generateLegacyHubSourceId. cbn zeta.
  destruct (String.eqb_spec (normalizeUrlLegacy newURL u) (normalizeUrl newURL u))
    as [E|NE].
  - split; [tauto|]. split; [tauto|]. discriminate.
  - split; [split; [destruct (namesOtherBranch b); discriminate|tauto]|].
    split; [intros t cfg; split; [destruct (namesOtherBranch b)|]; discriminate|].
    intros key Hkey. eexists. split; [reflexivity|].
    split; [apply DigestFacts.hash12_length|].
    assert (Hdrop : forall x y, String.length x = 12 -> dropStr 12 (x +:+ y) = y).
    { intros x y Hx.
      do 12 (destruct x as [|? x]; [discriminate Hx|]). destruct x; [|discriminate Hx].
      reflexivity. }
    unfold generateHubKey. cbn zeta.
    destruct (namesOtherBranch b); injection Hkey as <-.
    + now rewrite Hdrop by apply DigestFacts.hash12_length.
    + rewrite <- (JsFacts.append_empty_r (substring0 12 (Sha256.hex (normalizeUrl newURL u)))).
      rewrite Hdrop by apply DigestFacts.hash12_length.
      now rewrite JsFacts.append_empty_r.
Qed.

End WithURL.

(** The keys of the documentation's examples, and of a repository URL
    written with capitals. *)
Example generateHubKey_examples :
  generateHubKey Samples.newURL "https://example.com/hub" None = "233b81b4fb9d"
  /\ generateHubKey Samples.newURL "https://example.com/hub" (Some "master")
     = "233b81b4fb9d"
  /\ generateHubKey Samples.newURL "https://example.com/hub" (Some "develop")
     = "233b81b4fb9d-develop"
  /\ generateHubKey Samples.newURL "https://github.com/Owner/Repo" None = "620c3a937ce8"
  /\ generateLegacyHubKey Samples.newURL "https://github.com/Owner/Repo" (Some "develop")
     = Some "2d3e4920e9b4-develop"
  /\ generateLegacyHubKey Samples.newURL "https://github.com/owner/repo" None = None.
Proof. vm_compute. repeat split. Qed.

End HubKeyFacts.

(** ** Marking migrations and asking for them *)

Module RegistryStateFacts.
Import Registry.

Section Marks.

Context {Env : Type}.
Implicit Types (w : World Env) (fn : M Env unit) (name : string).

Lemma isMigrationComplete_recordOf name w :
  isMigrationComplete name w
  = (Returned match recordOf name w with
              | Some r => match status r with completed => true | _ => false end
              | None => false
              end, w).
Proof.
  unfold isMigrationComplete, mbind, M_bind, bind, getMigrationState, globalStateGet, ret,
    recordOf.
  destruct (default ∅ (globalState w !! STATE_KEY) !! name) as [[[] c d]|]; reflexivity.
Qed.

Lemma markMigrationSkipped_effect name d w :
  exists w',
    markMigrationSkipped name d w = (Returned tt, w')
    /\ recordOf name w' = Some (mkRecord skipped (Some (clock w)) d)
    /\ (forall other, other <> name -> recordOf other w' = recordOf other w)
    /\ env w' = env w.
Proof.
  eexists. split; [reflexivity|]. cbn. unfold recordOf. cbn.
  rewrite lookup_insert_eq. cbn. split; [apply lookup_insert_eq|].
  split; [|reflexivity].
  intros other Hne. now rewrite lookup_insert_ne.
Qed.

(** X9.  Marking and asking.  After [markMigrationComplete(name)] the
    registry answers [isMigrationComplete(name)] with true; after
    [markMigrationSkipped(name)] it answers false, also when the migration
    had been completed before, since the record is overwritten.  Either
    mark stamps the record with the current time, leaves the records of all
    other migrations as they were, and keeps [runMigration(name, fn)] from
    calling [fn]. *)
Theorem marks_are_recorded name (details : option string) w :
  let done := snd (markMigrationComplete name details w) in
  let skip := snd (markMigrationSkipped name details w) in
  isMigrationComplete name done = (Returned true, done)
  /\ isMigrationComplete name skip = (Returned false, skip)
  /\ recordOf name done = Some (mkRecord completed (Some (clock w)) details)
  /\ recordOf name skip = Some (mkRecord skipped (Some (clock w)) details)
  /\ (forall other, other <> name ->
        recordOf other done = recordOf other w
        /\ recordOf other skip = recordOf other w
        /\ isMigrationComplete other done = (fst (isMigrationComplete other w), done)
        /\ isMigrationComplete other skip = (fst (isMigrationComplete other w), skip))
  /\ (forall fn,
        fst (runMigration name fn done) = Returned tt
        /\ env (snd (runMigration name fn done)) = env w
        /\ globalState (snd (runMigration name fn done)) = globalState done)
  /\ (forall fn,
        fst (runMigration name fn skip) = Returned tt
        /\ env (snd (runMigration name fn skip)) = env w
        /\ globalState (snd (runMigration name fn skip)) = globalState skip).
Proof.
  cbn zeta.
  destruct (RegistryFacts.markMigrationComplete_effect name details w)
    as (done & -> & Hd & Hdo & Hde).
  destruct (markMigrationSkipped_effect name details w) as (left & -> & Hl & Hlo & Hle).
  cbn [snd].
  split; [now rewrite isMigrationComplete_recordOf, Hd|].
  split; [now rewrite isMigrationComplete_recordOf, Hl|].
  split; [exact Hd|]. split; [exact Hl|]. split; [|split].
  - intros other Hne. rewrite !isMigrationComplete_recordOf.
    rewrite (Hdo other Hne), (Hlo other Hne). cbn [fst]. repeat split.
  - intros fn.
    rewrite RegistryFacts.runMigration_settled
      by (eexists; split; [exact Hd|now left]).
    cbn. now rewrite Hde.
  - intros fn.
    rewrite RegistryFacts.runMigration_settled
      by (eexists; split; [exact Hl|now right]).
    cbn. now rewrite Hle.
Qed.

End Marks.

End RegistryStateFacts.

(** ** The migration's file names, cache files and installation records *)

Module MigrationFilesFacts.
Import Js Migration MigrationFiles.

Lemma replaceByte_safe c : allChars isFilenameChar (replaceByte c) = true.
Proof.
  unfold replaceByte. destruct (isFilenameChar c) eqn:E; [cbn; now rewrite E|].
  repeat match goal with |- context [if ?b then _ else _] => destruct b end; reflexivity.
Qed.

Lemma replaceUnsafe_safe s : allChars isFilenameChar (replaceUnsafe s) = true.
Proof.
  induction s as [|c r IH]; [reflexivity|]. cbn [replaceUnsafe].
  now rewrite StringFacts.allChars_append, replaceByte_safe, IH.
Qed.

Lemma replaceUnsafe_id s : allChars isFilenameChar s = true -> replaceUnsafe s = s.
Proof.
  induction s as [|c r IH]; [reflexivity|]. cbn [allChars replaceUnsafe]. intros H.
  apply andb_true_iff in H as [Hc Hr]. unfold replaceByte. rewrite Hc, (IH Hr). reflexivity.
Qed.

Lemma substring0_short n s : String.length s <= n -> substring0 n s = s.
Proof.
  unfold substring0. revert s. induction n as [|n IH]; intros s H.
  - destruct s; [reflexivity|cbn in H; lia].
  - destruct s as [|c s]; [reflexivity|]. cbn in *. rewrite IH by lia. reflexivity.
Qed.

Lemma sanitize_length id : String.length (sanitize id) <= 200.
Proof. unfold sanitize. rewrite StringFacts.substring0_length. lia. Qed.

Lemma sanitize_safe id : allChars isFilenameChar (sanitize id) = true.
Proof. apply StringFacts.substring0_allChars, replaceUnsafe_safe. Qed.

Lemma sanitize_of_safe id :
  allChars isFilenameChar id = true -> sanitize id = substring0 200 id.
Proof. intros H. unfold sanitize. now rewrite replaceUnsafe_id. Qed.

(** X10.  The file name that [sanitize] makes of an id consists of
    characters of [A-Za-z0-9._-] only and is at most 200 characters long;
    sanitizing is idempotent; an id that is already made of such characters
    is only cut to 200 characters, and is kept as it is when it is no
    longer than that. *)
Theorem sanitize_spec (id : string) :
  allChars isFilenameChar (sanitize id) = true
  /\ String.length (sanitize id) <= 200
  /\ sanitize (sanitize id) = sanitize id
  /\ (allChars isFilenameChar id = true -> sanitize id = substring0 200 id)
  /\ (allChars isFilenameChar id = true -> String.length id <= 200 -> sanitize id = id).
Proof.
  split; [apply sanitize_safe|]. split; [apply sanitize_length|]. split; [|split].
  - rewrite (sanitize_of_safe (sanitize id)) by apply sanitize_safe.
    apply substring0_short, sanitize_length.
  - apply sanitize_of_safe.
  - intros Hs Hl. rewrite sanitize_of_safe by exact Hs. now apply substring0_short.
Qed.

Example sanitize_examples :
  sanitize "github-a1b2c3d4e5f6" = "github-a1b2c3d4e5f6"
  /\ sanitize "my source/v1:2" = "my_source_v1_2"
  /\ sanitize "../etc" = ".._etc".
Proof. repeat split. Qed.

Lemma letter_is_filename c : isLowerLetter c = true -> isFilenameChar c = true.
Proof.
  unfold isLowerLetter, isFilenameChar. cbn zeta. intros H. rewrite H.
  now rewrite orb_true_r.
Qed.

Lemma hex_is_filename c : isLowerHex c = true -> isFilenameChar c = true.
Proof.
  unfold isLowerHex, isFilenameChar. cbn zeta. intros H.
  apply orb_true_iff in H as [H|H].
  - apply andb_true_iff in H as [H1 H2]. apply Nat.leb_le in H1, H2.
    assert (E1 : (97 <=? nat_of_ascii c) = true) by (apply Nat.leb_le; lia).
    assert (E2 : (nat_of_ascii c <=? 122) = true) by (apply Nat.leb_le; lia).
    rewrite E1, E2. cbn. now rewrite orb_true_r.
  - rewrite H. now rewrite !orb_true_r.
Qed.

Lemma pattern_is_filename id :
  isHubGeneratedId id = true -> allChars isFilenameChar id = true.
Proof.
  intros H. apply MigrationFacts.isHubGeneratedId_iff in H
    as (letters & hex & -> & _ & Hl & _ & Hh).
  rewrite !StringFacts.allChars_append.
  rewrite (StringFacts.allChars_impl _ _ _ letter_is_filename Hl).
  rewrite (StringFacts.allChars_impl _ _ _ hex_is_filename Hh). reflexivity.
Qed.

Section WithURL.

Variable newURL : string -> option URL.

Lemma generateLegacyHubSourceId_shape t u cfg legacyId :
  SourceId.generateLegacyHubSourceId newURL t u cfg = Some legacyId ->
  exists hash,
    legacyId = t +:+ "-" +:+ hash
    /\ String.length hash = 12
    /\ allChars isLowerHex hash = true.
Proof.
  unfold SourceId.generateLegacyHubSourceId. cbn zeta.
  destruct (String.eqb _ _); [discriminate|]. intros [= <-].
  eexists. split; [reflexivity|].
  split; [apply DigestFacts.hash12_length|apply DigestFacts.hash12_lower].
Qed.

(** The type of a source that is due is a word of lowercase letters, so
    its recomputed id matches the pattern as its stored id does. *)
Lemma due_current_id_pattern source :
  Due newURL source ->
  isHubGeneratedId
    (SourceId.generateHubSourceId newURL (type source) (url source) (idConfig source))
  = true.
Proof.
  intros (Hp & _ & Hl).
  destruct (generateLegacyHubSourceId_shape _ _ _ _ Hl) as (hash & E & Hlen & Hhex).
  apply MigrationFacts.isHubGeneratedId_iff in Hp. rewrite E in Hp.
  apply (HubKeyFacts.id_shape_pattern _ _ Hlen Hhex) in Hp.
  destruct (HubKeyFacts.generateHubSourceId_shape newURL (type source) (url source)
              (idConfig source)) as (hash' & -> & Hlen' & Hhex').
  now apply HubKeyFacts.id_shape_pattern.
Qed.

Lemma returned_sound storage log old new :
  returned (migrateConfigSources newURL storage log) !! old = Some new ->
  exists source,
    source ∈ sources storage /\ id source = old /\ Due newURL source
    /\ new = SourceId.generateHubSourceId newURL (type source) (url source)
               (idConfig source).
Proof.
  intros H. unfold migrateConfigSources, getSources in H.
  pose proof (MigrationFacts.forEach_idMap_sound newURL (sources storage)
                (mkLoop ∅ false log) old new) as S.
  destruct (forEach newURL (sources storage) (mkLoop ∅ false log)) as [s' st].
  cbn in *. destruct (S H) as [E|E]; [|exact E].
  rewrite lookup_empty in E. discriminate.
Qed.

(** X11.  Every entry [old -> new] of the map that [migrateConfigSources]
    returns relates two identifiers of the hub-generated format with the
    same type prefix and different hashes.  Both consist of file-name
    characters, so the cache files that the migration then renames are
    named after the ids themselves (cut to 200 characters), and the new id
    is not taken for a legacy hub-prefixed id. *)
Theorem migrated_ids_keep_the_format (storage : Config) (log : list LogEntry)
    (old new : string) :
  returned (migrateConfigSources newURL storage log) !! old = Some new ->
  isHubGeneratedId old = true
  /\ isHubGeneratedId new = true
  /\ old <> new
  /\ (exists t h h',
        old = t +:+ "-" +:+ h /\ new = t +:+ "-" +:+ h'
        /\ String.length h = 12 /\ String.length h' = 12)
  /\ sanitize old = substring0 200 old
  /\ sanitize new = substring0 200 new
  /\ SourceId.isLegacyHubSourceId new = false.
Proof.
  intros H. destruct (returned_sound _ _ _ _ H) as (source & _ & <- & D & ->).
  pose proof (due_current_id_pattern source D) as Hnew.
  destruct D as (Hp & Hne & Hl).
  apply MigrationFacts.isHubGeneratedId_iff in Hp as Hold.
  split; [exact Hold|]. split; [exact Hnew|]. split; [congruence|]. split; [|split; [|split]].
  - destruct (generateLegacyHubSourceId_shape _ _ _ _ Hl) as (h & E & Hlen & _).
    destruct (HubKeyFacts.generateHubSourceId_shape newURL (type source) (url source)
                (idConfig source)) as (h' & E' & Hlen' & _).
    exists (type source), h, h'. now rewrite E'.
  - apply sanitize_of_safe, pattern_is_filename, Hold.
  - apply sanitize_of_safe, pattern_is_filename, Hnew.
  - unfold SourceId.isLegacyHubSourceId.
    rewrite (HubKeyFacts.pattern_segments _ Hnew). apply andb_false_r.
Qed.

End WithURL.

(** The migrated source of the sample configuration. *)
Lemma migrated_ids_keep_the_format_witness :
  isHubGeneratedId "github-5ed19c768f41" = true
  /\ isHubGeneratedId "github-2bbe3751c8d5" = true
  /\ "github-5ed19c768f41" <> "github-2bbe3751c8d5".
Proof.
  destruct (migrated_ids_keep_the_format Samples.newURL Samples.storedSources []
              "github-5ed19c768f41" "github-2bbe3751c8d5")
    as (H1 & H2 & H3 & _).
  - vm_compute. reflexivity.
  - exact (conj H1 (conj H2 H3)).
Defined.

Section WithFileSystem.

Variable join : string -> string -> string.
Variable renameError : string -> string -> option JsError.

Abbreviation cacheFile := (MigrationFiles.cacheFile join).
Abbreviation renameCacheFile := (MigrationFiles.renameCacheFile join renameError).
Abbreviation migrateSourceCacheFiles :=
  (MigrationFiles.migrateSourceCacheFiles join renameError).

(** One iteration either leaves the files alone or moves the content of
    the old cache file, which exists, to the new one, which does not. *)
Lemma renameCacheFile_cases cacheDir entry st :
  (files (renameCacheFile cacheDir entry st) = files st
   \/ exists data,
        files st !! cacheFile cacheDir (fst entry) = Some data
        /\ files st !! cacheFile cacheDir (snd entry) = None
        /\ renameError (cacheFile cacheDir (fst entry)) (cacheFile cacheDir (snd entry))
           = None
        /\ files (renameCacheFile cacheDir entry st)
           = <[cacheFile cacheDir (snd entry) := data]>
               (delete (cacheFile cacheDir (fst entry)) (files st)))
  /\ exists added,
       logger (renameCacheFile cacheDir entry st) = logger st ++ added
       /\ length added <= 1.
Proof.
  destruct entry as [oldId newId]. unfold MigrationFiles.renameCacheFile, existsSync, rename.
  fold (cacheFile cacheDir oldId). fold (cacheFile cacheDir newId). cbn [fst snd].
  destruct (files st !! cacheFile cacheDir oldId) as [data|] eqn:Eold.
  - rewrite bool_decide_eq_true_2 by eauto.
    destruct (files st !! cacheFile cacheDir newId) as [other|] eqn:Enew.
    + rewrite bool_decide_eq_true_2 by eauto. cbn.
      split; [now left|]. exists []. rewrite app_nil_r. split; [reflexivity|cbn; lia].
    + rewrite bool_decide_eq_false_2 by (intros [? ?]; discriminate). cbn.
      destruct (renameError _ _) eqn:Efail; cbn.
      * split; [now left|]. eexists. split; [reflexivity|]. cbn. lia.
      * split; [right; now exists data|]. eexists. split; [reflexivity|]. cbn. lia.
  - rewrite bool_decide_eq_false_2 by (intros [? ?]; discriminate). cbn.
    split; [now left|]. exists []. rewrite app_nil_r. split; [reflexivity|cbn; lia].
Qed.

(** A move keeps the number of files and their contents. *)
Lemma move_size (fs : gmap string string) (oldFile newFile data : string) :
  fs !! oldFile = Some data -> fs !! newFile = None ->
  size (<[newFile := data]> (delete oldFile fs)) = size fs.
Proof.
  intros Ho Hn.
  assert (Hne : oldFile <> newFile) by congruence.
  rewrite map_size_insert_None by now rewrite lookup_delete_ne.
  rewrite <- (insert_delete_id fs oldFile data Ho) at 2.
  now rewrite map_size_insert_None by apply lookup_delete_eq.
Qed.

Lemma move_lookup_other (fs : gmap string string) (oldFile newFile data p : string) :
  p <> oldFile -> p <> newFile ->
  <[newFile := data]> (delete oldFile fs) !! p = fs !! p.
Proof. intros H1 H2. now rewrite lookup_insert_ne, lookup_delete_ne. Qed.

(** X12.  Renaming the cache files loses nothing: whatever the map of ids
    and whichever renames fail, there are as many files afterwards as
    before, every content that was on disk still is and no content is new,
    and a file that is not the old cache file of an entry is left where it
    is with the content it has; in particular no existing file is ever
    overwritten.  Each entry adds at most one line to the log. *)
Theorem migrateSourceCacheFiles_loses_nothing
    (cacheDir : string) (idMap : IdMap) (st : Disk) :
  let st' := migrateSourceCacheFiles cacheDir idMap st in
  size (files st') = size (files st)
  /\ (forall p data, files st !! p = Some data -> exists q, files st' !! q = Some data)
  /\ (forall q data, files st' !! q = Some data -> exists p, files st !! p = Some data)
  /\ (forall p, is_Some (files st !! p) ->
        (forall entry, entry ∈ idMap -> p <> cacheFile cacheDir (fst entry)) ->
        files st' !! p = files st !! p)
  /\ (exists added, logger st' = logger st ++ added /\ length added <= length idMap).
Proof.
  cbn zeta. unfold MigrationFiles.migrateSourceCacheFiles.
  revert st. induction idMap as [|entry rest IH]; intros st.
  - cbn. split; [reflexivity|]. split; [eauto|]. split; [eauto|]. split; [reflexivity|].
    exists []. rewrite app_nil_r. split; [reflexivity|cbn; lia].
  - cbn [fold_left].
    destruct (IH (renameCacheFile cacheDir entry st)) as (Hs & Hf & Hb & Hu & (l2 & Hl2 & Hn2)).
    destruct (renameCacheFile_cases cacheDir entry st)
      as [[Hsame|(data & Ho & Hn & _ & Hmove)] (l1 & Hl1 & Hn1)].
    + rewrite Hsame in *.
      split; [exact Hs|]. split; [exact Hf|]. split; [exact Hb|]. split.
      * intros p Hp Hno. apply Hu; [exact Hp|].
        intros e He. apply Hno. now apply list_elem_of_further.
      * exists (l1 ++ l2). rewrite Hl2, Hl1, <- app_assoc. split; [reflexivity|].
        rewrite length_app. cbn. lia.
    + assert (Hne : cacheFile cacheDir (fst entry) <> cacheFile cacheDir (snd entry))
        by congruence.
      split; [|split; [|split; [|split]]].
      * rewrite Hs, Hmove. now apply move_size.
      * intros p d Hp. destruct (decide (p = cacheFile cacheDir (fst entry))) as [->|Hpo].
        -- apply Hf with (p := cacheFile cacheDir (snd entry)).
           rewrite Hmove, lookup_insert_eq. congruence.
        -- apply Hf with (p := p).
           rewrite Hmove, move_lookup_other; [exact Hp|exact Hpo|congruence].
      * intros q d Hq. destruct (Hb q d Hq) as (p & Hp). rewrite Hmove in Hp.
        destruct (decide (p = cacheFile cacheDir (snd entry))) as [->|Hpn].
        -- rewrite lookup_insert_eq in Hp. injection Hp as <-. eauto.
        -- rewrite lookup_insert_ne in Hp by congruence.
           destruct (decide (p = cacheFile cacheDir (fst entry))) as [->|Hpo].
           ++ rewrite lookup_delete_eq in Hp. discriminate.
           ++ rewrite lookup_delete_ne in Hp by congruence. eauto.
      * intros p Hp Hno.
        assert (Hpo : p <> cacheFile cacheDir (fst entry))
          by (apply Hno, list_elem_of_here).
        assert (Hpn : p <> cacheFile cacheDir (snd entry))
          by (intros ->; rewrite Hn in Hp; now destruct Hp).
        rewrite Hu.
        -- rewrite Hmove. now apply move_lookup_other.
        -- rewrite Hmove, move_lookup_other by assumption. exact Hp.
        -- intros e He. apply Hno. now apply list_elem_of_further.
      * exists (l1 ++ l2). rewrite Hl2, Hl1, <- app_assoc. split; [reflexivity|].
        rewrite length_app. cbn. lia.
Qed.

(** An iteration for other cache files leaves the two files of [entry]
    as they are. *)
Lemma renameCacheFile_apart cacheDir entry other st p :
  Apart join cacheDir entry other ->
  p = cacheFile cacheDir (fst entry) \/ p = cacheFile cacheDir (snd entry) ->
  files (renameCacheFile cacheDir other st) !! p = files st !! p.
Proof.
  intros (H1 & H2 & H3 & H4) Hp.
  destruct (renameCacheFile_cases cacheDir other st)
    as [[-> | (data & _ & _ & _ & ->)] _]; [reflexivity|].
  apply move_lookup_other; destruct Hp as [-> | ->]; congruence.
Qed.

(** Once the content is under the new name, it stays there. *)
Lemma renamed_stays cacheDir entry data idMap :
  forall st,
  (forall other, other ∈ idMap -> other = entry \/ Apart join cacheDir entry other) ->
  files st !! cacheFile cacheDir (snd entry) = Some data ->
  files st !! cacheFile cacheDir (fst entry) = None ->
  let st' := migrateSourceCacheFiles cacheDir idMap st in
  files st' !! cacheFile cacheDir (snd entry) = Some data
  /\ files st' !! cacheFile cacheDir (fst entry) = None.
Proof.
  cbn zeta. unfold MigrationFiles.migrateSourceCacheFiles.
  induction idMap as [|other rest IH]; intros st Hall Hn Ho; [now split|].
  cbn [fold_left]. apply IH.
  - intros e He. apply Hall. now apply list_elem_of_further.
  - destruct (Hall other (list_elem_of_here _ _)) as [->|Ha].
    + destruct (renameCacheFile_cases cacheDir entry st)
        as [[-> | (d & Ho' & _)] _]; [exact Hn|congruence].
    + rewrite (renameCacheFile_apart _ _ _ _ _ Ha); [exact Hn|now right].
  - destruct (Hall other (list_elem_of_here _ _)) as [->|Ha].
    + destruct (renameCacheFile_cases cacheDir entry st)
        as [[-> | (d & Ho' & _)] _]; [exact Ho|congruence].
    + rewrite (renameCacheFile_apart _ _ _ _ _ Ha); [exact Ho|now left].
Qed.

(** X13.  The cache of a migrated source is found under its new id: when
    the cache file named after the old id exists, none is named after the
    new id, the rename of the one to the other does not fail, and the other
    entries of the map concern other files, then after
    [migrateSourceCacheFiles] the content is under the new name and the old
    name is gone. *)
Theorem migrateSourceCacheFiles_renames
    (cacheDir : string) (idMap : IdMap) (st : Disk) (oldId newId data : string) :
  (oldId, newId) ∈ idMap ->
  (forall other, other ∈ idMap ->
     other = (oldId, newId) \/ Apart join cacheDir (oldId, newId) other) ->
  renameError (cacheFile cacheDir oldId) (cacheFile cacheDir newId) = None ->
  files st !! cacheFile cacheDir oldId = Some data ->
  files st !! cacheFile cacheDir newId = None ->
  let st' := migrateSourceCacheFiles cacheDir idMap st in
  files st' !! cacheFile cacheDir newId = Some data
  /\ files st' !! cacheFile cacheDir oldId = None.
Proof.
  cbn zeta. unfold MigrationFiles.migrateSourceCacheFiles.
  revert st. induction idMap as [|other rest IH]; intros st Hin Hall Hok Ho Hn.
  - now apply not_elem_of_nil in Hin.
  - cbn [fold_left].
    destruct (Hall other (list_elem_of_here _ _)) as [->|Ha].
    + apply (renamed_stays cacheDir (oldId, newId) data rest).
      * intros e He. apply Hall. now apply list_elem_of_further.
      * unfold MigrationFiles.renameCacheFile, existsSync, rename.
        fold (cacheFile cacheDir oldId). fold (cacheFile cacheDir newId).
        rewrite Ho, Hn, Hok.
        rewrite bool_decide_eq_true_2 by eauto.
        rewrite bool_decide_eq_false_2 by (intros [? ?]; discriminate).
        cbn. apply lookup_insert_eq.
      * unfold MigrationFiles.renameCacheFile, existsSync, rename.
        fold (cacheFile cacheDir oldId). fold (cacheFile cacheDir newId).
        rewrite Ho, Hn, Hok.
        rewrite bool_decide_eq_true_2 by eauto.
        rewrite bool_decide_eq_false_2 by (intros [? ?]; discriminate).
        cbn. rewrite lookup_insert_ne by congruence. apply lookup_delete_eq.
    + apply elem_of_cons in Hin as [Hin|Hin].
      { exfalso. subst other. destruct Ha as (Ha & _). now apply Ha. }
      apply IH.
      * exact Hin.
      * intros e He. apply Hall. now apply list_elem_of_further.
      * exact Hok.
      * rewrite (renameCacheFile_apart _ (oldId, newId) _ _ _ Ha); [exact Ho|now left].
      * rewrite (renameCacheFile_apart _ (oldId, newId) _ _ _ Ha); [exact Hn|now right].
Qed.

End WithFileSystem.

(** The cache of the sample's migrated source. *)
Example migrateSourceCacheFiles_sample :
  let st' :=
    MigrationFiles.migrateSourceCacheFiles Samples.join Samples.neverFails "cache"
      Samples.migratedIds Samples.cacheDisk in
  files st' !! "cache/github-2bbe3751c8d5.json" = Some "cached bundles"
  /\ files st' !! "cache/github-5ed19c768f41.json" = None
  /\ files st' !! "cache/my-custom-source.json" = Some "other bundles"
  /\ map text (logger st')
     = ["Renamed cache file: github-5ed19c768f41.json -> github-2bbe3751c8d5.json"].
Proof. vm_compute. repeat split. Qed.

Lemma migrateSourceCacheFiles_renames_witness :
  let st' :=
    MigrationFiles.migrateSourceCacheFiles Samples.join Samples.neverFails "cache"
      Samples.migratedIds Samples.cacheDisk in
  files st' !! "cache/github-2bbe3751c8d5.json" = Some "cached bundles"
  /\ files st' !! "cache/github-5ed19c768f41.json" = None.
Proof.
  apply (migrateSourceCacheFiles_renames Samples.join Samples.neverFails "cache"
           Samples.migratedIds Samples.cacheDisk
           "github-5ed19c768f41" "github-2bbe3751c8d5" "cached bundles").
  - apply list_elem_of_here.
  - intros other Hin. left. apply list_elem_of_singleton in Hin. exact Hin.
  - reflexivity.
  - vm_compute. reflexivity.
  - vm_compute. reflexivity.
Defined.

Section WithRecords.

Variable join : string -> string -> string.
Variable readdir : string -> option (list string).
Variable readError : string -> JsError.
Variable jsonParse : string -> option Olaf.Json.
Variable syntaxError : string -> JsError.
Variable jsonStringify : Olaf.Json -> string.
Variable writeError : string -> option JsError.

Abbreviation migrateRecord :=
  (MigrationFiles.migrateRecord join readError jsonParse syntaxError jsonStringify
     writeError).
Abbreviation migrateInstallationRecords :=
  (MigrationFiles.migrateInstallationRecords join readdir readError jsonParse syntaxError
     jsonStringify writeError).

Lemma lookupField_setField key value fields :
  Olaf.lookupField key (setField key value fields) = Some value.
Proof.
  induction fields as [|[k v] rest IH]; cbn.
  - now rewrite String.eqb_refl.
  - destruct (String.eqb k key) eqn:E; cbn; rewrite E; [reflexivity|exact IH].
Qed.

(** One iteration either leaves the files alone or rewrites a record that
    names an old id, with the new id in its place. *)
Lemma migrateRecord_cases installDir idMap file st :
  files (migrateRecord installDir idMap file st) = files st
  \/ exists data fields oldId newId,
       endsWith ".json" file = true
       /\ files st !! join installDir file = Some data
       /\ jsonParse data = Some (Olaf.JObject fields)
       /\ Olaf.lookupField "sourceId" fields = Some (Olaf.JString oldId)
       /\ oldId <> ""
       /\ mapGet oldId idMap = Some newId
       /\ writeError (join installDir file) = None
       /\ migrateRecord installDir idMap file st
          = mkDisk (<[join installDir file := jsonStringify (withSourceId newId fields)]>
                      (files st))
              (logger st ++
               [mkLog Debug ("Updated sourceId in installation record: " +:+ file) None]).
Proof.
  unfold MigrationFiles.migrateRecord.
  destruct (endsWith ".json" file) eqn:Ejson; cbn [negb]; [|now left].
  destruct (files st !! join installDir file) as [data|] eqn:Edata; [|now left].
  destruct (jsonParse data) as [record|] eqn:Eparse; [|now left].
  destruct (Olaf.member "sourceId" record) as [sourceId|e] eqn:Emem; [|now left].
  destruct record as [| | | |items|fields]; try (now left).
  destruct sourceId as [[| | |oldId| |]|]; try (now left).
  destruct (String.eqb_spec oldId "") as [->|Hne]; cbn [negb]; [now left|].
  destruct (mapGet oldId idMap) as [newId|] eqn:Eget; [|now left].
  destruct (writeError (join installDir file)) eqn:Ew; [now left|].
  right. exists data, fields, oldId, newId.
  cbn in Emem. injection Emem as Emem.
  repeat split; assumption || reflexivity.
Qed.

Lemma mapGet_elem oldId newId (idMap : IdMap) :
  mapGet oldId idMap = Some newId -> (oldId, newId) ∈ idMap.
Proof.
  induction idMap as [|[k v] rest IH]; [discriminate|]. cbn.
  destruct (String.eqb_spec k oldId) as [->|Hne].
  - intros [= ->]. apply list_elem_of_here.
  - intros H. apply list_elem_of_further, IH, H.
Qed.

(** The invariant of the loop over the listed names. *)
Lemma records_invariant installDir idMap (listed : list string) :
  forall names st,
  (forall file, file ∈ names -> file ∈ listed) ->
  let st' := fold_left (fun st file => migrateRecord installDir idMap file st) names st in
  (forall p, is_Some (files st' !! p) <-> is_Some (files st !! p))
  /\ (forall p,
        files st' !! p = files st !! p
        \/ exists file fields oldId newId,
             file ∈ listed /\ endsWith ".json" file = true
             /\ p = join installDir file
             /\ (oldId, newId) ∈ idMap
             /\ Olaf.lookupField "sourceId" fields = Some (Olaf.JString newId)
             /\ files st' !! p = Some (jsonStringify (Olaf.JObject fields))).
Proof.
  cbn zeta. induction names as [|file rest IH]; intros st Hsub.
  - cbn. split; [reflexivity|]. intros p. now left.
  - cbn [fold_left].
    destruct (IH (migrateRecord installDir idMap file st)) as [Hdom Hcont].
    { intros f Hf. apply Hsub. now apply list_elem_of_further. }
    destruct (migrateRecord_cases installDir idMap file st)
      as [Hsame|(data & fields & oldId & newId & Hj & Hd & Hp & Hl & Hne & Hg & Hw & Hst)].
    + rewrite Hsame in *. split; [exact Hdom|exact Hcont].
    + split.
      * intros p. rewrite Hdom, Hst. cbn [files].
        rewrite lookup_insert_is_Some. split.
        -- intros [<-|[_ H]]; [eauto|exact H].
        -- intros H. destruct (decide (join installDir file = p)); [now left|now right].
      * intros p. destruct (Hcont p) as [Hkeep|Hnew]; [|right; exact Hnew].
        destruct (decide (join installDir file = p)) as [<-|Hother].
        -- right. exists file, (setField "sourceId" (Olaf.JString newId) fields), oldId, newId.
           split; [apply Hsub, list_elem_of_here|]. split; [exact Hj|].
           split; [reflexivity|]. split; [now apply mapGet_elem|].
           split; [apply lookupField_setField|].
           rewrite Hkeep, Hst. cbn [files]. apply lookup_insert_eq.
        -- left. rewrite Hkeep, Hst. cbn [files]. now rewrite lookup_insert_ne.
Qed.

(** X14.  Updating the installation records creates and deletes no file,
    and changes only files of the installation directory whose name ends
    in [.json]: whatever it has changed holds the serialization of a record
    whose [sourceId] is a new id of the map.  When the directory cannot be
    listed nothing is changed and nothing is logged, and with an empty map
    no file is changed. *)
Theorem migrateInstallationRecords_rewrites_only_records
    (installDir : string) (idMap : IdMap) (st : Disk) :
  let st' := migrateInstallationRecords installDir idMap st in
  (forall p, is_Some (files st' !! p) <-> is_Some (files st !! p))
  /\ (forall p,
        files st' !! p = files st !! p
        \/ exists names file fields oldId newId,
             readdir installDir = Some names
             /\ file ∈ names /\ endsWith ".json" file = true
             /\ p = join installDir file
             /\ (oldId, newId) ∈ idMap
             /\ Olaf.lookupField "sourceId" fields = Some (Olaf.JString newId)
             /\ files st' !! p = Some (jsonStringify (Olaf.JObject fields)))
  /\ (readdir installDir = None -> st' = st)
  /\ (idMap = [] -> files st' = files st).
Proof.
  cbn zeta. unfold MigrationFiles.migrateInstallationRecords.
  destruct (readdir installDir) as [names|] eqn:Edir.
  - destruct (records_invariant installDir idMap names names st) as [Hdom Hcont];
      [auto|].
    split; [exact Hdom|]. split; [|split; [discriminate|]].
    + intros p. destruct (Hcont p) as [H|(file & fields & oldId & newId & H)];
        [now left|right].
      exists names, file, fields, oldId, newId. tauto.
    + intros ->. clear Hdom Hcont Edir. revert st.
      induction names as [|file rest IH]; intros st; [reflexivity|].
      cbn [fold_left]. rewrite IH.
      destruct (migrateRecord_cases installDir [] file st)
        as [Hsame|(data & fields & oldId & newId & _ & _ & _ & _ & _ & Hg & _)];
        [exact Hsame|discriminate Hg].
  - split; [reflexivity|]. split; [intros p; now left|]. split; reflexivity.
Qed.

(** An iteration changes no file but the one it visits. *)
Lemma migrateRecord_other installDir idMap file st p :
  p <> join installDir file ->
  files (migrateRecord installDir idMap file st) !! p = files st !! p.
Proof.
  intros Hne.
  destruct (migrateRecord_cases installDir idMap file st)
    as [->|(data & fields & oldId & newId & _ & _ & _ & _ & _ & _ & _ & ->)];
    [reflexivity|].
  cbn [files]. now rewrite lookup_insert_ne.
Qed.

Lemma records_other installDir idMap names p :
  forall st,
  p ∉ map (join installDir) names ->
  files (fold_left (fun st file => migrateRecord installDir idMap file st) names st) !! p
  = files st !! p.
Proof.
  induction names as [|file rest IH]; intros st Hp; [reflexivity|].
  cbn [fold_left]. cbn [map] in Hp. apply not_elem_of_cons in Hp as [Hne Hrest].
  rewrite (IH _ Hrest). now apply migrateRecord_other.
Qed.

Lemma migrateRecord_updates installDir idMap file st data fields oldId newId :
  endsWith ".json" file = true ->
  files st !! join installDir file = Some data ->
  jsonParse data = Some (Olaf.JObject fields) ->
  Olaf.lookupField "sourceId" fields = Some (Olaf.JString oldId) ->
  oldId <> "" ->
  mapGet oldId idMap = Some newId ->
  writeError (join installDir file) = None ->
  files (migrateRecord installDir idMap file st) !! join installDir file
  = Some (jsonStringify (withSourceId newId fields)).
Proof.
  intros Hj Hd Hp Hl Hne Hg Hw. unfold MigrationFiles.migrateRecord.
  rewrite Hj. cbn [negb]. rewrite Hd, Hp. cbn [Olaf.member Olaf.optionalMember].
  rewrite Hl. destruct (String.eqb_spec oldId "") as [E|_]; [contradiction|].
  cbn [negb]. rewrite Hg, Hw. cbn [files]. apply lookup_insert_eq.
Qed.

(** X15.  An installation record that names a migrated id is rewritten:
    when the directory lists the file once, under a name ending in [.json],
    the file parses to an object whose [sourceId] is a non-empty old id of
    the map, and writing it does not fail, then afterwards the file holds
    the serialization of the same record with the new id as [sourceId]. *)
Theorem migrateInstallationRecords_updates
    (installDir : string) (idMap : IdMap) (st : Disk) (names : list string)
    (file data : string) (fields : list (string * Olaf.Json)) (oldId newId : string) :
  readdir installDir = Some names ->
  file ∈ names ->
  NoDup (map (join installDir) names) ->
  endsWith ".json" file = true ->
  files st !! join installDir file = Some data ->
  jsonParse data = Some (Olaf.JObject fields) ->
  Olaf.lookupField "sourceId" fields = Some (Olaf.JString oldId) ->
  oldId <> "" ->
  mapGet oldId idMap = Some newId ->
  writeError (join installDir file) = None ->
  files (migrateInstallationRecords installDir idMap st) !! join installDir file
  = Some (jsonStringify (withSourceId newId fields))
  /\ Olaf.optionalMember "sourceId" (withSourceId newId fields)
     = Some (Olaf.JString newId).
Proof.
  intros Hdir Hin Hnd Hj Hd Hp Hl Hne Hg Hw.
  split; [|apply lookupField_setField].
  unfold MigrationFiles.migrateInstallationRecords. rewrite Hdir.
  apply list_elem_of_split in Hin as (l1 & l2 & ->).
  rewrite map_app in Hnd. cbn [map] in Hnd.
  apply NoDup_app in Hnd as (_ & Hl1 & Hnd2).
  apply NoDup_cons in Hnd2 as [Hl2 _].
  rewrite fold_left_app. cbn [fold_left].
  rewrite records_other by exact Hl2.
  apply migrateRecord_updates with (data := data) (oldId := oldId); try assumption.
  rewrite records_other; [exact Hd|].
  intros Hin1. apply (Hl1 _ Hin1). apply list_elem_of_here.
Qed.

End WithRecords.

Abbreviation sampleMigrateInstallationRecords :=
  (MigrationFiles.migrateInstallationRecords Samples.join Samples.installListing
     Samples.recordReadError Samples.recordParse Samples.recordSyntaxError
     Samples.recordStringify Samples.writable).

(** The records of the sample: one is rewritten, one names another source,
    and the file that is no record is not read. *)
Example migrateInstallationRecords_sample :
  let st' := sampleMigrateInstallationRecords "installed" Samples.migratedIds
               Samples.installDisk in
  files st' !! "installed/review.json" = Some "record of github-2bbe3751c8d5"
  /\ files st' !! "installed/plan.json" = Some "plan-record"
  /\ files st' !! "installed/notes.txt" = Some "remember"
  /\ map text (logger st') = ["Updated sourceId in installation record: review.json"].
Proof. vm_compute. repeat split. Qed.

Lemma migrateInstallationRecords_updates_witness :
  files (sampleMigrateInstallationRecords "installed" Samples.migratedIds
           Samples.installDisk) !! "installed/review.json"
  = Some "record of github-2bbe3751c8d5".
Proof.
  refine (proj1 (migrateInstallationRecords_updates Samples.join Samples.installListing
           Samples.recordReadError Samples.recordParse Samples.recordSyntaxError
           Samples.recordStringify Samples.writable
           "installed" Samples.migratedIds Samples.installDisk
           ["review.json"; "plan.json"; "notes.txt"] "review.json" "review-record"
           [("bundleId", Olaf.JString "review");
            ("sourceId", Olaf.JString "github-5ed19c768f41")]
           "github-5ed19c768f41" "github-2bbe3751c8d5" _ _ _ _ _ _ _ _ _ _)).
  - reflexivity.
  - apply list_elem_of_here.
  - apply (bool_decide_unpack _). vm_compute. exact I.
  - reflexivity.
  - vm_compute. reflexivity.
  - reflexivity.
  - reflexivity.
  - discriminate.
  - reflexivity.
  - reflexivity.
Defined.

End MigrationFilesFacts.

(** ** The result objects of the prober *)

Module ProberResultFacts.
Import Prober.

Lemma prefixed_nonempty (a b : string) : a <> "" -> a +:+ b <> "".
Proof. destruct a as [|c a]; [congruence|discriminate]. Qed.

Lemma categorizeError_nonempty e : categorizeError e <> "".
Proof.
  unfold categorizeError.
  repeat match goal with |- context [if ?b then _ else _] => destruct b end;
    try discriminate; now apply prefixed_nonempty.
Qed.

Lemma classify_consistent url c :
  let res := classify url c in
  Prober.url res = url
  /\ statusCode res = Some c
  /\ (accessible res = true <-> severity res = SeveritySuccess)
  /\ (accessible res = true <-> (200 <= c < 300)%N)
  /\ (error res = None <-> severity res <> SeverityError)
  /\ message res <> "".
Proof.
  cbn zeta. unfold classify.
  destruct (N.leb_spec 200 c); destruct (N.ltb_spec c 300); cbn [andb];
    try (cbn; repeat split; try tauto; try discriminate; try lia; fail);
    destruct ((c =? 401)%N || (c =? 403)%N);
    try (cbn; repeat split; try tauto; try discriminate; try lia; fail);
    destruct (c =? 404)%N; cbn;
    repeat split; try tauto; try discriminate; try lia;
    try (intros; now apply prefixed_nonempty).
Qed.

Section WithNetwork.

Variable newURL : string -> option URL.
Variable resolveLocation : string -> string -> option string.
Variable request : Transport -> string -> N -> Reply.

Abbreviation checkUrl := (Prober.checkUrl newURL resolveLocation request).

(** X16.  The result object of [checkUrl] is consistent.  It names the URL
    that was passed in, also when redirects were followed; [accessible] is
    set exactly when the severity is success, which is exactly when there
    is a status code and it lies in [200, 300); [error] is present exactly
    when the severity is error; a result without a status code (no
    response was received) is an error; and the message is never empty. *)
Theorem checkUrl_result_consistent
    (fuel : nat) (url : string) (timeout : option N) (res : UrlCheckResult) :
  snd (checkUrl fuel url timeout) = Fulfilled res ->
  Prober.url res = url
  /\ (accessible res = true <-> severity res = SeveritySuccess)
  /\ (accessible res = true <-> exists c, statusCode res = Some c /\ (200 <= c < 300)%N)
  /\ (error res = None <-> severity res <> SeverityError)
  /\ (statusCode res = None -> severity res = SeverityError)
  /\ message res <> "".
Proof.
  intros Hres. destruct (newURL url) as [parsed|] eqn:Hu.
  - destruct (supported parsed) eqn:Hs.
    + rewrite (ProberFacts.checkUrl_requested _ _ _ _ _ _ _ Hu Hs) in Hres.
      destruct (Prober.makeRequest newURL resolveLocation request fuel url
                  (default defaultTimeout timeout)) as [sent [|c|e]];
        cbn in Hres; try discriminate Hres; injection Hres as <-.
      * destruct (classify_consistent url c) as (H1 & H2 & H3 & H4 & H5 & H6).
        split; [exact H1|]. split; [exact H3|]. split; [|split; [exact H5|split]].
        -- rewrite H4, H2. split; [intros H; now exists c|].
           now intros (c' & [= <-] & H).
        -- rewrite H2. discriminate.
        -- exact H6.
      * cbn. split; [reflexivity|]. split; [split; discriminate|].
        split; [split; [discriminate|intros (c & H & _); discriminate H]|].
        split; [split; [discriminate|intros H; now contradiction H]|].
        split; [reflexivity|apply categorizeError_nonempty].
    + rewrite (ProberFacts.checkUrl_unsupported _ _ _ _ _ _ _ Hu Hs) in Hres.
      injection Hres as <-. cbn.
      split; [reflexivity|]. split; [split; discriminate|].
      split; [split; [discriminate|intros (c & H & _); discriminate H]|].
      split; [split; [discriminate|intros H; now contradiction H]|].
      split; [reflexivity|discriminate].
  - rewrite (ProberFacts.checkUrl_unparsed _ _ _ _ _ _ Hu) in Hres.
    injection Hres as <-. cbn.
    split; [reflexivity|]. split; [split; discriminate|].
    split; [split; [discriminate|intros (c & H & _); discriminate H]|].
    split; [split; [discriminate|intros H; now contradiction H]|].
    split; [reflexivity|discriminate].
Qed.

End WithNetwork.

Lemma checkUrl_result_consistent_witness :
  exists res,
    snd (Prober.checkUrl Samples.newURL Samples.resolveLocation Samples.request 1
           "https://example.com/hub" None) = Fulfilled res
    /\ Prober.url res = "https://example.com/hub"
    /\ message res <> "".
Proof.
  eexists. split; [vm_compute; reflexivity|].
  destruct (checkUrl_result_consistent Samples.newURL Samples.resolveLocation
              Samples.request 1 "https://example.com/hub" None _ eq_refl)
    as (H1 & _ & _ & _ & _ & H6).
  exact (conj H1 H6).
Defined.

End ProberResultFacts.

(** ** Command parameters *)

Module CommandFacts.
Import Command.

Lemma hasProp_lookup key props :
  hasProp key (VObject props) = true <-> exists v, lookupProp key props = Some v.
Proof.
  cbn. destruct (lookupProp key props) as [v|].
  - split; [intros _; now exists v|reflexivity].
  - split; [discriminate|]. intros (v & H). discriminate H.
Qed.

Lemma isRegistryTreeItem_spec obj :
  isRegistryTreeItem obj = true
  <-> exists props label type data,
        obj = VObject props
        /\ lookupProp "label" props = Some label
        /\ lookupProp "type" props = Some type
        /\ lookupProp "data" props = Some data.
Proof.
  unfold isRegistryTreeItem. split.
  - destruct obj as [| | | | | |props|props]; try discriminate. cbn [isNull isUndefined
      typeofObject negb andb].
    rewrite !andb_true_iff, !hasProp_lookup.
    intros [[(l & Hl) (t & Ht)] (d & Hd)]. now exists props, l, t, d.
  - intros (props & l & t & d & -> & Hl & Ht & Hd). cbn. now rewrite Hl, Ht, Hd.
Qed.

(** X17.  [extractSourceId] returns a string parameter unchanged; of a tree
    item (an object with [label], [type] and [data]) whose type is
    ['source'] and whose data is truthy it returns [data.id], whatever that
    is (a number or [null] is passed through, a missing id is
    [undefined]); and for every other parameter it returns [undefined]:
    for [undefined] and [null], for numbers, booleans and functions, for
    objects that lack one of the three properties, for items of another
    type and for items without data. *)
Theorem extractSourceId_spec (param : JsValue) :
  (forall s, param = VString s -> extractSourceId param = VString s)
  /\ (forall props label data,
        param = VObject props ->
        lookupProp "label" props = Some label ->
        lookupProp "type" props = Some (VString "source") ->
        lookupProp "data" props = Some data ->
        truthy data = true ->
        extractSourceId param = getProp "id" data)
  /\ (extractSourceId param <> VUndefined ->
        (exists s, param = VString s)
        \/ exists props label data,
             param = VObject props
             /\ lookupProp "label" props = Some label
             /\ lookupProp "type" props = Some (VString "source")
             /\ lookupProp "data" props = Some data
             /\ truthy data = true
             /\ getProp "id" data <> VUndefined)
  /\ (forall label source id,
        truthy source = true -> getProp "id" source = VString id ->
        extractSourceId (sourceItem label source) = extractSourceId (VString id)).
Proof.
  split; [now intros s ->|]. split; [|split].
  - intros props label data -> Hl Ht Hd Htruthy. unfold extractSourceId.
    rewrite (proj2 (isRegistryTreeItem_spec (VObject props)))
      by (now exists props, label, (VString "source"), data).
    cbn [getProp]. rewrite Ht, Hd. cbn [from_option id isSourceType]. cbn.
    now rewrite Htruthy.
  - intros Hdef. unfold extractSourceId in Hdef.
    destruct (isRegistryTreeItem param) eqn:Hitem.
    + apply isRegistryTreeItem_spec in Hitem as (props & l & t & d & -> & Hl & Ht & Hd).
      cbn [getProp] in Hdef. rewrite Ht, Hd in Hdef. cbn [from_option id] in Hdef.
      destruct (isSourceType t) eqn:Hsrc; [|now contradiction Hdef].
      destruct (truthy d) eqn:Htr; cbn [andb] in Hdef; [|now contradiction Hdef].
      right. exists props, l, d.
      destruct t as [| | | | |s| |]; try discriminate Hsrc.
      cbn in Hsrc. apply String.eqb_eq in Hsrc as ->. tauto.
    + destruct param; try (now contradiction Hdef). left. eauto.
  - intros label source id Htr Hid. cbn. now rewrite Htr.
Qed.

(** The parameters of the repository's unit tests. *)
Example extractSourceId_examples :
  extractSourceId (sourceItem "Test Source" (VObject [("id", VString "test-source-id")]))
  = VString "test-source-id"
  /\ extractSourceId (sourceItem "Test Source" (VObject [("id", VNull)])) = VNull
  /\ extractSourceId (sourceItem "Test Source" (VObject [("id", VNumber 12345)]))
     = VNumber 12345
  /\ extractSourceId (sourceItem "Test Source" (VObject [])) = VUndefined
  /\ extractSourceId (sourceItem "Test Source" (VString "invalid-string-data"))
     = VUndefined
  /\ extractSourceId
       (VObject [("label", VString "Test Bundle"); ("type", VString "bundle");
                 ("data", VObject [("id", VString "bundle-id")])]) = VUndefined
  /\ extractSourceId
       (VObject [("label", VString "x"); ("type", VString "source")]) = VUndefined
  /\ extractSourceId (VString "") = VString ""
  /\ extractSourceId VNull = VUndefined.
Proof. repeat split. Qed.

End CommandFacts.

(** ** More on the OLAF adapter *)

Module OlafAdapterFacts.
Import Olaf.

Lemma split_splitOn s : Js.split s = Js.splitOn "/" s.
Proof.
  induction s as [|c r IH]; [reflexivity|]. cbn [Js.split Js.splitOn].
  unfold Js.isSlash. now rewrite IH.
Qed.

Abbreviation slashFree := (Js.allChars (fun c => negb (Ascii.eqb c "/"))).

(** The first piece of a split, and what follows it. *)
Lemma splitOn_head sep s :
  exists a rest,
    Js.splitOn sep s = a :: rest
    /\ Js.allChars (fun c => negb (Ascii.eqb c sep)) a = true
    /\ match rest with
       | [] => s = a
       | _ :: _ => exists t, s = a +:+ String sep t /\ Js.splitOn sep t = rest
       end.
Proof.
  induction s as [|c r IH].
  - exists "", []. repeat split.
  - destruct IH as (a & rest & E & Ha & Hrest). cbn [Js.splitOn].
    destruct (Ascii.eqb_spec c sep) as [->|Hne].
    + exists "", (a :: rest). split; [now rewrite E|]. split; [reflexivity|].
      exists r. split; [reflexivity|exact E].
    + rewrite E. exists (String c a), rest. split; [reflexivity|]. split.
      * cbn. rewrite Ha. destruct (Ascii.eqb_spec c sep); [contradiction|reflexivity].
      * destruct rest as [|b rest'].
        -- now rewrite Hrest.
        -- destruct Hrest as (t & -> & Ht). exists t. now rewrite JsFacts.append_cons.
Qed.

Section WithPlatform.

Variable newURL : string -> option URL.
Variable encodeURIComponent : string -> string.
Variable jsonParse : string -> option Json.
Variable toStr : Json -> string.
Variable httpsGet : string -> Headers -> HttpReply.
Variable isValidUrl : string -> bool.
Variable errorToString : JsError -> string.

Abbreviation parseGitHubUrl := (Olaf.parseGitHubUrl newURL).
Abbreviation fetchGitTree := (Olaf.fetchGitTree encodeURIComponent jsonParse toStr httpsGet).
Abbreviation fetchFresh :=
  (Olaf.fetchFresh newURL encodeURIComponent jsonParse toStr httpsGet).
Abbreviation fetchBundles :=
  (Olaf.fetchBundles newURL encodeURIComponent jsonParse toStr httpsGet).
Abbreviation fetchMetadata :=
  (Olaf.fetchMetadata newURL encodeURIComponent jsonParse toStr httpsGet).
Abbreviation validate :=
  (Olaf.validate newURL encodeURIComponent jsonParse toStr httpsGet isValidUrl
     errorToString).

Lemma parseGitHubUrl_message (url : string) (e : JsError) :
  parseGitHubUrl url = Threw e -> e = mkError "Invalid GitHub URL" None.
Proof.
  unfold Olaf.parseGitHubUrl. destruct (newURL url) as [u|]; [|now intros [= <-]].
  destruct (_ || _); [now intros [= <-]|discriminate].
Qed.

(** X18.  [parseGitHubUrl] fails with the one message [Invalid GitHub URL],
    whatever the reason: the message about github.com being the only host
    supported is thrown inside the [try] and never leaves it.  When it
    succeeds, the URL parses, its host is [github.com], and owner and
    repository are the first two segments of the path (without the leading
    slash and a final [.git]); neither contains a slash, and the
    repository is empty for a path such as [/owner/].  It succeeds for
    every URL on github.com whose path has a slash after the leading
    one. *)
Theorem parseGitHubUrl_spec (url : string) :
  (forall e, parseGitHubUrl url = Threw e -> e = mkError "Invalid GitHub URL" None)
  /\ (forall owner repo, parseGitHubUrl url = Returned (owner, repo) ->
        exists u rest,
          newURL url = Some u
          /\ hostname u = "github.com"
          /\ Js.dropGitSuffix (Js.dropLeadingSlash (pathname u))
             = owner +:+ "/" +:+ repo +:+ rest
          /\ (rest = "" \/ Js.startsWith "/" rest = true)
          /\ slashFree owner = true
          /\ slashFree repo = true)
  /\ (forall u a b,
        newURL url = Some u -> hostname u = "github.com" ->
        Js.dropGitSuffix (Js.dropLeadingSlash (pathname u)) = a +:+ "/" +:+ b ->
        exists owner repo, parseGitHubUrl url = Returned (owner, repo)).
Proof.
  unfold Olaf.parseGitHubUrl. destruct (newURL url) as [u|] eqn:Hu.
  - rewrite split_splitOn.
    set (path := Js.dropGitSuffix (Js.dropLeadingSlash (pathname u))).
    destruct (String.eqb_spec (hostname u) "github.com") as [Hh|Hh]; cbn [negb orb].
    + destruct (splitOn_head "/" path) as (owner & rest & E & Ho & Hrest).
      rewrite E. destruct rest as [|second rest]; cbn [length Nat.ltb Nat.leb].
      * split; [now intros e [= <-]|]. split; [discriminate|].
        intros u' a b [= <-] _ Hpath. exfalso.
        assert (H2 : 2 <= length (Js.splitOn "/" path)).
        { apply StringFacts.splitOn_several. exists a, b. exact Hpath. }
        rewrite E in H2. cbn in H2. lia.
      * split; [discriminate|]. split; [|intros; eauto].
        intros owner' repo' [= <- <-].
        destruct Hrest as (t & Hpath & Ht).
        destruct (splitOn_head "/" t) as (repo & rest' & E' & Hr & Hrest').
        rewrite E' in Ht. injection Ht as <- <-.
        destruct rest' as [|third rest''].
        -- exists u, "". fold path. rewrite Hpath, Hrest', JsFacts.append_empty_r.
           repeat split; auto.
        -- destruct Hrest' as (t' & -> & _). exists u, (String "/" t').
           fold path. rewrite Hpath. repeat split; auto.
    + split; [now intros e [= <-]|]. split; [discriminate|].
      intros u' a b [= <-] Hh'. contradiction.
  - split; [now intros e [= <-]|]. split; [discriminate|]. discriminate.
Qed.

Example parseGitHubUrl_examples :
  Olaf.parseGitHubUrl Samples.olafURL "https://github.com/acme/olaf"
  = Returned ("acme", "olaf")
  /\ Olaf.parseGitHubUrl Samples.newURL "https://example.com/hub"
     = Threw (mkError "Invalid GitHub URL" None)
  /\ Olaf.parseGitHubUrl Samples.newURL "not a url"
     = Threw (mkError "Invalid GitHub URL" None).
Proof. repeat split. Qed.

Lemma fetchBundles_fresh a clk log :
  (forall ts cached, cache a = Some (ts, cached) -> (now clk - ts < CACHE_TTL)%Z ->
     fetchBundles a clk log = (cached, a, log)).
Proof.
  intros ts cached Hc Hlt. unfold Olaf.fetchBundles. cbn zeta. rewrite Hc.
  destruct (Z.ltb_spec (now clk - ts) CACHE_TTL); [reflexivity|lia].
Qed.

Lemma fetchBundles_stale a clk log :
  Stale a clk ->
  fetchBundles a clk log
  = match fetchFresh a clk log with
    | Returned r => r
    | Threw error =>
        ([placeholder a clk], a,
         log ++ [mkLog Error "Failed to fetch OLAF competencies" (Some error)])
    end.
Proof.
  intros Hs. unfold Olaf.fetchBundles. cbn zeta. unfold Stale in Hs.
  destruct (cache a) as [[ts cached]|]; [|reflexivity].
  destruct (Z.ltb_spec (now clk - ts) CACHE_TTL); [lia|reflexivity].
Qed.

Lemma fetchFresh_caches a clk log bs a' log' :
  fetchFresh a clk log = Returned (bs, a', log') ->
  a' = mkAdapter (source a) (config a) (authToken a) (Some (now clk, bs)).
Proof.
  unfold Olaf.fetchFresh.
  destruct (Olaf.parseGitHubUrl newURL (url (source a))) as [[owner repo]|]; [|discriminate].
  destruct (Olaf.fetchGitTree _ _ _ _ a owner repo _); [|discriminate].
  destruct (locate a _); [|discriminate].
  now intros [= <- <- <-].
Qed.

(** X19.  The cache of [fetchBundles].  A call within five minutes of the
    cache's time stamp returns the cached bundles and changes neither the
    adapter nor the log, whatever the network would answer.  A call that
    fetches successfully caches what it returns under the current time, so
    that a second call less than five minutes later returns the same
    bundles.  A call that fails returns the placeholder, logs an error and
    leaves the adapter as it was: the placeholder is never cached, and the
    next call tries the network again. *)
Theorem fetchBundles_cache (a : Adapter) (clk : Clock) (log : list LogEntry) :
  (forall ts cached, cache a = Some (ts, cached) -> (now clk - ts < CACHE_TTL)%Z ->
     fetchBundles a clk log = (cached, a, log))
  /\ (forall bs a' log',
        Stale a clk -> fetchFresh a clk log = Returned (bs, a', log') ->
        fetchBundles a clk log = (bs, a', log')
        /\ cache a' = Some (now clk, bs)
        /\ forall clk2 log2, (now clk2 - now clk < CACHE_TTL)%Z ->
             fetchBundles a' clk2 log2 = (bs, a', log2))
  /\ (forall e,
        Stale a clk -> fetchFresh a clk log = Threw e ->
        fetchBundles a clk log
        = ([placeholder a clk], a,
           log ++ [mkLog Error "Failed to fetch OLAF competencies" (Some e)])).
Proof.
  split; [apply fetchBundles_fresh|]. split.
  - intros bs a' log' Hs Hf. rewrite (fetchBundles_stale _ _ _ Hs), Hf.
    split; [reflexivity|]. rewrite (fetchFresh_caches _ _ _ _ _ _ Hf). cbn [cache].
    split; [reflexivity|]. intros clk2 log2 Hlt.
    now apply fetchBundles_fresh with (ts := now clk).
  - intros e Hs Hf. now rewrite (fetchBundles_stale _ _ _ Hs), Hf.
Qed.

(** X20.  [fetchMetadata] reports the name of the source and as its bundle
    count the number of bundles that [fetchBundles] returns: the number of
    cached bundles while the cache is fresh, and one, the placeholder, when
    the repository cannot be listed, in which case the adapter is left as
    it was and one error is logged. *)
Theorem fetchMetadata_counts (a : Adapter) (clk later : Clock) (log : list LogEntry) :
  let result := fetchMetadata a clk later log in
  let meta := fst (fst result) in
  metadataName meta = name (source a)
  /\ metadataDescription meta = "OLAF competencies native source"
  /\ metadataVersion meta = "1.0.0"
  /\ metadataLastUpdated meta = isoNow later
  /\ bundleCount meta = length (fst (fst (fetchBundles a clk log)))
  /\ snd (fst result) = snd (fst (fetchBundles a clk log))
  /\ snd result = snd (fetchBundles a clk log)
  /\ (forall ts cached, cache a = Some (ts, cached) -> (now clk - ts < CACHE_TTL)%Z ->
        bundleCount meta = length cached)
  /\ (forall e, Stale a clk -> fetchFresh a clk log = Threw e ->
        bundleCount meta = 1
        /\ snd (fst result) = a
        /\ snd result
           = log ++ [mkLog Error "Failed to fetch OLAF competencies" (Some e)]).
Proof.
  cbn zeta. unfold Olaf.fetchMetadata.
  destruct (fetchBundles a clk log) as [[bs a'] log'] eqn:E. cbn.
  do 7 (split; [reflexivity|]). split.
  - intros ts cached Hc Hlt. rewrite (fetchBundles_fresh _ _ _ _ _ Hc Hlt) in E.
    now injection E as <- _ _.
  - intros e Hs Hf. rewrite (fetchBundles_stale _ _ _ Hs), Hf in E.
    now injection E as <- <- <-.
Qed.

(** X21.  [validate] never throws, and the source is valid exactly when
    its URL passes [isValidUrl]: the only error is [Invalid repository
    URL].  A repository that cannot be reached, or a URL that is not a
    GitHub URL, gives one warning and no error, and there is no warning
    exactly when the tree of the configured branch could be fetched. *)
Theorem validate_spec (a : Adapter) :
  let result := validate a in
  valid result = isValidUrl (url (source a))
  /\ (valid result = true <-> errors result = [])
  /\ (forall m, m ∈ errors result -> m = "Invalid repository URL")
  /\ length (warnings result) <= 1
  /\ (warnings result = []
      <-> exists owner repo tree,
            parseGitHubUrl (url (source a)) = Returned (owner, repo)
            /\ fetchGitTree a owner repo (branch (config a)) = Returned tree)
  /\ (forall e, parseGitHubUrl (url (source a)) = Threw e ->
        warnings result = ["Could not access repo/branch yet: Invalid GitHub URL"]).
Proof.
  cbn zeta. unfold Olaf.validate. cbn [valid errors warnings].
  split; [now destruct (isValidUrl _)|]. split; [now destruct (isValidUrl _)|]. split.
  { destruct (isValidUrl _); cbn; intros m Hm.
    - now apply not_elem_of_nil in Hm.
    - now apply list_elem_of_singleton in Hm. }
  destruct (Olaf.parseGitHubUrl newURL (url (source a))) as [[owner repo]|e] eqn:Hp.
  - destruct (Olaf.fetchGitTree encodeURIComponent jsonParse toStr httpsGet a owner repo
                (branch (config a))) as [tree|e] eqn:Ht.
    + split; [cbn; lia|]. split; [|discriminate].
      split; [intros _; now exists owner, repo, tree|reflexivity].
    + split; [cbn; lia|]. split; [|discriminate].
      split; [discriminate|]. intros (o & r & t & [= <- <-] & H). congruence.
  - split; [cbn; lia|]. split.
    + split; [discriminate|]. intros (o & r & t & H & _). discriminate H.
    + intros e' [= <-]. rewrite (parseGitHubUrl_message _ _ Hp). reflexivity.
Qed.

(** *** No competency is listed twice *)

Lemma addDir_NoDup dir dirs : NoDup dirs -> NoDup (addDir dir dirs).
Proof.
  intros H. unfold addDir. destruct (bool_decide_reflect (dir ∈ dirs)) as [Hin|Hn];
    [exact H|].
  apply NoDup_app. split; [exact H|]. split; [|apply NoDup_singleton].
  intros x Hx Hx'. apply list_elem_of_singleton in Hx'. now subst x.
Qed.

Lemma scanNode_NoDup base node dirs dirs' :
  NoDup dirs -> scanNode base node dirs = Returned dirs' -> NoDup dirs'.
Proof.
  intros H. unfold scanNode. destruct (member "type" node) as [[[]|]|]; try discriminate;
    try (now intros [= <-]).
  destruct (String.eqb _ "blob"); [|now intros [= <-]].
  destruct (optionalMember "path" node) as [[]|]; try discriminate.
  destruct (_ && _); intros [= <-]; [now apply addDir_NoDup|exact H].
Qed.

Lemma scanTree_NoDup base nodes :
  forall dirs dirs', NoDup dirs -> scanTree base nodes dirs = Returned dirs' -> NoDup dirs'.
Proof.
  induction nodes as [|node rest IH]; intros dirs dirs' H; cbn [scanTree].
  - now intros [= <-].
  - destruct (scanNode base node dirs) as [dirs1|] eqn:E; [|discriminate].
    apply IH. eapply scanNode_NoDup; eassumption.
Qed.

Lemma locate_NoDup a tree located : locate a tree = Returned located -> NoDup located.
Proof.
  unfold locate. destruct (member "tree" tree) as [nodes|]; [|discriminate].
  destruct (iterate nodes) as [items|]; [|discriminate].
  destruct (scanTree _ items []) as [dirs|] eqn:E; [|discriminate].
  intros [= <-]. apply NoDup_ListNoDup, List.NoDup_filter, NoDup_ListNoDup.
  eapply scanTree_NoDup; [apply NoDup_nil_2|exact E].
Qed.

Lemma append_cancel_l (p x y : string) : p +:+ x = p +:+ y -> x = y.
Proof.
  induction p as [|c p IH]; [trivial|]. rewrite !JsFacts.append_cons.
  intros [= H]. now apply IH.
Qed.

Lemma manifestUrlOf_inj a owner repo dir dir' :
  manifestUrlOf encodeURIComponent a owner repo dir
  = manifestUrlOf encodeURIComponent a owner repo dir' -> dir = dir'.
Proof.
  unfold manifestUrlOf, rawGitHubUrl. intros H.
  repeat apply append_cancel_l in H.
  now apply StringFacts.append_inj_length in H as [H _].
Qed.

Lemma Gathered_sublist a owner repo dirs bs ws :
  Gathered encodeURIComponent jsonParse httpsGet a owner repo dirs bs ws ->
  map manifestUrl bs `sublist_of` map (manifestUrlOf encodeURIComponent a owner repo) dirs.
Proof.
  induction 1 as [|dir dirs manifest b bs ws Hw Hd Hg IH|dir dirs w bs ws Hs Hl Hg IH].
  - constructor.
  - cbn [map]. destruct Hd as (_ & _ & _ & -> & _). now apply sublist_skip.
  - cbn [map]. now apply sublist_cons.
Qed.

(** What every bundle of the adapter carries. *)
Lemma visitDir_stamps a clk owner repo dir st :
  Forall (fun b => sourceId b = id (source a) /\ downloadUrl b = manifestUrl b)
    (bundles st) ->
  Forall (fun b => sourceId b = id (source a) /\ downloadUrl b = manifestUrl b)
    (bundles (Olaf.visitDir encodeURIComponent jsonParse httpsGet a clk owner repo dir st)).
Proof.
  intros H. unfold Olaf.visitDir.
  destruct (Olaf.fetchJson _ _ _ _) as [manifest|]; [|exact H].
  destruct (_ || _); [exact H|]. cbn [bundles].
  apply Forall_app. split; [exact H|]. constructor; [|constructor]. now split.
Qed.

Lemma gather_stamps a clk owner repo dirs :
  forall st,
  Forall (fun b => sourceId b = id (source a) /\ downloadUrl b = manifestUrl b)
    (bundles st) ->
  Forall (fun b => sourceId b = id (source a) /\ downloadUrl b = manifestUrl b)
    (bundles (fold_left
                (fun st dir =>
                   Olaf.visitDir encodeURIComponent jsonParse httpsGet a clk owner repo dir st)
                dirs st)).
Proof.
  induction dirs as [|dir rest IH]; intros st H; [exact H|].
  cbn [fold_left]. apply IH, visitDir_stamps, H.
Qed.

(** X22.  What [fetchBundles] returns when it does not answer from the
    cache lists no competency twice: the manifest URLs of the bundles are
    pairwise different, also when the repository tree names a manifest more
    than once; and every bundle, the placeholder included, carries the id
    of the adapter's source and has its manifest URL as download URL. *)
Theorem fetchBundles_lists_each_manifest_once
    (a : Adapter) (clk : Clock) (log : list LogEntry) :
  Stale a clk ->
  let bs := fst (fst (fetchBundles a clk log)) in
  NoDup (map manifestUrl bs)
  /\ Forall (fun b => sourceId b = id (source a) /\ downloadUrl b = manifestUrl b) bs.
Proof.
  intros Hs. cbn zeta. rewrite (fetchBundles_stale _ _ _ Hs).
  destruct (fetchFresh a clk log) as [[[bs a'] log']|e] eqn:Hf; cbn [fst].
  - unfold Olaf.fetchFresh in Hf.
    destruct (Olaf.parseGitHubUrl newURL (url (source a))) as [[owner repo]|];
      [|discriminate].
    destruct (Olaf.fetchGitTree _ _ _ _ a owner repo _) as [tree|]; [|discriminate].
    destruct (locate a tree) as [located|] eqn:Hloc; [|discriminate].
    injection Hf as <- _ _. split.
    + destruct (OlafFacts.gather_all encodeURIComponent jsonParse httpsGet
                  a clk owner repo located (mkGather [] log)) as (bs & ws & -> & Hg & _).
      cbn [bundles app]. eapply sublist_NoDup; [|eapply Gathered_sublist, Hg].
      assert (Hinj : Inj eq eq (manifestUrlOf encodeURIComponent a owner repo))
        by (intros x y; apply manifestUrlOf_inj).
      apply (NoDup_fmap_2 _). eapply locate_NoDup, Hloc.
    + apply gather_stamps. constructor.
  - split.
    + apply NoDup_singleton.
    + constructor; [|constructor]. now split.
Qed.

End WithPlatform.

(** The sample repository names four manifests; one bundle comes of it. *)
Lemma fetchBundles_lists_each_manifest_once_witness :
  NoDup (map manifestUrl
           (fst (fst (Olaf.fetchBundles Samples.olafURL Samples.encodeURIComponent
                        Samples.jsonParse Samples.toStr Samples.httpsGet
                        Samples.olafAdapter Samples.olafClock [])))).
Proof.
  exact (proj1 (fetchBundles_lists_each_manifest_once Samples.olafURL
                  Samples.encodeURIComponent Samples.jsonParse Samples.toStr
                  Samples.httpsGet Samples.olafAdapter Samples.olafClock [] I)).
Defined.

End OlafAdapterFacts.

(** ** Validation of a hub configuration *)

Module HubValidationFacts.
Import HubValidation.

Lemma fold_checkBundle ids who bs :
  forall errs,
  fold_left (checkBundle ids who) bs errs
  = errs ++ flat_map (fun bundle => checkBundle ids who [] bundle) bs.
Proof.
  induction bs as [|b rest IH]; intros errs; cbn [fold_left flat_map].
  - now rewrite app_nil_r.
  - rewrite IH, app_assoc. f_equal. unfold checkBundle.
    destruct (negb (Js.truthy (bundleSource b))); [reflexivity|].
    destruct (negb (bool_decide _)); [reflexivity|now rewrite app_nil_r].
Qed.

Lemma fold_checkProfile ids nameOf ps :
  forall errs,
  fold_left (checkProfile ids nameOf) ps errs
  = errs ++ flat_map (fun profile => checkProfile ids nameOf [] profile) ps.
Proof.
  induction ps as [|p rest IH]; intros errs; cbn [fold_left flat_map].
  - now rewrite app_nil_r.
  - rewrite IH, app_assoc. f_equal. unfold checkProfile.
    destruct (bundles p) as [bs|]; [|now rewrite app_nil_r].
    now rewrite (fold_checkBundle ids _ bs errs), (fold_checkBundle ids _ bs []).
Qed.

Lemma checkBundle_verdict ids (nameOf : Profile -> string) config p b :
  (forall id, id <> "" -> (id ∈ ids <-> id ∈ map sourceId (sourcesOf config))) ->
  checkBundle ids (nameOf p) [] b
  = if resolves config b then [] else [complaint nameOf (p, b)].
Proof.
  intros Hids. unfold checkBundle, resolves, complaint. cbn [fst snd].
  destruct (bundleSource b) as [ref|] eqn:Eb; cbn [Js.truthy from_option id].
  - destruct (String.eqb_spec ref "") as [->|Hne]; cbn [negb andb]; [reflexivity|].
    destruct (bool_decide_reflect (ref ∈ ids)) as [Hin|Hnot].
    + apply (Hids ref Hne) in Hin. rewrite bool_decide_eq_true_2 by exact Hin. reflexivity.
    + rewrite bool_decide_eq_false_2 by (intros H; apply Hnot, (Hids ref Hne), H).
      reflexivity.
  - reflexivity.
Qed.

(** Whatever set of source ids and naming of profiles is used: when the
    set agrees with the configured sources on the non-empty ids, the errors
    are the complaints about the unresolved references, in order. *)
Lemma checkProfiles_spec ids nameOf config :
  (forall id, id <> "" -> (id ∈ ids <-> id ∈ map sourceId (sourcesOf config))) ->
  errors (checkProfiles ids nameOf config) = map (complaint nameOf) (unresolved config)
  /\ warnings (checkProfiles ids nameOf config) = [].
Proof.
  intros Hids. split; [|reflexivity].
  unfold checkProfiles, unresolved, references. cbn [errors].
  destruct (loadedProfiles config) as [ps|]; [|reflexivity]. cbn [from_option id].
  rewrite fold_checkProfile. cbn [app].
  induction ps as [|p rest IH]; [reflexivity|].
  cbn [flat_map]. rewrite List.filter_app, map_app, <- IH. f_equal.
  unfold checkProfile. destruct (bundles p) as [bs|]; [|reflexivity].
  cbn [from_option id]. rewrite fold_checkBundle. cbn [app].
  clear IH. induction bs as [|b more IHb]; [reflexivity|].
  cbn [flat_map map List.filter snd]. rewrite IHb. clear IHb.
  rewrite (checkBundle_verdict ids nameOf config p b Hids).
  now destruct (resolves config b).
Qed.

Lemma collected_ids (srcs : list HubSource) ref :
  forall acc : gset string,
    ref ∈ fold_left (fun ids source => ids ∪ {[ sourceId source ]}) srcs acc
    <-> ref ∈ acc \/ ref ∈ map sourceId srcs.
Proof.
  induction srcs as [|s rest IH]; intros acc; cbn [fold_left map].
  - rewrite elem_of_nil. tauto.
  - rewrite IH, elem_of_union, elem_of_singleton, elem_of_cons. tauto.
Qed.

(** The command's set of ids, when there is one, holds the ids of the
    configured sources; there is none exactly when [sources] is a truthy
    value that is no array. *)
Lemma commandSourceIds_spec config :
  match commandSourceIds config with
  | Returned ids =>
      loadedSources config <> NotAnArray
      /\ forall ref, ref ∈ ids <-> ref ∈ map sourceId (sourcesOf config)
  | Threw e => loadedSources config = NotAnArray /\ e = notAFunction
  end.
Proof.
  unfold commandSourceIds, sourcesOf. destruct (loadedSources config) as [|srcs|].
  - split; [discriminate|]. intros ref. cbn [map].
    rewrite elem_of_empty, elem_of_nil. tauto.
  - split; [discriminate|]. intros ref. rewrite collected_ids, elem_of_empty. tauto.
  - split; reflexivity.
Qed.

Lemma scriptSourceIds_spec config ref :
  ref <> "" ->
  (ref ∈ scriptSourceIds config <-> ref ∈ map sourceId (sourcesOf config)).
Proof.
  intros Hne. unfold scriptSourceIds, sourcesOf.
  destruct (loadedSources config) as [|srcs|].
  - cbn [map]. rewrite elem_of_empty, elem_of_nil. tauto.
  - assert (H : forall acc : gset string,
               ref ∈ fold_left
                      (fun ids source =>
                         if negb (String.eqb (sourceId source) "")
                         then ids ∪ {[ sourceId source ]} else ids) srcs acc
               <-> ref ∈ acc \/ ref ∈ map sourceId srcs).
    { induction srcs as [|s rest IH]; intros acc; cbn [fold_left map].
      - rewrite elem_of_nil. tauto.
      - rewrite IH, elem_of_cons.
        destruct (String.eqb_spec (sourceId s) "") as [E|NE]; cbn [negb].
        + rewrite E. split; [tauto|]. intros [H|[H|H]]; [tauto|contradiction|tauto].
        + rewrite elem_of_union, elem_of_singleton. tauto. }
    rewrite H, elem_of_empty. tauto.
  - cbn [map]. rewrite elem_of_empty, elem_of_nil. tauto.
Qed.

Lemma resolves_spec config bundle :
  resolves config bundle = true <-> Resolves config bundle.
Proof.
  unfold resolves, Resolves. rewrite andb_true_iff, ProberFacts.truthy_spec,
    bool_decide_eq_true. split.
  - intros [(id & E & Hne) Hin]. rewrite E in Hin. cbn in Hin.
    apply list_elem_of_fmap in Hin as (source & -> & Hs). now exists (sourceId source), source.
  - intros (id & source & E & Hne & Hs & <-). split; [eauto|].
    rewrite E. cbn. apply list_elem_of_fmap. now exists source.
Qed.

Lemma unresolved_nil config :
  unresolved config = []
  <-> forall reference, reference ∈ references config -> Resolves config (snd reference).
Proof.
  unfold unresolved. split.
  - intros H reference Hin. apply resolves_spec.
    destruct (resolves config (snd reference)) eqn:E; [reflexivity|]. exfalso.
    assert (Hf : reference ∈ List.filter
                   (fun reference => negb (resolves config (snd reference)))
                   (references config)).
    { apply list_elem_of_In, List.filter_In. split; [now apply list_elem_of_In|].
      now rewrite E. }
    rewrite H in Hf. now apply not_elem_of_nil in Hf.
  - intros H. induction (references config) as [|r rest IH]; [reflexivity|].
    cbn [List.filter].
    rewrite (proj2 (resolves_spec config (snd r)) (H r (list_elem_of_here _ _))).
    cbn [negb]. apply IH. intros r' Hr'. apply H. now apply list_elem_of_further.
Qed.

Lemma command_findings config :
  loadedSources config <> NotAnArray ->
  exists found,
    validateProfileSourceReferences config = Returned found
    /\ errors found = map (complaint commandName) (unresolved config)
    /\ warnings found = [].
Proof.
  intros Hs. unfold validateProfileSourceReferences.
  pose proof (commandSourceIds_spec config) as H.
  destruct (commandSourceIds config) as [ids|e]; [|now destruct H].
  destruct H as [_ Hids]. eexists. split; [reflexivity|].
  apply checkProfiles_spec. intros id _. apply Hids.
Qed.



Example validateProfileSourceReferences_sample :
  validateProfileSourceReferences (loaded Samples.hubConfig)
  = Returned (mkFindings
      ["Profile " +:+ quote +:+ "Developers" +:+ quote +:+ " (dev): Bundle " +:+ quote
       +:+ "plan" +:+ quote +:+ " is missing source reference";
       "Profile " +:+ quote +:+ "Developers" +:+ quote +:+ " (dev): Bundle " +:+ quote
       +:+ "deploy" +:+ quote +:+ " references non-existent source " +:+ quote +:+ "gone"
       +:+ quote] [])
  /\ errors (scriptValidateProfileSourceReferences (loaded Samples.hubConfig))
     = ["Profile " +:+ quote +:+ "Developers" +:+ quote +:+ ": Bundle " +:+ quote
        +:+ "plan" +:+ quote +:+ " is missing source reference";
        "Profile " +:+ quote +:+ "Developers" +:+ quote +:+ ": Bundle " +:+ quote
        +:+ "deploy" +:+ quote +:+ " references non-existent source " +:+ quote +:+ "gone"
        +:+ quote].
Proof. vm_compute. split; reflexivity. Qed.

(** With [sources: github] in the YAML, a string, the command throws and
    the script reports every reference that names a source. *)
Example validateProfileSourceReferences_no_array :
  let config := mkLoaded NotAnArray (profiles Samples.hubConfig) in
  validateProfileSourceReferences config = Threw notAFunction
  /\ length (errors (scriptValidateProfileSourceReferences config))
     = length (references config).
Proof. vm_compute. split; reflexivity. Qed.

(** *** URL accessibility *)

Lemma all_never_rejected {A} (promises : list (Prober.Promise A)) :
  (forall p, p ∈ promises -> forall e, p <> Prober.Rejected e) ->
  forall e, Prober.all promises <> Prober.Rejected e.
Proof.
  induction promises as [|p rest IH]; intros Hnr e; [discriminate|].
  assert (Hp : forall e', p <> Prober.Rejected e') by (apply Hnr, list_elem_of_here).
  assert (Hrest : forall e', Prober.all rest <> Prober.Rejected e').
  { apply IH. intros q Hq. apply Hnr. now apply list_elem_of_further. }
  cbn [Prober.all]. destruct p as [|a|e']; [| |now contradiction (Hp e')];
    destruct (Prober.all rest) as [|l|e'] eqn:E; try discriminate;
    now contradiction (Hrest e').
Qed.

Lemma fold_processResult entries :
  forall st,
  findings (fold_left processResult entries st)
  = mkFindings
      (errors (findings st) ++ map messageOf (List.filter isError entries))
      (warnings (findings st) ++ map messageOf (List.filter isWarning entries)).
Proof.
  induction entries as [|[[source url] result] rest IH]; intros st.
  - cbn. rewrite !app_nil_r. now destruct (findings st).
  - cbn [fold_left]. rewrite IH. cbn [List.filter].
    unfold processResult, isError, isWarning. cbn [snd fst].
    destruct (Prober.severity result); cbn [findings errors warnings map];
      rewrite <- ?app_assoc; reflexivity.
Qed.

Lemma pushCheck_length srcs :
  forall acc, length (fold_left pushCheck srcs acc) <= length acc + length srcs.
Proof.
  induction srcs as [|s rest IH]; intros acc; cbn [fold_left length]; [lia|].
  etransitivity; [apply IH|]. unfold pushCheck.
  destruct (urlToCheck s); [rewrite length_app; cbn|]; lia.
Qed.

Lemma findings_length {A} (f g : A -> bool) (l : list A) :
  (forall x, f x = true -> g x = false) ->
  length (List.filter f l) + length (List.filter g l) <= length l.
Proof.
  intros Hfg. induction l as [|x rest IH]; [reflexivity|]. cbn [List.filter].
  destruct (f x) eqn:Ef.
  - rewrite (Hfg x Ef). cbn. lia.
  - destruct (g x); cbn; lia.
Qed.

Section WithNetwork.

Variable newURL : string -> option URL.
Variable resolveLocation : string -> string -> option string.
Variable request : Prober.Transport -> string -> N -> Prober.Reply.

Abbreviation checkUrls := (Prober.checkUrls newURL resolveLocation request).
Abbreviation validateUrls := (HubValidation.validateUrls newURL resolveLocation request).

Lemma checkUrls_never_rejects fuel urls timeout e :
  checkUrls fuel urls timeout <> Prober.Rejected e.
Proof.
  unfold Prober.checkUrls. apply all_never_rejected.
  intros p Hp e' ->. apply list_elem_of_fmap in Hp as (u & Hu & _).
  symmetry in Hu. eapply ProberFacts.checkUrl_never_rejects. exact Hu.
Qed.

Lemma validateUrls_unfold fuel config channel :
  fst (validateUrls fuel config channel)
  = match urlChecksOf config with
    | [] => Prober.Fulfilled (mkFindings [] [])
    | _ :: _ =>
        match checkUrls fuel (map snd (urlChecksOf config)) None with
        | Prober.Fulfilled results =>
            Prober.Fulfilled
              (mkFindings
                 (map messageOf (List.filter isError (combine (urlChecksOf config) results)))
                 (map messageOf
                    (List.filter isWarning (combine (urlChecksOf config) results))))
        | Prober.Rejected e => Prober.Rejected e
        | Prober.Pending => Prober.Pending
        end
    end.
Proof.
  unfold HubValidation.validateUrls, urlChecksOf.
  destruct (sources config) as [[|s srcs]|]; [reflexivity| |reflexivity].
  cbn [from_option id]. cbn zeta.
  destruct (fold_left pushCheck (s :: srcs) []) as [|c checks] eqn:E; [reflexivity|].
  cbn [length Nat.eqb].
  destruct (Prober.checkUrls _ _ _ _ _ _) as [|results|e]; try reflexivity.
  cbn [fst]. now rewrite fold_processResult.
Qed.

(** X25.  [validateUrls] checks one URL for every source that has a URL,
    or a repository on GitHub or GitLab, and none for the others.  It never
    rejects.  Without a URL to check it resolves at once with no finding.
    Otherwise it resolves when all checks have resolved, with one error
    for every check whose severity is error and one warning for every
    check whose severity is warning, each in the order of the sources, so
    with at most one finding per source; and while a check stays pending
    (a cycle of redirects) it stays pending. *)
Theorem validateUrls_spec (fuel : nat) (config : HubConfig) (channel : list string) :
  let run := fst (validateUrls fuel config channel) in
  let checks := urlChecksOf config in
  (forall e, run <> Prober.Rejected e)
  /\ length checks <= length (default [] (sources config))
  /\ (checks = [] -> run = Prober.Fulfilled (mkFindings [] []))
  /\ (checks <> [] ->
        match checkUrls fuel (map snd checks) None with
        | Prober.Fulfilled results =>
            length results = length checks
            /\ run = Prober.Fulfilled
                       (mkFindings
                          (map messageOf (List.filter isError (combine checks results)))
                          (map messageOf (List.filter isWarning (combine checks results))))
        | _ => run = Prober.Pending
        end)
  /\ (forall found, run = Prober.Fulfilled found ->
        length (errors found) + length (warnings found) <= length checks).
Proof.
  cbn zeta. rewrite validateUrls_unfold.
  assert (Hlen : forall results,
             checkUrls fuel (map snd (urlChecksOf config)) None = Prober.Fulfilled results ->
             length results = length (urlChecksOf config)).
  { intros results H. apply ProberFacts.all_Fulfilled in H.
    apply (f_equal length) in H. rewrite !length_map in H. congruence. }
  split; [|split; [|split; [|split]]].
  - intros e. destruct (urlChecksOf config); [discriminate|].
    destruct (checkUrls _ _ _) as [|results|e'] eqn:E; try discriminate.
    exfalso. eapply checkUrls_never_rejects. exact E.
  - unfold urlChecksOf. apply (pushCheck_length _ []).
  - now intros ->.
  - intros Hne. destruct (urlChecksOf config) as [|c checks] eqn:Ec; [contradiction|].
    destruct (checkUrls _ _ _) as [|results|e'] eqn:E; [reflexivity| |].
    + split; [now apply Hlen|reflexivity].
    + exfalso. eapply checkUrls_never_rejects. exact E.
  - intros found. destruct (urlChecksOf config) as [|c checks] eqn:Ec.
    + intros [= <-]. cbn. lia.
    + destruct (checkUrls _ _ _) as [|results|e'] eqn:E; try discriminate.
      intros [= <-]. cbn [errors warnings]. rewrite !length_map.
      etransitivity; [apply findings_length|].
      * intros x. unfold isError, isWarning. now destruct (Prober.severity (snd x)).
      * destruct results as [|r results']; cbn [length]; [lia|].
        rewrite length_combine. lia.
Qed.

End WithNetwork.

(** The sample hub, whose second source redirects to itself, and the hub
    whose one URL answers. *)
Example validateUrls_sample :
  HubValidation.validateUrls Samples.newURL Samples.resolveLocation Samples.request 5
    Samples.reachableHub []
  = (Prober.Fulfilled (mkFindings [] []),
     ["   Checking 1 URL(s)..." +:+ newline;
      "   ✅ hub-source (https://example.com/hub)";
      "      Accessible (200)";
      ""])
  /\ fst (HubValidation.validateUrls Samples.newURL Samples.resolveLocation Samples.request 5
            Samples.hubConfig []) = Prober.Pending.
Proof. vm_compute. split; reflexivity. Qed.

End HubValidationFacts.

(** ** The registry is a singleton *)

Module RegistryInstanceFacts.
Import RegistryInstance.

Section WithContext.

Context {Context : Type}.
Implicit Types (st : Static Context).

Lemma getInstances_existing (registry : MigrationRegistry Context) contexts :
  forall st, instance st = Some registry ->
  getInstances contexts st = (map (fun _ => Returned registry) contexts, st).
Proof.
  induction contexts as [|c rest IH]; intros st Hst; [reflexivity|].
  cbn [getInstances map]. unfold getInstance. rewrite Hst. now rewrite (IH st Hst).
Qed.

(** X26.  [getInstance] hands out one object.  Once a first call with a
    context has created the registry, every later call returns that same
    object, constructed with the first context, whatever context or none
    the later callers pass, and creates no other.  A first call without a
    context throws and leaves the class without an instance; and after
    [resetInstance] the next call creates a new object. *)
Theorem getInstance_is_a_singleton
    (st : Static Context) (first : Context) (later : list (option Context)) :
  instance st = None ->
  let registry := mkRegistry (created st) first in
  let '(results, st') := getInstances (Some first :: later) st in
  results = Returned registry :: map (fun _ => Returned registry) later
  /\ instance st' = Some registry
  /\ created st' = S (created st)
  /\ getInstance None st
     = (Threw (mkError "MigrationRegistry requires context on first call" None), st)
  /\ (forall next, exists fresh,
        fst (getInstance (Some next) (resetInstance st')) = Returned fresh
        /\ object fresh <> object registry
        /\ context fresh = next).
Proof.
  intros Hnone. cbn zeta. cbn [getInstances]. unfold getInstance at 1. rewrite Hnone.
  rewrite (getInstances_existing (mkRegistry (created st) first)) by reflexivity.
  split; [reflexivity|]. split; [reflexivity|]. split; [reflexivity|]. split.
  - unfold getInstance. now rewrite Hnone.
  - intros next. eexists. split; [reflexivity|]. cbn. split; [lia|reflexivity].
Qed.

End WithContext.

Lemma getInstance_is_a_singleton_witness :
  fst (getInstances [Some "first"; None; Some "second"] (mkStatic None 0))
  = [Returned (mkRegistry 0 "first"); Returned (mkRegistry 0 "first");
     Returned (mkRegistry 0 "first")].
Proof.
  exact (proj1 (getInstance_is_a_singleton (mkStatic None 0) "first" [None; Some "second"]
                  eq_refl)).
Defined.

End RegistryInstanceFacts.

(** ** Runner patterns *)

Module ScaffoldFacts.
Import Scaffold.

Example resolveRunnerPattern_tests :
  resolveRunnerPattern "gmsshr-core-{githubOrg}" "myorg" = "gmsshr-core-myorg"
  /\ resolveRunnerPattern "ubuntu-latest" "myorg" = "ubuntu-latest"
  /\ resolveRunnerPattern "{githubOrg}-runner-{githubOrg}" "acme" = "acme-runner-acme"
  /\ resolveRunnerPattern "prefix-{githubOrg}" "" = "prefix-".
Proof. repeat split. Qed.

(** A dollar sign in the organisation is read as a replacement pattern. *)
Example resolveRunnerPattern_dollar :
  resolveRunnerPattern "x-{githubOrg}-y" "a$&b" = "x-a{githubOrg}b-y"
  /\ resolveRunnerPattern "x-{githubOrg}-y" "$$" = "x-$-y"
  /\ resolveRunnerPattern "x-{githubOrg}-y" "$'" = "x--y-y"
  /\ resolveRunnerPattern "x-{githubOrg}-y" "$1" = "x-$1-y".
Proof. repeat split. Qed.

Lemma includes_cons needle c r :
  Js.includes needle (String c r) = false ->
  Js.startsWith needle (String c r) = false /\ Js.includes needle r = false.
Proof. cbn [Js.includes]. intros H. now apply orb_false_iff in H. Qed.

Lemma substitution_plain githubOrg matched before after :
  Js.includes "$" githubOrg = false ->
  substitution githubOrg matched before after = githubOrg.
Proof.
  induction githubOrg as [|c r IH]; [reflexivity|]. intros H.
  apply includes_cons in H as [Hc Hr]. cbn [substitution].
  rewrite Ascii.eqb_sym. revert Hc. cbn [Js.startsWith].
  destruct (Ascii.eqb "$" c); [discriminate|]. intros _. now rewrite IH.
Qed.

Lemma replaceFrom_without githubOrg rest :
  forall before, Js.includes placeholder rest = false ->
  replaceFrom githubOrg 0 before rest = rest.
Proof.
  induction rest as [|c r IH]; intros before H; [reflexivity|].
  apply includes_cons in H as [Hc Hr]. cbn [replaceFrom]. rewrite Hc. now rewrite IH.
Qed.

Lemma replaceFrom_before githubOrg rest :
  Js.includes "$" githubOrg = false ->
  forall skip before before',
  replaceFrom githubOrg skip before rest = replaceFrom githubOrg skip before' rest.
Proof.
  intros Hplain. induction rest as [|c r IH]; intros skip before before'; [reflexivity|].
  cbn [replaceFrom]. destruct skip as [|k]; [|apply IH].
  destruct (Js.startsWith placeholder (String c r)).
  - rewrite !substitution_plain by exact Hplain. f_equal. apply IH.
  - f_equal. apply IH.
Qed.

Lemma startsWith_length p s :
  Js.startsWith p s = true -> String.length p <= String.length s.
Proof.
  revert s. induction p as [|a p IH]; intros s; [cbn; lia|].
  destruct s as [|b s]; [discriminate|]. cbn.
  destruct (Ascii.eqb a b); [|discriminate]. intros H. apply IH in H. lia.
Qed.

(** No occurrence of the placeholder begins before another occurrence and
    ends inside it: the brace that opens the placeholder occurs in it only
    once. *)
Lemma no_straddle c a r :
  Js.startsWith placeholder (String c a +:+ placeholder +:+ r)
  = Js.startsWith placeholder (String c a).
Proof.
  unfold placeholder. rewrite JsFacts.append_cons. cbn [Js.startsWith].
  destruct (Ascii.eqb "{" c); [|reflexivity].
  do 10 (destruct a as [|? a];
         [reflexivity|
          rewrite JsFacts.append_cons; cbn [Js.startsWith];
          match goal with |- context [Ascii.eqb ?x ?y] => destruct (Ascii.eqb x y) end;
          [|reflexivity]]).
  reflexivity.
Qed.

Lemma replaceFrom_split githubOrg b :
  Js.includes "$" githubOrg = false ->
  forall a skip before,
  skip <= String.length a ->
  replaceFrom githubOrg skip before (a +:+ placeholder +:+ b)
  = replaceFrom githubOrg skip before a +:+ githubOrg +:+ replaceFrom githubOrg 0 "" b.
Proof.
  intros Hplain. induction a as [|c a IH]; intros skip before Hskip.
  - cbn in Hskip. assert (skip = 0) as -> by lia.
    change ("" +:+ placeholder +:+ b)
      with (String "{" ("githubOrg}" +:+ b)).
    cbn [replaceFrom]. change (Js.startsWith placeholder (String "{" ("githubOrg}" +:+ b)))
      with true. cbn iota.
    rewrite substitution_plain by exact Hplain.
    match goal with
    | |- _ = ?e +:+ ?x => change (e +:+ x) with x
    end.
    f_equal.
    change ("githubOrg}" +:+ b)
      with (String "g" (String "i" (String "t" (String "h" (String "u" (String "b"
             (String "O" (String "r" (String "g" (String "}" b)))))))))).
    cbn [replaceFrom]. now apply replaceFrom_before.
  - rewrite JsFacts.append_cons. cbn [replaceFrom]. destruct skip as [|k].
    + rewrite <- JsFacts.append_cons, no_straddle.
      destruct (Js.startsWith placeholder (String c a)) eqn:Hs.
      * rewrite !substitution_plain by exact Hplain.
        rewrite JsFacts.append_assoc. f_equal. apply IH.
        apply startsWith_length in Hs. cbn in Hs. lia.
      * rewrite JsFacts.append_cons. f_equal. apply IH. lia.
    + apply IH. cbn in Hskip. lia.
Qed.

(** X27.  [resolveRunnerPattern] leaves a pattern without the placeholder
    [{githubOrg}] as it is, whatever the organisation.  When the
    organisation contains no dollar sign, every occurrence of the
    placeholder is replaced by the organisation and the text between the
    occurrences is kept: the result for [a{githubOrg}b] is the result for
    [a], the organisation, and the result for [b].  (A dollar sign in the
    organisation is read as a replacement pattern of [replace].) *)
Theorem resolveRunnerPattern_spec (pattern githubOrg : string) :
  (Js.includes placeholder pattern = false ->
     resolveRunnerPattern pattern githubOrg = pattern)
  /\ (Js.includes "$" githubOrg = false ->
      forall a b,
        resolveRunnerPattern (a +:+ placeholder +:+ b) githubOrg
        = resolveRunnerPattern a githubOrg +:+ githubOrg
          +:+ resolveRunnerPattern b githubOrg)
  /\ (Js.includes "$" githubOrg = false ->
      forall a b,
        Js.includes placeholder a = false -> Js.includes placeholder b = false ->
        resolveRunnerPattern (a +:+ placeholder +:+ b) githubOrg
        = a +:+ githubOrg +:+ b).
Proof.
  unfold resolveRunnerPattern. split; [apply replaceFrom_without|]. split.
  - intros Hplain a b. apply replaceFrom_split; [exact Hplain|lia].
  - intros Hplain a b Ha Hb. rewrite replaceFrom_split by (exact Hplain || lia).
    now rewrite !replaceFrom_without.
Qed.

End ScaffoldFacts.

(** ** The script's URL check *)

Module HubScriptFacts.
Import HubScript.

Lemma isRedirect_isRedirection statusCode :
  Prober.isRedirect statusCode = true -> isRedirection statusCode = true.
Proof.
  destruct statusCode as [c|]; [|discriminate]. cbn.
  rewrite !orb_true_iff, !N.eqb_eq. intros H.
  apply andb_true_iff. rewrite N.leb_le, N.ltb_lt. lia.
Qed.

(** The severity and status code of the script's answer to a response are
    those of the extension's. *)
Lemma respond_classify url url' statusCode :
  SameVerdict (respond url statusCode) (Prober.classify url' (default 0%N statusCode)).
Proof.
  unfold SameVerdict, respond, Prober.classify.
  destruct statusCode as [c|]; cbn [default from_option id].
  - destruct ((200 <=? c)%N && (c <? 300)%N); [cbn; auto|].
    destruct ((c =? 401)%N || (c =? 403)%N); [cbn; auto|].
    destruct (c =? 404)%N; cbn; auto.
  - cbn. auto.
Qed.

Section WithNetwork.

Variable newURL : string -> option URL.
Variable resolveLocation : string -> string -> option string.
Variable request : Prober.Transport -> string -> N -> Outcome.

Hypothesis Hstandard : RedirectsAreStandard request.
Hypothesis Hthrow : OtherProtocolsThrow newURL request.

Local Abbreviation makeRequest := (Prober.makeRequest newURL resolveLocation (asReply request)).
Local Abbreviation scriptCheck := (checkUrl newURL resolveLocation request).

Lemma asReply_unfold t url timeout :
  asReply request t url timeout
  = match request t url timeout with
    | Thrown e => Prober.Failure e
    | Emitted reply => reply
    end.
Proof. reflexivity. Qed.

Lemma same_redirects t url timeout statusCode location aftermath :
  request t url timeout = Emitted (Prober.Response statusCode location aftermath) ->
  isRedirection statusCode && Js.truthy location
  = Prober.isRedirect statusCode && Js.truthy location.
Proof.
  intros Hreq. destruct (Js.truthy location) eqn:Hloc; [|now rewrite !andb_false_r].
  rewrite !andb_true_r. destruct (isRedirection statusCode) eqn:Hred.
  - symmetry. eapply Hstandard; eauto.
  - destruct (Prober.isRedirect statusCode) eqn:Hr; [|reflexivity].
    apply isRedirect_isRedirection in Hr. congruence.
Qed.

Lemma unsupported_protocol parsedUrl :
  negb (String.eqb (protocol parsedUrl) "http:")
  && negb (String.eqb (protocol parsedUrl) "https:")
  = negb (Prober.supported parsedUrl).
Proof. unfold Prober.supported. now rewrite negb_orb. Qed.

Lemma makeRequest_unfold fuel url timeout parsedUrl :
  newURL url = Some parsedUrl ->
  makeRequest (S fuel) url timeout
  = match request (Prober.transportOf parsedUrl) url timeout with
    | Thrown e => ([url], Prober.Rejected e)
    | Emitted (Prober.Response statusCode location aftermath) =>
        if Prober.isRedirect statusCode && Js.truthy location then
          let '(later, p) :=
            match resolveLocation (default "" location) url with
            | Some redirectUrl => makeRequest fuel redirectUrl timeout
            | None => ([], Prober.Pending)
            end in
          match aftermath with
          | Prober.Quiet => (url :: later, p)
          | Prober.LaterFailure e => (url :: later, Prober.Rejected e)
          | Prober.LaterIdle =>
              (url :: later, Prober.Rejected (Prober.timeoutError timeout))
          end
        else ([url], Prober.Fulfilled (default 0%N statusCode))
    | Emitted (Prober.Failure e) => ([url], Prober.Rejected e)
    | Emitted Prober.Idle => ([url], Prober.Rejected (Prober.timeoutError timeout))
    end.
Proof.
  intros Hurl. cbn [Prober.makeRequest]. rewrite Hurl.
  fold (Prober.transportOf parsedUrl). rewrite asReply_unfold.
  now destruct (request (Prober.transportOf parsedUrl) url timeout) as [e|[| |]].
Qed.

Lemma script_settles_makeRequest timeout :
  forall fuel url r,
    scriptCheck fuel url timeout = Prober.Fulfilled r ->
    Matches r (snd (makeRequest (S fuel) url timeout)).
Proof.
  induction fuel as [|fuel IH]; intros url r.
  - cbn [checkUrl].
    destruct (newURL url) as [parsedUrl|] eqn:Hurl.
    + rewrite unsupported_protocol.
      destruct (Prober.supported parsedUrl) eqn:Hs; cbn [negb]; [discriminate|].
      intros [= <-]. rewrite (makeRequest_unfold _ _ _ _ Hurl).
      destruct (Hthrow (Prober.transportOf parsedUrl) url timeout parsedUrl Hurl Hs)
        as [e He].
      rewrite He. cbn. auto.
    + intros [= <-]. cbn [Prober.makeRequest]. rewrite Hurl. cbn. auto.
  - cbn [checkUrl].
    destruct (newURL url) as [parsedUrl|] eqn:Hurl;
      [|intros [= <-]; cbn [Prober.makeRequest]; rewrite Hurl; cbn; auto].
    rewrite (makeRequest_unfold _ _ _ _ Hurl).
    rewrite unsupported_protocol. cbn zeta. fold (Prober.transportOf parsedUrl).
    set (t := Prober.transportOf parsedUrl).
    destruct (Prober.supported parsedUrl) eqn:Hs; cbn [negb].
    + destruct (request t url timeout) as [e|[statusCode location aftermath|e|]] eqn:Hreq.
      * intros [= <-]. cbn. auto.
      * rewrite (same_redirects _ _ _ _ _ _ Hreq).
        destruct (Prober.isRedirect statusCode && Js.truthy location).
        -- destruct aftermath as [|e|].
           ++ destruct (resolveLocation (default "" location) url) as [redirectUrl|];
                [|discriminate].
              intros Hr. specialize (IH _ _ Hr).
              destruct (makeRequest (S fuel) redirectUrl timeout) as [later p].
              cbn [snd] in IH |- *. exact IH.
           ++ intros [= <-].
              destruct (match resolveLocation _ url with Some _ => _ | None => _ end).
              cbn. auto.
           ++ intros [= <-].
              destruct (match resolveLocation _ url with Some _ => _ | None => _ end).
              cbn. auto.
        -- intros [= <-]. cbn [snd Matches]. intros url'. apply respond_classify.
      * intros [= <-]. cbn. auto.
      * intros [= <-]. cbn. auto.
    + intros [= <-]. destruct (Hthrow t url timeout parsedUrl Hurl Hs) as [e He].
      rewrite He. cbn. auto.
Qed.

Lemma makeRequest_settles_script timeout :
  forall fuel url,
    snd (makeRequest fuel url timeout) <> Prober.Pending ->
    exists r, scriptCheck fuel url timeout = Prober.Fulfilled r
              /\ Matches r (snd (makeRequest fuel url timeout)).
Proof.
  induction fuel as [|fuel IH]; intros url.
  - cbn [checkUrl Prober.makeRequest].
    destruct (newURL url) as [parsedUrl|] eqn:Hurl.
    + cbn. congruence.
    + intros _. eexists. split; [reflexivity|]. cbn. auto.
  - cbn [checkUrl].
    destruct (newURL url) as [parsedUrl|] eqn:Hurl;
      [|intros _; cbn [Prober.makeRequest]; rewrite Hurl; eexists;
        split; [reflexivity|]; cbn; auto].
    rewrite (makeRequest_unfold _ _ _ _ Hurl).
    rewrite unsupported_protocol. cbn zeta. fold (Prober.transportOf parsedUrl).
    set (t := Prober.transportOf parsedUrl).
    destruct (Prober.supported parsedUrl) eqn:Hs; cbn [negb].
    + destruct (request t url timeout) as [e|[statusCode location aftermath|e|]] eqn:Hreq.
      * intros _. eexists. split; [reflexivity|]. cbn. auto.
      * rewrite (same_redirects _ _ _ _ _ _ Hreq).
        destruct (Prober.isRedirect statusCode && Js.truthy location).
        -- destruct aftermath as [|e|].
           ++ destruct (resolveLocation (default "" location) url) as [redirectUrl|];
                [|cbn; congruence].
              specialize (IH redirectUrl).
              destruct (makeRequest fuel redirectUrl timeout) as [later p].
              cbn [snd] in IH |- *. exact IH.
           ++ intros _. eexists. split; [reflexivity|].
              destruct (match resolveLocation _ url with Some _ => _ | None => _ end).
              cbn. auto.
           ++ intros _. eexists. split; [reflexivity|].
              destruct (match resolveLocation _ url with Some _ => _ | None => _ end).
              cbn. auto.
        -- intros _. eexists. split; [reflexivity|]. cbn [snd Matches].
           intros url'. apply respond_classify.
      * intros _. eexists. split; [reflexivity|]. cbn. auto.
      * intros _. eexists. split; [reflexivity|]. cbn. auto.
    + intros _. eexists. split; [reflexivity|].
      destruct (Hthrow t url timeout parsedUrl Hurl Hs) as [e He].
      rewrite He. cbn. auto.
Qed.

Lemma script_never_rejects timeout :
  forall fuel url e, scriptCheck fuel url timeout <> Prober.Rejected e.
Proof.
  induction fuel as [|fuel IH]; intros url e; cbn [checkUrl];
    destruct (newURL url) as [parsedUrl|]; try discriminate;
    destruct (negb _ && negb _); try discriminate.
  destruct (request _ url timeout) as [?|[statusCode location aftermath|?|]];
    try discriminate.
  destruct (isRedirection statusCode && Js.truthy location); [|discriminate].
  destruct aftermath; try discriminate.
  destruct (resolveLocation _ url); [apply IH|discriminate].
Qed.

Lemma extension_settles_once timeout url fuel fuel' r r' :
  snd (Prober.checkUrl newURL resolveLocation (asReply request) fuel url (Some timeout))
    = Prober.Fulfilled r ->
  snd (Prober.checkUrl newURL resolveLocation (asReply request) fuel' url (Some timeout))
    = Prober.Fulfilled r' ->
  r = r'.
Proof.
  destruct (newURL url) as [parsedUrl|] eqn:Hurl.
  - destruct (Prober.supported parsedUrl) eqn:Hs.
    + rewrite !(ProberFacts.checkUrl_requested _ _ _ _ _ _ _ Hurl Hs).
      cbn [default from_option id].
      destruct (makeRequest fuel url timeout) as [sent p] eqn:E.
      destruct (makeRequest fuel' url timeout) as [sent' p'] eqn:E'.
      assert (Hp : snd (makeRequest fuel url timeout) = p) by now rewrite E.
      assert (Hp' : snd (makeRequest fuel' url timeout) = p') by now rewrite E'.
      clear E E'. intros H H'.
      assert (p = p') as <-.
      { eapply ProberFacts.makeRequest_settles_once; [exact Hp| |exact Hp'|].
        - destruct p; cbn in H; congruence.
        - destruct p'; cbn in H'; congruence. }
      destruct p; cbn [snd] in H, H'; congruence.
    + rewrite !(ProberFacts.checkUrl_unsupported _ _ _ _ _ _ _ Hurl Hs). cbn. congruence.
  - rewrite !(ProberFacts.checkUrl_unparsed _ _ _ _ _ _ Hurl). cbn. congruence.
Qed.

Lemma script_settles_extension timeout fuel url r :
  scriptCheck fuel url timeout = Prober.Fulfilled r ->
  exists r',
    snd (Prober.checkUrl newURL resolveLocation (asReply request) (S fuel) url
           (Some timeout)) = Prober.Fulfilled r'
    /\ SameVerdict r r'.
Proof.
  intros Hr. destruct (newURL url) as [parsedUrl|] eqn:Hurl.
  - destruct (Prober.supported parsedUrl) eqn:Hs.
    + rewrite (ProberFacts.checkUrl_requested _ _ _ _ _ _ _ Hurl Hs).
      cbn [default from_option id].
      apply script_settles_makeRequest in Hr.
      destruct (makeRequest (S fuel) url timeout) as [sent [|c|e]]; cbn [snd] in Hr |- *.
      * contradiction.
      * eexists. split; [reflexivity|]. apply Hr.
      * eexists. split; [reflexivity|]. destruct Hr as [Hsev Hcode].
        split; [exact Hsev|left; exact Hcode].
    + rewrite (ProberFacts.checkUrl_unsupported _ _ _ _ _ _ _ Hurl Hs).
      eexists. split; [reflexivity|].
      destruct fuel; cbn [checkUrl] in Hr; rewrite Hurl, unsupported_protocol, Hs in Hr;
        injection Hr as <-; (split; [reflexivity|left; reflexivity]).
  - rewrite (ProberFacts.checkUrl_unparsed _ _ _ _ _ _ Hurl).
    eexists. split; [reflexivity|].
    destruct fuel; cbn [checkUrl] in Hr; rewrite Hurl in Hr;
        injection Hr as <-; (split; [reflexivity|left; reflexivity]).
Qed.

Lemma extension_settles_script timeout fuel url r' :
  snd (Prober.checkUrl newURL resolveLocation (asReply request) fuel url (Some timeout))
    = Prober.Fulfilled r' ->
  exists r, scriptCheck fuel url timeout = Prober.Fulfilled r.
Proof.
  destruct (newURL url) as [parsedUrl|] eqn:Hurl.
  - destruct (Prober.supported parsedUrl) eqn:Hs.
    + rewrite (ProberFacts.checkUrl_requested _ _ _ _ _ _ _ Hurl Hs).
      cbn [default from_option id]. intros Hr'.
      destruct (makeRequest_settles_script timeout fuel url) as [r [Hr _]]; [|now exists r].
      destruct (makeRequest fuel url timeout) as [sent [|c|e]]; cbn [snd] in *; congruence.
    + intros _. destruct fuel; cbn [checkUrl]; rewrite Hurl, unsupported_protocol, Hs;
        eexists; reflexivity.
  - intros _. destruct fuel; cbn [checkUrl]; rewrite Hurl; eexists; reflexivity.
Qed.

End WithNetwork.

(** X28.  The script's [checkUrl] and the extension's give the same
    verdict on a network where servers send a [Location] only with 301,
    302, 307 and 308, and where [request] throws on a URL that is neither
    http nor https.  If the extension's promise is resolved after some
    requests, so is the script's; if the script's is, the extension's is
    after at most one request more; and whenever both are resolved the
    results have the same severity and the same status code (a response
    without a status code being reported as 0 by the extension).  The
    script's promise is never rejected. *)
Theorem script_and_extension_agree
    (newURL : string -> option URL) (resolveLocation : string -> string -> option string)
    (request : Prober.Transport -> string -> N -> Outcome)
    (url : string) (timeout : N) :
  RedirectsAreStandard request ->
  OtherProtocolsThrow newURL request ->
  let script fuel := checkUrl newURL resolveLocation request fuel url timeout in
  let extension fuel :=
    snd (Prober.checkUrl newURL resolveLocation (asReply request) fuel url
           (Some timeout)) in
  (forall fuel r', extension fuel = Prober.Fulfilled r' ->
     exists r, script fuel = Prober.Fulfilled r)
  /\ (forall fuel r, script fuel = Prober.Fulfilled r ->
        exists r', extension (S fuel) = Prober.Fulfilled r')
  /\ (forall fuel fuel' r r',
        script fuel = Prober.Fulfilled r -> extension fuel' = Prober.Fulfilled r' ->
        SameVerdict r r')
  /\ (forall fuel e, script fuel <> Prober.Rejected e).
Proof.
  intros Hstandard Hthrow script extension. subst script extension. cbn beta.
  split; [|split; [|split]].
  - intros fuel r'. now apply extension_settles_script.
  - intros fuel r Hr.
    destruct (script_settles_extension _ _ _ Hstandard Hthrow _ _ _ _ Hr) as [r' [Hr' _]].
    now exists r'.
  - intros fuel fuel' r r' Hr Hr'.
    destruct (script_settles_extension _ _ _ Hstandard Hthrow _ _ _ _ Hr) as [r'' [Hr'' Hv]].
    now rewrite <- (extension_settles_once _ _ _ _ _ _ _ _ _ Hr'' Hr').
  - intros fuel e. apply script_never_rejects.
Qed.

Lemma chain_is_standard : RedirectsAreStandard Samples.chainOutcome.
Proof.
  intros t url timeout statusCode location aftermath. unfold Samples.chainOutcome.
  intros [= H]. unfold Samples.chainRequest in H.
  destruct (Js.dropStr 20 url); injection H as <- <- <-; [discriminate|reflexivity].
Qed.

Lemma chain_is_https : OtherProtocolsThrow Samples.chainURL Samples.chainOutcome.
Proof.
  intros t url timeout parsedUrl. unfold Samples.chainURL.
  destruct (Js.startsWith _ url); [|discriminate]. intros [= <-]. discriminate.
Qed.

Lemma script_and_extension_agree_witness :
  RedirectsAreStandard Samples.chainOutcome
  /\ OtherProtocolsThrow Samples.chainURL Samples.chainOutcome
  /\ exists r',
       snd (Prober.checkUrl Samples.chainURL Samples.chainResolve
              (asReply Samples.chainOutcome) 4 "https://example.com/ab" (Some 10000%N))
       = Prober.Fulfilled r'.
Proof.
  split; [exact chain_is_standard|]. split; [exact chain_is_https|].
  exact (proj1 (proj2
           (script_and_extension_agree Samples.chainURL Samples.chainResolve
              Samples.chainOutcome "https://example.com/ab" 10000%N
              chain_is_standard chain_is_https))
           3 _ eq_refl).
Defined.

(** A 303 with a [Location] is followed by the script and reported as an
    error by the extension; the script names the URL it ended on. *)
Example see_other_is_told_apart :
  checkUrl Samples.newURL Samples.chainResolve Samples.seeOther 2
    "https://example.com/loop" 10000
  = Prober.Fulfilled
      (mkCheck "https://example.com/hub" (Some 200%N) Prober.SeveritySuccess "Accessible")
  /\ snd (Prober.checkUrl Samples.newURL Samples.chainResolve (asReply Samples.seeOther) 2
            "https://example.com/loop" (Some 10000%N))
     = Prober.Fulfilled
         (Prober.mkResult "https://example.com/loop" false (Some 303%N) (Some "HTTP 303")
            Prober.SeverityError "HTTP Error 303").
Proof. split; vm_compute; reflexivity. Qed.

End HubScriptFacts.
